(** * Gamebryo save-game synchronisation: a shallow embedding

    The development follows the sources of the extension:

    - [util/gameSupport.ts]      : the static table of supported games;
    - [util/refreshSavegames.ts] : the directory scan with its retry policy;
    - the entry module           : the store synchroniser and the watch
                                   set-up bound to [profile-did-change].

    Promises are embedded by the way they settle ([Resolved] / [Rejected]);
    the world the code talks to (file system, decoder library, ini parser)
    is an explicit record of answers, and every action on the outside is
    written to an event log, in order. *)

From Stdlib Require Import ZArith Ascii String List Lia.
From stdpp Require Import base option list gmap strings fin_maps.

Local Open Scope Z_scope.

(** ** JavaScript strings *)

Module Js.

(** [String.prototype.toLowerCase] on the ASCII range; code units outside
    [A-Z] are left as they are. *)
Definition lowerChar (c : ascii) : ascii :=
  let n := N_of_ascii c in
  if ((65 <=? n) && (n <=? 90))%N then ascii_of_N (n + 32) else c.

Fixpoint toLowerCase (s : string) : string :=
  match s with
  | EmptyString => EmptyString
  | String c r => String (lowerChar c) (toLowerCase r)
  end.

(** [s.startsWith(p)] *)
Definition startsWith (s p : string) : bool := String.prefix p s.

(** [s.charCodeAt(i)], only used inside [0, s.length). *)
Definition charAt (s : string) (i : nat) : ascii :=
  default "000"%char (String.get i s).

(** [s.slice(a, b)] for [0 <= a]; empty when [b <= a]. *)
Definition slice (s : string) (a b : Z) : string :=
  String.substring (Z.to_nat a) (Z.to_nat (b - a)) s.

Definition len (s : string) : Z := Z.of_nat (String.length s).

(** [s.lastIndexOf(c)], [-1] when absent. *)
Fixpoint lastIndexOf_go (s : string) (c : ascii) (i : Z) (acc : Z) : Z :=
  match s with
  | EmptyString => acc
  | String d r => lastIndexOf_go r c (i + 1) (if Ascii.eqb c d then i else acc)
  end.
Definition lastIndexOf (s : string) (c : ascii) : Z := lastIndexOf_go s c 0 (-1).

(** [['.ess', '.fos'].indexOf(x) !== -1] *)
Definition includes (l : list string) (x : string) : bool :=
  existsb (String.eqb x) l.

End Js.

(** ** The [path] module of the runtime

    The extension only calls [path.extname], [path.basename], [path.join] and
    reads [path.sep].  The runtime ships two implementations of that
    interface (POSIX and Windows), so the code is embedded against the
    interface; [PosixPath] below is the POSIX implementation, following the
    runtime's loops, and is what the examples run on. *)

Class PathModule := {
  sep : string;
  extname : string -> string;
  basename : string -> string;
  (** [path.basename(p, ext)] *)
  basenameExt : string -> string -> string;
  join : list string -> string;
}.

Module PosixPath.

Definition isSep (c : ascii) : bool := Ascii.eqb c "/"%char.
Definition isDot (c : ascii) : bool := Ascii.eqb c "."%char.

(** Loop state of [extname]. *)
Record ExtLoop := {
  startDot : Z; startPart : Z; endIdx : Z; matchedSlash : bool; preDotState : Z }.

(** One iteration per index, from [n - 1] down to [0]; a [break] returns. *)
Fixpoint extname_loop (p : string) (n : nat) (st : ExtLoop) : ExtLoop :=
  match n with
  | O => st
  | S i =>
    let c := Js.charAt p i in
    if isSep c then
      if negb (matchedSlash st)
      then {| startDot := startDot st; startPart := Z.of_nat i + 1; endIdx := endIdx st;
              matchedSlash := matchedSlash st; preDotState := preDotState st |}
      else extname_loop p i st
    else
      let st1 :=
        if endIdx st =? -1
        then {| startDot := startDot st; startPart := startPart st;
                endIdx := Z.of_nat i + 1; matchedSlash := false;
                preDotState := preDotState st |}
        else st in
      let st2 :=
        if isDot c then
          if startDot st1 =? -1
          then {| startDot := Z.of_nat i; startPart := startPart st1; endIdx := endIdx st1;
                  matchedSlash := matchedSlash st1; preDotState := preDotState st1 |}
          else if negb (preDotState st1 =? 1)
          then {| startDot := startDot st1; startPart := startPart st1; endIdx := endIdx st1;
                  matchedSlash := matchedSlash st1; preDotState := 1 |}
          else st1
        else if negb (startDot st1 =? -1)
        then {| startDot := startDot st1; startPart := startPart st1; endIdx := endIdx st1;
                matchedSlash := matchedSlash st1; preDotState := -1 |}
        else st1 in
      extname_loop p i st2
  end.

Definition extname (p : string) : string :=
  let st := extname_loop p (String.length p)
              {| startDot := -1; startPart := 0; endIdx := -1;
                 matchedSlash := true; preDotState := 0 |} in
  if (startDot st =? -1) || (endIdx st =? -1) || (preDotState st =? 0)
     || ((preDotState st =? 1) && (startDot st =? endIdx st - 1)
         && (startDot st =? startPart st + 1))
  then ""
  else Js.slice p (startDot st) (endIdx st).

(** Loop state of [basename]. *)
Record BaseLoop := {
  bStart : Z; bEnd : Z; bMatchedSlash : bool; extIdx : Z; firstNonSlashEnd : Z }.

(** The loop of [basename] without a suffix. *)
Fixpoint basename_loop (p : string) (n : nat) (st : BaseLoop) : BaseLoop :=
  match n with
  | O => st
  | S i =>
    let c := Js.charAt p i in
    if isSep c then
      if negb (bMatchedSlash st)
      then {| bStart := Z.of_nat i + 1; bEnd := bEnd st; bMatchedSlash := bMatchedSlash st;
              extIdx := extIdx st; firstNonSlashEnd := firstNonSlashEnd st |}
      else basename_loop p i st
    else if bEnd st =? -1
    then basename_loop p i
           {| bStart := bStart st; bEnd := Z.of_nat i + 1; bMatchedSlash := false;
              extIdx := extIdx st; firstNonSlashEnd := firstNonSlashEnd st |}
    else basename_loop p i st
  end.

Definition basename (p : string) : string :=
  let st := basename_loop p (String.length p)
              {| bStart := 0; bEnd := -1; bMatchedSlash := true;
                 extIdx := -1; firstNonSlashEnd := -1 |} in
  if bEnd st =? -1 then "" else Js.slice p (bStart st) (bEnd st).

(** The loop of [basename] that also matches the suffix from its end. *)
Fixpoint basenameExt_loop (p suffix : string) (n : nat) (st : BaseLoop) : BaseLoop :=
  match n with
  | O => st
  | S i =>
    let c := Js.charAt p i in
    if isSep c then
      if negb (bMatchedSlash st)
      then {| bStart := Z.of_nat i + 1; bEnd := bEnd st; bMatchedSlash := bMatchedSlash st;
              extIdx := extIdx st; firstNonSlashEnd := firstNonSlashEnd st |}
      else basenameExt_loop p suffix i st
    else
      let st1 :=
        if firstNonSlashEnd st =? -1
        then {| bStart := bStart st; bEnd := bEnd st; bMatchedSlash := false;
                extIdx := extIdx st; firstNonSlashEnd := Z.of_nat i + 1 |}
        else st in
      let st2 :=
        if 0 <=? extIdx st1 then
          if Ascii.eqb c (Js.charAt suffix (Z.to_nat (extIdx st1)))
          then
            if extIdx st1 - 1 =? -1
            then {| bStart := bStart st1; bEnd := Z.of_nat i;
                    bMatchedSlash := bMatchedSlash st1; extIdx := extIdx st1 - 1;
                    firstNonSlashEnd := firstNonSlashEnd st1 |}
            else {| bStart := bStart st1; bEnd := bEnd st1;
                    bMatchedSlash := bMatchedSlash st1; extIdx := extIdx st1 - 1;
                    firstNonSlashEnd := firstNonSlashEnd st1 |}
          else {| bStart := bStart st1; bEnd := firstNonSlashEnd st1;
                  bMatchedSlash := bMatchedSlash st1; extIdx := -1;
                  firstNonSlashEnd := firstNonSlashEnd st1 |}
        else st1 in
      basenameExt_loop p suffix i st2
  end.

Definition basenameExt (p suffix : string) : string :=
  if (0 <? Js.len suffix) && (Js.len suffix <=? Js.len p) then
    if String.eqb suffix p then ""
    else
      let st := basenameExt_loop p suffix (String.length p)
                  {| bStart := 0; bEnd := -1; bMatchedSlash := true;
                     extIdx := Js.len suffix - 1; firstNonSlashEnd := -1 |} in
      let e := if bStart st =? bEnd st then firstNonSlashEnd st
               else if bEnd st =? -1 then Js.len p
               else bEnd st in
      Js.slice p (bStart st) e
  else basename p.

(** Loop state of [normalizeString]. *)
Record NormLoop := {
  res : string; lastSegmentLength : Z; lastSlash : Z; dots : Z; code : ascii }.

Definition resChar (r : string) (back : Z) : ascii :=
  Js.charAt r (Z.to_nat (Js.len r - back)).

(** The body of the loop of [normalizeString] at index [i], once the
    current code unit [c] is known. *)
Definition normalize_body (p : string) (allowAboveRoot : bool) (i : Z) (c : ascii)
    (st : NormLoop) : NormLoop :=
  let next r l :=
    {| res := r; lastSegmentLength := l; lastSlash := i; dots := 0; code := c |} in
  let aboveRoot :=
    if allowAboveRoot
    then next (if 0 <? Js.len (res st) then res st +:+ "/.." else "..") 2
    else next (res st) (lastSegmentLength st) in
  if isSep c then
    if (lastSlash st =? i - 1) || (dots st =? 1) then
      next (res st) (lastSegmentLength st)
    else if dots st =? 2 then
      if (Js.len (res st) <? 2) || negb (lastSegmentLength st =? 2)
         || negb (isDot (resChar (res st) 1)) || negb (isDot (resChar (res st) 2))
      then
        if 2 <? Js.len (res st) then
          let lastSlashIndex := Js.lastIndexOf (res st) "/"%char in
          if lastSlashIndex =? -1 then next "" 0
          else
            let r := Js.slice (res st) 0 lastSlashIndex in
            next r (Js.len r - 1 - Js.lastIndexOf r "/"%char)
        else if negb (Js.len (res st) =? 0) then next "" 0
        else aboveRoot
      else aboveRoot
    else
      let seg := Js.slice p (lastSlash st + 1) i in
      next (if 0 <? Js.len (res st) then res st +:+ "/" +:+ seg else seg)
           (i - lastSlash st - 1)
  else if isDot c && negb (dots st =? -1) then
    {| res := res st; lastSegmentLength := lastSegmentLength st;
       lastSlash := lastSlash st; dots := dots st + 1; code := c |}
  else
    {| res := res st; lastSegmentLength := lastSegmentLength st;
       lastSlash := lastSlash st; dots := -1; code := c |}.

(** [for (let i = 0; i <= path.length; ++i)], with [fuel] iterations left. *)
Fixpoint normalize_loop (p : string) (allowAboveRoot : bool) (fuel : nat) (i : Z)
    (st : NormLoop) : NormLoop :=
  match fuel with
  | O => st
  | S fuel' =>
    if i <? Js.len p then
      normalize_loop p allowAboveRoot fuel' (i + 1)
        (normalize_body p allowAboveRoot i (Js.charAt p (Z.to_nat i)) st)
    else if isSep (code st) then st
    else
      normalize_loop p allowAboveRoot fuel' (i + 1)
        (normalize_body p allowAboveRoot i "/"%char st)
  end.

Definition normalizeString (p : string) (allowAboveRoot : bool) : string :=
  res (normalize_loop p allowAboveRoot (S (String.length p)) 0
         {| res := ""; lastSegmentLength := 0; lastSlash := -1; dots := 0;
            code := "000"%char |}).

Definition normalize (p : string) : string :=
  if Js.len p =? 0 then "."
  else
    let isAbsolute := isSep (Js.charAt p 0) in
    let trailingSeparator := isSep (Js.charAt p (String.length p - 1)) in
    let q := normalizeString p (negb isAbsolute) in
    if Js.len q =? 0 then
      if isAbsolute then "/" else if trailingSeparator then "./" else "."
    else
      let q := if trailingSeparator then q +:+ "/" else q in
      if isAbsolute then "/" +:+ q else q.

(** [path.join(...args)]: the non-empty arguments, glued with ["/"], then
    normalised. *)
Definition join (args : list string) : string :=
  let joined :=
    fold_left (fun (acc : option string) (arg : string) =>
                 if 0 <? Js.len arg
                 then match acc with
                      | None => Some arg
                      | Some j => Some (j +:+ "/" +:+ arg)
                      end
                 else acc) args None in
  match joined with
  | None => "."
  | Some j => normalize j
  end.

End PosixPath.

#[export] Instance posix : PathModule := {|
  sep := "/";
  extname := PosixPath.extname;
  basename := PosixPath.basename;
  basenameExt := PosixPath.basenameExt;
  join := PosixPath.join;
|}.

(** ** util/gameSupport.ts *)

Module GameSupport.
Section WithPath.
Context `{PathModule}.

Record IGameSupport := {
  mygamesPathOf : string;
  iniName : string;
  prefIniName : option string;
  saveFilesOf : string -> list string;
}.

Definition scriptExtenderFiles (input seext : string) : list string :=
  let ext := extname input in
  [basenameExt input ext +:+ "." +:+ seext].

(** [[].concat([input], scriptExtenderFiles(input, seext))] *)
Definition withExtender (seext : string) (input : string) : list string :=
  [] ++ [input] ++ scriptExtenderFiles input seext.

Definition gameSupport : gmap string IGameSupport :=
  list_to_map [
    ("skyrim",
      {| mygamesPathOf := "skyrim"; iniName := "Skyrim.ini";
         prefIniName := Some "SkyrimPrefs.ini"; saveFilesOf := withExtender "skse" |});
    ("skyrimse",
      {| mygamesPathOf := "Skyrim Special Edition"; iniName := "Skyrim.ini";
         prefIniName := Some "SkyrimPrefs.ini"; saveFilesOf := withExtender "skse" |});
    ("skyrimvr",
      {| mygamesPathOf := "Skyrim VR"; iniName := "Skyrim.ini";
         prefIniName := Some "SkyrimPrefs.ini"; saveFilesOf := withExtender "skse" |});
    ("fallout3",
      {| mygamesPathOf := "Fallout3"; iniName := "Fallout.ini";
         prefIniName := Some "FalloutPrefs.ini"; saveFilesOf := withExtender "fose" |});
    ("fallout4",
      {| mygamesPathOf := "Fallout4"; iniName := "Fallout4Custom.ini";
         prefIniName := Some "Fallout4Prefs.ini"; saveFilesOf := withExtender "f4se" |});
    ("fallout4vr",
      {| mygamesPathOf := "Fallout4VR"; iniName := "Fallout4Custom.ini";
         prefIniName := None; saveFilesOf := withExtender "f4se" |});
    ("falloutnv",
      {| mygamesPathOf := "FalloutNV"; iniName := "Fallout.ini";
         prefIniName := Some "FalloutPrefs.ini"; saveFilesOf := withExtender "nvse" |});
    ("oblivion",
      {| mygamesPathOf := "Oblivion"; iniName := "Oblivion.ini";
         prefIniName := None; saveFilesOf := withExtender "obse" |})
  ].

(** [gameSupport] is an object literal, so reading [gameSupport[gameMode]]
    goes up the prototype chain: besides the eight entries above it finds
    the members every object inherits from [Object.prototype]. *)
Definition objectPrototype : list string :=
  ["constructor"; "__defineGetter__"; "__defineSetter__"; "hasOwnProperty";
   "__lookupGetter__"; "__lookupSetter__"; "isPrototypeOf";
   "propertyIsEnumerable"; "toString"; "valueOf"; "__proto__";
   "toLocaleString"].

(** What [gameSupport[gameMode]] evaluates to: an entry of the table, an
    inherited member (a function, or [Object.prototype] itself, none of
    which has a property named like the fields of an entry), or
    [undefined]. *)
Inductive Member :=
| Own (g : IGameSupport)
| Inherited
| Absent.

Definition member (gameMode : string) : Member :=
  match gameSupport !! gameMode with
  | Some g => Own g
  | None => if bool_decide (gameMode ∈ objectPrototype) then Inherited else Absent
  end.

(** [gameSupport[gameMode] !== undefined] *)
Definition gameSupported (gameMode : string) : bool :=
  match member gameMode with
  | Absent => false
  | _ => true
  end.

(** The functions below dereference [gameSupport[gameMode]]; a [TypeError]
    is embedded as [None].  On [undefined] the property access itself
    throws; on an inherited member the field read is [undefined], so
    [path.join] rejects the segment and the call of [saveFiles] has no
    function to call.  [documents] stands for [app.getPath('documents')]. *)
Definition mygamesPath (documents gameMode : string) : option string :=
  match member gameMode with
  | Own g => Some (join [documents; "My Games"; mygamesPathOf g])
  | Inherited => None
  | Absent => None
  end.

Definition iniPath (documents gameMode : string) : option string :=
  match member gameMode with
  | Own g =>
    dir ← mygamesPath documents gameMode;
    Some (join [dir; iniName g])
  | Inherited => _ ← mygamesPath documents gameMode; None
  | Absent => None
  end.

(** The inner option is the [undefined] result: for a game without a
    preferences file, and for an inherited member, whose [prefIniName] reads
    as [undefined] too. *)
Definition prefIniPath (documents gameMode : string) : option (option string) :=
  match member gameMode with
  | Own g =>
    match prefIniName g with
    | None => Some None
    | Some n =>
      dir ← mygamesPath documents gameMode;
      Some (Some (join [dir; n]))
    end
  | Inherited => Some None
  | Absent => None
  end.

Definition saveFiles (gameMode savePath : string) : option (list string) :=
  match member gameMode with
  | Own g => Some (saveFilesOf g savePath)
  | Inherited => None
  | Absent => None
  end.

End WithPath.
End GameSupport.

(** ** Errors and promises *)

Record JsError := {
  errName : string;
  (** [err.code], [None] when the property is absent *)
  errCode : option string;
  errMessage : string;
}.

#[export] Instance JsError_eq_dec : EqDecision JsError.
Proof. solve_decision. Defined.

(** A promise, by the way it settles. *)
Inductive Promise (A : Type) : Type :=
| Resolved (a : A)
| Rejected (e : JsError).
Arguments Resolved {A} a.
Arguments Rejected {A} e.

(** ** Save records *)

Record Dimensions := { width : Z; height : Z }.

(** What the decoder library hands to its callback ([ISaveGame] of
    [gamebryo-savegame]). *)
Record LibSave := {
  saveNumber : Z;
  characterName : string;
  characterLevel : Z;
  filename : string;
  location : string;
  plugins : list string;
  screenshot : list Byte.byte;
  screenshotSize : Dimensions;
  creationTime : Z;
  playTime : string;
}.

Record SaveAttributes := {
  attrId : Z;
  attrName : string;
  attrLevel : Z;
  attrFilename : string;
  attrLocation : string;
  attrPlugins : list string;
  attrScreenshot : Dimensions;
  attrScreenshotData : list Byte.byte;
  attrIsToggleable : bool;
  (** a [Date], by its milliseconds since the epoch *)
  attrCreationtime : Z;
}.

Record ISavegame := {
  id : string;
  filePath : string;
  attributes : SaveAttributes;
}.

(** ** util/refreshSavegames.ts *)

Module Refresh.

(** Which call of the decoder on a file this is: the world may answer the
    retry differently from the first call. *)
Inductive Attempt := FirstTry | Retry.

(** [savegameLib.create(filePath, callback)] either calls back with a save,
    calls back with an error, or throws. *)
Inductive CreateOutcome :=
| Decoded (sg : LibSave)
| CallbackError (err : JsError)
| Throws (err : JsError).

(** The world of one scan. *)
Record ScanEnv := {
  readdirAsync : string -> Promise (list string);
  create : string -> Attempt -> CreateOutcome;
  (** [fs.openAsync(filePath, 'r')]: [None] when the file opens *)
  openAsync : string -> Attempt -> option JsError;
}.

(** What a scan does to the outside, in order. *)
Inductive ScanEvent :=
| SReaddir (dir : string)
| SCreate (filePath : string)
| SOpen (filePath : string)
| SDelay (ms : Z)
| SLogWarn (message : string) (savegamePath : string) (error : string).

#[export] Instance ScanEvent_eq_dec : EqDecision ScanEvent.
Proof. solve_decision. Defined.

(** The mutable state of a scan: the [failedReads] array, the events so
    far, and whatever the [onAddSavegame] callback closes over. *)
Record Scan (S : Type) := {
  failedReads : list string;
  events : list ScanEvent;
  cbState : S;
}.
Arguments failedReads {S} _.
Arguments events {S} _.
Arguments cbState {S} _.

Definition emit {S} (e : ScanEvent) (st : Scan S) : Scan S :=
  {| failedReads := failedReads st; events := events st ++ [e]; cbState := cbState st |}.

Definition pushFailed {S} (line : string) (st : Scan S) : Scan S :=
  {| failedReads := failedReads st ++ [line]; events := events st; cbState := cbState st |}.

Definition callback {S} (f : S -> S) (st : Scan S) : Scan S :=
  {| failedReads := failedReads st; events := events st; cbState := f (cbState st) |}.

Definition timestampFormat (timestamp : Z) : Z := timestamp * 1000.

Definition recognized : list string := [".ess"; ".fos"].

Section WithPath.
Context `{PathModule}.

(** The object literal built in the decoder callback. *)
Definition makeSave (filePath : string) (sg : LibSave) : ISavegame :=
  {| id := basename filePath;
     filePath := filePath;
     attributes :=
       {| attrId := saveNumber sg;
          attrName := characterName sg;
          attrLevel := characterLevel sg;
          attrFilename := basename filePath;
          attrLocation := location sg;
          attrPlugins := plugins sg;
          attrScreenshot :=
            {| width := width (screenshotSize sg); height := height (screenshotSize sg) |};
          attrScreenshotData := screenshot sg;
          attrIsToggleable := true;
          attrCreationtime := timestampFormat (creationTime sg) |} |}.

(** The filter on the directory listing. *)
Definition isSavegame (savePath : string) : bool :=
  Js.includes recognized (Js.toLowerCase (extname savePath)).

Section WithCallback.
Context {S : Type}.
Variable env : ScanEnv.
Variable onAddSavegame : ISavegame -> S -> S.

(** [loadSaveGame(filePath, onAddSavegame)]; its third parameter [tries] is
    never read by the body and is left out.  [onAddSavegame] is a callback
    that returns, as the one [updateSaves] passes does: it is a function on
    the state it closes over, and the case of a callback that throws inside
    the [try] is not part of the embedding. *)
Definition loadSaveGame (filePath : string) (att : Attempt) (st : Scan S)
    : Promise unit * Scan S :=
  let st := emit (SCreate filePath) st in
  match create env filePath att with
  | CallbackError err => (Rejected err, st)
  | Decoded sg => (Resolved (), callback (onAddSavegame (makeSave filePath sg)) st)
  | Throws err =>
    if Js.startsWith (errMessage err) "failed to open" then
      let st := emit (SOpen filePath) st in
      match openAsync env filePath att with
      | None => (Rejected err, st)
      | Some fserr => (Rejected fserr, st)
      end
    else (Rejected err, st)
  end.

(** The first [.catch] of the iterator: a busy file is tried again after
    [util.delayed(500)], any other rejection is passed on. *)
Definition retryBusy (savegamePath : string) (r : Promise unit * Scan S)
    : Promise unit * Scan S :=
  match r with
  | (Resolved u, st) => (Resolved u, st)
  | (Rejected err, st) =>
    if bool_decide (errCode err = Some "EBUSY")
    then loadSaveGame savegamePath Retry (emit (SDelay 500) st)
    else (Rejected err, st)
  end.

(** The second [.catch]: the rejection is written down and swallowed. *)
Definition recordFailure (savegameName savegamePath : string)
    (r : Promise unit * Scan S) : Scan S :=
  match r with
  | (Resolved _, st) => st
  | (Rejected err, st) =>
    emit (SLogWarn "Failed to parse savegame" savegamePath (errMessage err))
      (pushFailed (savegameName +:+ " - " +:+ errMessage err) st)
  end.

(** The iterator handed to [Promise.each]. *)
Definition eachSavegame (savesPath : string) (st : Scan S) (savegameName : string)
    : Scan S :=
  let savegamePath := join [savesPath; savegameName] in
  recordFailure savegameName savegamePath
    (retryBusy savegamePath (loadSaveGame savegamePath FirstTry st)).

(** [Promise.each(savegameNames, ...)]: one file after the other. *)
Definition eachAll (savesPath : string) (savegameNames : list string) (st : Scan S)
    : Scan S :=
  fold_left (eachSavegame savesPath) savegameNames st.

(** The listing step with its [.catch]: a missing directory lists as empty. *)
Definition listing (savesPath : string) : Promise (list string) :=
  match readdirAsync env savesPath with
  | Resolved names => Resolved names
  | Rejected err =>
    if bool_decide (errCode err = Some "ENOENT") then Resolved [] else Rejected err
  end.

(** [refreshSavegames(savesPath, onAddSavegame)], run with the callback's
    state [s0].  The result carries the scan state at the end; on a
    rejection nothing but the listing has happened. *)
Definition refreshSavegames (savesPath : string) (s0 : S)
    : Promise (list string) * Scan S :=
  let st := {| failedReads := []; events := [SReaddir savesPath]; cbState := s0 |} in
  match listing savesPath with
  | Rejected err => (Rejected err, st)
  | Resolved names =>
    let savegameNames := filter (fun n => isSavegame n = true) names in
    let st := eachAll savesPath savegameNames st in
    (Resolved (failedReads st), st)
  end.

End WithCallback.
End WithPath.
End Refresh.

(** ** The change debouncer *)

Module Debouncer.

(** Modelled from the spec: [util.Debouncer] of the host API is not part of
    the sources; this is the trigger of section 4.3, on a logical clock in
    milliseconds.  [timer] is the time at which the pending timer is due,
    [runs] lists the times at which the bound action was started; the
    action itself takes no time on this clock. *)
Record t := {
  debounceMS : Z;
  timer : option Z;
  runs : list Z;
}.

(** Modelled from the spec: [new util.Debouncer(action, ms)], nothing
    pending. *)
Definition make (ms : Z) : t := {| debounceMS := ms; timer := None; runs := [] |}.

(** Modelled from the spec: [schedule()] at time [now] (re)starts the
    timer. *)
Definition schedule (now : Z) (d : t) : t :=
  {| debounceMS := debounceMS d; timer := Some (now + debounceMS d); runs := runs d |}.

(** Modelled from the spec: time passes until [now]; a timer that is due by
    then fires, once. *)
Definition elapse (now : Z) (d : t) : t :=
  match timer d with
  | Some due =>
    if due <=? now
    then {| debounceMS := debounceMS d; timer := None; runs := runs d ++ [due] |}
    else d
  | None => d
  end.

(** Modelled from the spec: a sequence of [schedule()] calls, given by
    their times. *)
Definition calls (times : list Z) (d : t) : t :=
  fold_left (fun d now => schedule now (elapse now d)) times d.

(** Each call comes less than [q] after the one before it. *)
Fixpoint burst (q : Z) (t0 : Z) (times : list Z) : Prop :=
  match times with
  | [] => True
  | t1 :: rest => t0 <= t1 < t0 + q /\ burst q t1 rest
  end.

End Debouncer.

(** ** The entry module *)

Module Index.
Import Refresh.

Record IProfile := {
  gameId : string;
  (** [profile.features], by the truth value of each feature *)
  features : gmap string bool;
}.

(** The part of the application state the extension reads:
    [persistent.profiles] and [session.saves]. *)
Record IState := {
  profiles : gmap string IProfile;
  saves : gmap string ISavegame;
}.

(** The actions of [actions/session]. *)
Inductive Action :=
| SetSavegamePath (savegamePath : string)
| ClearSavegames
| SetSavegames (savesDict : gmap string ISavegame)
| ShowTransferDialog (show : bool).

(** The data of an ini file: section, then key. *)
Abbreviation IniData := (gmap string (gmap string string)).

Inductive Details :=
| Message (text : string)
| PathError (path error : string).

(** Everything the extension does to the outside, in order. *)
Inductive Event :=
| EvScan (e : ScanEvent)
| EvIniRead (iniFile : string)
| EvIniWrite (iniFile : string) (data : IniData)
| EvEnsureDir (dir : string)
| EvDispatch (a : Action)
| EvNotify (title : string) (details : Details)
| EvWatchOpen (w : nat) (dir : string)
| EvWatchClose (w : nat)
| EvUnhandledRejection (err : JsError).

(** The world at the time of one profile activation. *)
Record World := {
  (** [app.getPath('documents')] *)
  documents : string;
  iniRead : string -> Promise IniData;
  (** [None] when the directory is there afterwards *)
  ensureDirAsync : string -> option JsError;
  scanEnv : ScanEnv;
  (** [fs.watch(dir, ...)]: [Some err] when it throws *)
  watch : string -> option JsError;
}.

(** An [FSWatcher] object together with the listener it was given: the
    listener closes over the debouncer [update], which in turn closes over
    the profile and the directory of the activation that made it. *)
Record Watcher := {
  watchedPath : string;
  boundProfile : string;
  update : Debouncer.t;
  closed : bool;
}.

(** The store, the module variable [fsWatcher] (a reference into the
    watcher objects made so far) and the event log. *)
Record AppState := {
  store : IState;
  fsWatcher : option nat;
  watchers : list Watcher;
  log : list Event;
}.

Definition initial (s : IState) : AppState :=
  {| store := s; fsWatcher := None; watchers := []; log := [] |}.

Definition record (evs : list Event) (st : AppState) : AppState :=
  {| store := store st; fsWatcher := fsWatcher st; watchers := watchers st;
     log := log st ++ evs |}.

Definition processCanceled (message : string) : JsError :=
  {| errName := "ProcessCanceled"; errCode := None; errMessage := message |}.

Definition typeError (message : string) : JsError :=
  {| errName := "TypeError"; errCode := None; errMessage := message |}.

Definition newline : string := String "010"%char EmptyString.

Section WithReducer.
Context `{PathModule}.

(** The reducers behind [store.dispatch] are not part of the sources. *)
Variable reduce : IState -> Action -> IState.

Definition dispatch (a : Action) (st : AppState) : AppState :=
  {| store := reduce (store st) a; fsWatcher := fsWatcher st; watchers := watchers st;
     log := log st ++ [EvDispatch a] |}.

Definition showErrorNotification (title : string) (details : Details)
    (st : AppState) : AppState :=
  record [EvNotify title details] st.

(** [updateSaveSettings(store, profileId)].  A synchronous throw (of
    [iniPath] or [mygamesPath] on a game without table entry) is embedded
    like a rejection: either way nothing after the call runs.  The
    resolved value is [None] for the bare [return]. *)
Definition updateSaveSettings (world : World) (profileId : string) (st : AppState)
    : Promise (option string) * AppState :=
  match profiles (store st) !! profileId with
  | None => (Rejected (processCanceled "no current profile"), st)
  | Some profile =>
    match GameSupport.iniPath (documents world) (gameId profile) with
    | None => (Rejected (typeError "gameSupport[gameMode] is undefined"), st)
    | Some ini =>
      let st := record [EvIniRead ini] st in
      match iniRead world ini with
      | Rejected err => (Rejected err, st)
      | Resolved data =>
        let localPath := join ["Saves"; profileId] in
        let general := default ∅ (data !! "General") in
        let sLocalSavePath :=
          if default false (features profile !! "local_saves")
          then localPath +:+ sep
          else "Saves" +:+ sep in
        let data := <["General" := <["SLocalSavePath" := sLocalSavePath]> general]> data in
        let st := record [EvIniWrite ini data] st in
        let st := dispatch (SetSavegamePath sLocalSavePath) st in
        let st := dispatch ClearSavegames st in
        if negb (GameSupport.gameSupported (gameId profile)) then (Resolved None, st)
        else
          match GameSupport.mygamesPath (documents world) (gameId profile) with
          | None => (Rejected (typeError "gameSupport[gameMode] is undefined"), st)
          | Some mygames =>
            let readPath := mygames +:+ sep +:+ sLocalSavePath in
            let st := record [EvEnsureDir readPath] st in
            match ensureDirAsync world readPath with
            | Some err => (Rejected err, st)
            | None => (Resolved (Some readPath), st)
            end
          end
      end
    end
  end.

(** What the callback of [updateSaves] closes over: the store it reads
    with [getState()], as the scan last saw it, and the [newSavegames] array
    it pushes to. *)
Record Collect := {
  seen : IState;
  newSavegames : list ISavegame;
}.

Definition collectNew (save : ISavegame) (c : Collect) : Collect :=
  match saves (seen c) !! id save with
  | None => {| seen := seen c; newSavegames := newSavegames c ++ [save] |}
  | Some _ => c
  end.

(** [result.newSavegames.forEach(save => { savesDict[save.id] = save; })] *)
Definition toDict (l : list ISavegame) : gmap string ISavegame :=
  fold_left (fun d save => <[id save := save]> d) l ∅.

(** [updateSaves(store, profileId, savesPath)], run with no other chain
    dispatching between its start and its dispatch; [updateSavesLive] below
    is the run among other chains. *)
Definition updateSaves (world : World) (profileId savesPath : string) (st : AppState)
    : Promise (list string) * AppState :=
  let '(r, scan) :=
    refreshSavegames (scanEnv world) collectNew savesPath
      {| seen := store st; newSavegames := [] |} in
  let st := record (EvScan <$> events scan) st in
  match r with
  | Rejected err => (Rejected err, st)
  | Resolved failed =>
    let savesDict := toDict (newSavegames (cbState scan)) in
    (Resolved failed, dispatch (SetSavegames savesDict) st)
  end.

(** The same among the other promise chains of the program.  The callback
    reads [store.getState()] when the decoder calls back, and the chains
    that ran while the file was awaited (another activation, the re-scan of
    a watch) may have dispatched by then.  [atCallback filePath] is what
    they did to the store since the previous callback of this scan, or
    since its start; [atDispatch] what they did between the last callback
    and the dispatch of the batch.  [collectNew] and [updateSaves] above are
    the run [alone], in which no other chain dispatches meanwhile. *)
Record Chains := {
  atCallback : string -> IState -> IState;
  atDispatch : IState -> IState;
}.

Definition alone : Chains :=
  {| atCallback := fun _ s => s; atDispatch := fun s => s |}.

Definition collectLive (chains : Chains) (save : ISavegame) (c : Collect) : Collect :=
  collectNew save
    {| seen := atCallback chains (filePath save) (seen c);
       newSavegames := newSavegames c |}.

Definition updateSavesLive (world : World) (chains : Chains)
    (profileId savesPath : string) (st : AppState)
    : Promise (list string) * AppState :=
  let '(r, scan) :=
    refreshSavegames (scanEnv world) (collectLive chains) savesPath
      {| seen := store st; newSavegames := [] |} in
  let st :=
    record (EvScan <$> events scan)
      {| store := atDispatch chains (seen (cbState scan)); fsWatcher := fsWatcher st;
         watchers := watchers st; log := log st |} in
  match r with
  | Rejected err => (Rejected err, st)
  | Resolved failed =>
    let savesDict := toDict (newSavegames (cbState scan)) in
    (Resolved failed, dispatch (SetSavegames savesDict) st)
  end.

(** [fsWatcher.close()] on the object behind reference [w]. *)
Definition closeWatcher (w : nat) (st : AppState) : AppState :=
  {| store := store st; fsWatcher := fsWatcher st;
     watchers :=
       alter (fun r => {| watchedPath := watchedPath r; boundProfile := boundProfile r;
                          update := update r; closed := true |}) w (watchers st);
     log := log st ++ [EvWatchClose w] |}.

(** [if (fsWatcher !== undefined) { fsWatcher.close(); }] *)
Definition closePrevious (st : AppState) : AppState :=
  match fsWatcher st with
  | Some w => closeWatcher w st
  | None => st
  end.

(** The debouncer is made with a quiet period of 1000, then
    [fsWatcher = fs.watch(savesPath, {}, listener)] inside [try]. *)
Definition attachWatch (world : World) (profileId savesPath : string) (st : AppState)
    : AppState :=
  let update := Debouncer.make 1000 in
  match watch world savesPath with
  | Some err =>
    showErrorNotification "Can't watch saves directory for changes"
      (PathError savesPath (errMessage err)) st
  | None =>
    let w := length (watchers st) in
    {| store := store st; fsWatcher := Some w;
       watchers := watchers st ++
         [{| watchedPath := savesPath; boundProfile := profileId;
             update := update; closed := false |}];
       log := log st ++ [EvWatchOpen w savesPath] |}
  end.

Definition reportFailed (failedReads : list string) (st : AppState) : AppState :=
  if (0 <? length failedReads)%nat
  then showErrorNotification "Some saves couldn't be read"
         (Message (String.concat newline failedReads)) st
  else st.

(** The listener of [profile-did-change].  The promise chain has no
    [.catch]: a rejection ends it and goes unhandled. *)
Definition profileDidChange (world : World) (profileId : string) (st : AppState)
    : AppState :=
  match profiles (store st) !! profileId with
  | None => st
  | Some profile =>
    if negb (GameSupport.gameSupported (gameId profile)) then st
    else
      match updateSaveSettings world profileId st with
      | (Rejected err, st) => record [EvUnhandledRejection err] st
      | (Resolved None, st) =>
        (* [savesPath] is [undefined]: the listing throws on it *)
        record [EvUnhandledRejection (typeError "path must be a string")] st
      | (Resolved (Some savesPath), st) =>
        match updateSaves world profileId savesPath st with
        | (Rejected err, st) => record [EvUnhandledRejection err] st
        | (Resolved failedReads, st) =>
          attachWatch world profileId savesPath
            (closePrevious (reportFailed failedReads st))
        end
      end
  end.


(** The listener given to [fs.watch]: [(evt, filename) => update.schedule(undefined)]. *)
Definition watchListener (evt filename : string) (now : Z) (update : Debouncer.t)
    : Debouncer.t :=
  Debouncer.schedule now update.

(** The file system reports a change on the watcher object [w] at time
    [now]; a closed watcher emits nothing. *)
Definition fsEvent (w : nat) (evt filename : string) (now : Z) (st : AppState)
    : AppState :=
  match watchers st !! w with
  | Some r =>
    if closed r then st
    else
      {| store := store st; fsWatcher := fsWatcher st;
         watchers :=
           <[w := {| watchedPath := watchedPath r; boundProfile := boundProfile r;
                     update := watchListener evt filename now (update r);
                     closed := closed r |}]> (watchers st);
         log := log st |}
  | None => st
  end.

(** A sequence of activations, each in the world of its time. *)
Definition activations (acts : list (World * string)) (st : AppState) : AppState :=
  fold_left (fun st a => profileDidChange (fst a) (snd a) st) acts st.

End WithReducer.

(** Modelled from the spec: the reducer of [reducers/session] is not part
    of the sources.  The store is cleared by [ClearSavegames] and gains the
    batch of [SetSavegames]; an id that is already present keeps its
    record. *)
Definition sessionReducer (s : IState) (a : Action) : IState :=
  match a with
  | SetSavegamePath _ => s
  | ClearSavegames => {| profiles := profiles s; saves := ∅ |}
  | SetSavegames savesDict => {| profiles := profiles s; saves := saves s ∪ savesDict |}
  | ShowTransferDialog _ => s
  end.

(** The watcher objects that are open. *)
Definition isLive (st : AppState) (w : nat) : bool :=
  match watchers st !! w with
  | Some r => negb (closed r)
  | None => false
  end.

Definition live (st : AppState) : list nat :=
  filter (fun w => isLive st w = true) (seq 0 (length (watchers st))).

End Index.

(** ** Observations used in the statements *)

Module Obs.
Import Refresh Index.


(** The two save extensions in every mix of upper and lower case, spelled
    out. *)
Definition anyCase : list string :=
  [".ess"; ".esS"; ".eSs"; ".eSS"; ".Ess"; ".EsS"; ".ESs"; ".ESS";
   ".fos"; ".foS"; ".fOs"; ".fOS"; ".Fos"; ".FoS"; ".FOs"; ".FOS"].

(** The shape of a path [dir ++ stem ++ "." ++ ext]: [dir] is empty or ends
    with a slash, [stem] is a non-empty name without a slash, [ext] a
    non-empty one without slash and dot. *)
Fixpoint every (f : ascii -> bool) (s : string) : bool :=
  match s with
  | EmptyString => true
  | String c r => f c && every f r
  end.

Definition directory (dir : string) : Prop := dir = "" ∨ ∃ d, dir = d +:+ "/".

Definition component (s : string) : Prop :=
  s ≠ "" ∧ every (fun c => negb (Ascii.eqb c "/")) s = true.

Definition suffixName (s : string) : Prop :=
  s ≠ "" ∧ every (fun c => negb (Ascii.eqb c "/") && negb (Ascii.eqb c ".")) s = true.

(** The backoff delays and the decoder calls among the events of a scan. *)
Definition delays (evs : list ScanEvent) : list Z :=
  omap (fun e => match e with SDelay ms => Some ms | _ => None end) evs.

Definition creates (evs : list ScanEvent) : list string :=
  omap (fun e => match e with SCreate p => Some p | _ => None end) evs.

(** How one decode attempt on [filePath] settles in the world [env]: the
    settlement of the promise of [loadSaveGame], with the decoded save in
    place of the call of the callback. *)
Definition decode (env : ScanEnv) (filePath : string) (att : Attempt) : Promise LibSave :=
  match create env filePath att with
  | Decoded sg => Resolved sg
  | CallbackError err => Rejected err
  | Throws err =>
    if Js.startsWith (errMessage err) "failed to open" then
      match openAsync env filePath att with
      | None => Rejected err
      | Some fserr => Rejected fserr
      end
    else Rejected err
  end.

(** The decode of a file under the retry policy of section 4.1: a busy
    file is decoded once more, and that second answer stands. *)
Definition settle (env : ScanEnv) (filePath : string) : Promise LibSave :=
  match decode env filePath FirstTry with
  | Resolved sg => Resolved sg
  | Rejected err =>
    if bool_decide (errCode err = Some "EBUSY")
    then decode env filePath Retry
    else Rejected err
  end.

(** The open watches according to a log: opened and not closed since. *)
Definition liveStep (s : gset nat) (e : Event) : gset nat :=
  match e with
  | EvWatchOpen w _ => {[w]} ∪ s
  | EvWatchClose w => s ∖ {[w]}
  | _ => s
  end.

Definition liveAfter (evs : list Event) : gset nat := fold_left liveStep evs ∅.

Definition quiet (e : Event) : Prop :=
  match e with
  | EvWatchOpen _ _ | EvWatchClose _ => False
  | _ => True
  end.

#[export] Instance quiet_dec (e : Event) : Decision (quiet e).
Proof. destruct e; cbn; apply _. Defined.

(** A step that leaves the watches alone. *)
Definition quietStep (st st' : AppState) : Prop :=
  fsWatcher st' = fsWatcher st ∧ watchers st' = watchers st ∧
  ∃ evs, log st' = log st ++ evs ∧ Forall quiet evs.

(** Every listener made so far is bound to a debouncer of one second. *)
Definition allDebounced (st : AppState) : Prop :=
  Forall (fun r => Debouncer.debounceMS (update r) = 1000) (watchers st).

(** The log and the watcher objects agree, an open watcher is the one
    [fsWatcher] refers to and the last one made, and at no point of the
    log were two watches open. *)
Definition watchInv (st : AppState) : Prop :=
  (∀ w, w ∈ liveAfter (log st) ↔ isLive st w = true) ∧
  (∀ w, isLive st w = true -> fsWatcher st = Some w ∧ Datatypes.S w = length (watchers st)) ∧
  (∀ pre, pre `prefix_of` log st -> size (liveAfter pre) ≤ 1)%nat.

Section WithPath.
Context `{PathModule}.

(** What a candidate contributes to the failure list, and the record it
    hands to the callback. *)
Definition failureLine (env : ScanEnv) (savesPath savegameName : string) : list string :=
  match settle env (join [savesPath; savegameName]) with
  | Resolved _ => []
  | Rejected err => [savegameName +:+ " - " +:+ errMessage err]
  end.

Definition loaded (env : ScanEnv) (savesPath savegameName : string) : list ISavegame :=
  match settle env (join [savesPath; savegameName]) with
  | Resolved sg => [makeSave (join [savesPath; savegameName]) sg]
  | Rejected _ => []
  end.

(** The events of one decode attempt, and of one candidate. *)
Definition attemptEvents (env : ScanEnv) (filePath : string) (att : Attempt)
    : list ScanEvent :=
  SCreate filePath ::
  match create env filePath att with
  | Throws err =>
    if Js.startsWith (errMessage err) "failed to open" then [SOpen filePath] else []
  | _ => []
  end.

Definition fileEvents (env : ScanEnv) (savesPath savegameName : string)
    : list ScanEvent :=
  let p := join [savesPath; savegameName] in
  attemptEvents env p FirstTry ++
  match decode env p FirstTry with
  | Resolved _ => []
  | Rejected err =>
    if bool_decide (errCode err = Some "EBUSY")
    then SDelay 500 :: attemptEvents env p Retry
    else []
  end ++
  match settle env p with
  | Resolved _ => []
  | Rejected err => [SLogWarn "Failed to parse savegame" p (errMessage err)]
  end.

(** The state a scan of [savesPath] starts its files in. *)
Definition scanStart {S} (savesPath : string) (s0 : S) : Scan S :=
  {| failedReads := []; events := [SReaddir savesPath]; cbState := s0 |}.

(** The new-record set of a scan of [savesPath] against the store [s]. *)
Definition newRecords (world : World) (savesPath : string) (s : IState)
    : list ISavegame :=
  newSavegames
    (cbState (snd (refreshSavegames (scanEnv world) collectNew savesPath
                     {| seen := s; newSavegames := [] |}))).

End WithPath.

(** The inputs of the extension: profile activations, each run to the
    end of its promise chain in the world of its time, the blocks of
    such a chain on their own (for chains that overlap), and change
    notifications of the file system. *)
Inductive Input :=
| Activate (world : World) (profileId : string)
| Settings (world : World) (profileId : string)
| Scanned (world : World) (profileId savesPath : string)
| Attach (world : World) (profileId savesPath : string) (failedReads : list string)
| Changed (w : nat) (evt filename : string) (now : Z).

Section WithReducer.
Context `{PathModule}.
Variable reduce : IState -> Action -> IState.

Definition input (st : AppState) (i : Input) : AppState :=
  match i with
  | Activate world profileId => profileDidChange reduce world profileId st
  | Settings world profileId => snd (updateSaveSettings reduce world profileId st)
  | Scanned world profileId savesPath =>
    snd (updateSaves reduce world profileId savesPath st)
  | Attach world profileId savesPath failedReads =>
    attachWatch world profileId savesPath (closePrevious (reportFailed failedReads st))
  | Changed w evt filename now => fsEvent w evt filename now st
  end.

Definition run (inputs : list Input) (st : AppState) : AppState :=
  fold_left input inputs st.

End WithReducer.
End Obs.

(** ** A sample world, for the examples *)

Module Sample.
Import Refresh Index Obs.

Definition dova : LibSave :=
  {| saveNumber := 3; characterName := "Dova"; characterLevel := 12;
     filename := "save1"; location := "Whiterun"; plugins := ["Skyrim.esm"];
     screenshot := []; screenshotSize := {| width := 4; height := 3 |};
     creationTime := 1500000000; playTime := "1h" |}.

Definition error (code : option string) (message : string) : JsError :=
  {| errName := "Error"; errCode := code; errMessage := message |}.

Definition savesDir : string := "/docs/My Games/Skyrim Special Edition/Saves/".

(** [save1.ess] decodes, [save2.ESS] is corrupt, [busy.fos] is locked at
    the first call only, [locked.fos] stays locked, [notes.txt] is not a
    save. *)
Definition files : ScanEnv :=
  {| readdirAsync d :=
       if String.eqb d savesDir
       then Resolved ["save1.ess"; "save2.ESS"; "notes.txt"; "busy.fos"; "locked.fos"]
       else Rejected (error (Some "ENOENT") "no such file or directory");
     create p a :=
       if String.eqb p (savesDir +:+ "save1.ess") then Decoded dova
       else if String.eqb p (savesDir +:+ "save2.ESS")
       then CallbackError (error None "bad header")
       else if String.eqb p (savesDir +:+ "busy.fos")
       then match a with
            | FirstTry => Throws (error None "failed to open file")
            | Retry => Decoded dova
            end
       else Throws (error None "failed to open file");
     openAsync p a := Some (error (Some "EBUSY") "resource busy or locked") |}.

(** A directory that cannot be listed for lack of permission. *)
Definition forbidden : ScanEnv :=
  {| readdirAsync d := Rejected (error (Some "EACCES") "permission denied");
     create p a := Decoded dova;
     openAsync p a := None |}.

(** A directory without a single save. *)
Definition others : ScanEnv :=
  {| readdirAsync d := Resolved ["notes.txt"; "README"; ".ess"; "a.ess.bak"];
     create p a := Decoded dova;
     openAsync p a := None |}.

Definition world (env : ScanEnv) : World :=
  {| documents := "/docs"; iniRead p := Resolved ∅; ensureDirAsync p := None;
     scanEnv := env; watch p := None |}.

Definition state : IState :=
  {| profiles := {[ "p1" := {| gameId := "skyrimse"; features := ∅ |} ]};
     saves := ∅ |}.

Definition busy : JsError := error (Some "EBUSY") "resource busy or locked".
Definition missing : JsError := error (Some "ENOENT") "no such file or directory".

Definition listed : list string :=
  ["save1.ess"; "save2.ESS"; "notes.txt"; "busy.fos"; "locked.fos"].
Definition unrelated : list string := ["notes.txt"; "README"; ".ess"; "a.ess.bak"].

(** A callback that keeps the ids it is handed. *)
Definition keepId (save : ISavegame) (l : list string) : list string := l ++ [id save].

Definition busyPath : string := join [savesDir; "busy.fos"].
Definition beforeBusy : Scan (list string) :=
  eachAll files keepId savesDir ["save1.ess"; "save2.ESS"] (scanStart savesDir []).
Definition afterBusy : Scan (list string) :=
  eachSavegame files keepId savesDir beforeBusy "busy.fos".
Definition scanned : Scan (list string) :=
  snd (refreshSavegames files keepId savesDir []).

Definition home : World := world files.
Definition boot : AppState := initial state.
Definition failedLines : list string :=
  ["save2.ESS - bad header"; "locked.fos - resource busy or locked"].
Definition merged : AppState := snd (updateSaves sessionReducer home "p1" savesDir boot).
Definition watching : AppState := run sessionReducer [Activate home "p1"] boot.
Definition switched : AppState :=
  run sessionReducer [Activate home "p1"; Activate home "p1"] boot.
Definition firstWatcher : Watcher :=
  {| watchedPath := savesDir; boundProfile := "p1";
     update := Debouncer.make 1000; closed := false |}.

(** The store knows [busy.fos] when a re-scan starts, and another chain
    clears the store while the scan waits for that file. *)
Definition busyKnown : IState :=
  {| profiles := profiles state;
     saves := {[ "busy.fos" := makeSave busyPath dova ]} |}.

Definition clearing : Chains :=
  {| atCallback p s := if String.eqb p busyPath then sessionReducer s ClearSavegames else s;
     atDispatch s := s |}.

Definition beforeBusyLive : Scan Collect :=
  eachAll files (collectLive clearing) savesDir ["save1.ess"; "save2.ESS"]
    (scanStart savesDir {| seen := busyKnown; newSavegames := [] |}).
Definition afterBusyLive : Scan Collect :=
  eachSavegame files (collectLive clearing) savesDir beforeBusyLive "busy.fos".
Definition scannedLive : Scan Collect :=
  snd (refreshSavegames files (collectLive clearing) savesDir
         {| seen := busyKnown; newSavegames := [] |}).
Definition save1 : ISavegame := makeSave (join [savesDir; "save1.ess"]) dova.
Definition busySave : ISavegame := makeSave busyPath dova.

End Sample.

(** ** The sequential promise helpers

    The entry module's companion file of helpers replaces the promise
    library's collection functions.  The three that run one call after the
    other are embedded here; a call of the function argument, made in a
    state of type [St], settles and leaves a state.  The array is not
    changed while the loop runs. *)

Module Helpers.
Section WithState.
Context {St T U : Type}.

(** [for (let i = 0; i < array.length; i++) results.push(await
    mapperFunction(array[i], i, array))], from index [i] on, [rest] being
    the elements from [i]. *)
Fixpoint mapSeriesFrom (array : list T)
    (mapperFunction : T -> nat -> list T -> St -> Promise U * St)
    (i : nat) (rest : list T) (results : list U) (s : St) : Promise (list U) * St :=
  match rest with
  | [] => (Resolved results, s)
  | x :: rest =>
    match mapperFunction x i array s with
    | (Resolved u, s) => mapSeriesFrom array mapperFunction (S i) rest (results ++ [u]) s
    | (Rejected err, s) => (Rejected err, s)
    end
  end.

Definition promiseMapSeries (array : list T)
    (mapperFunction : T -> nat -> list T -> St -> Promise U * St) (s : St)
    : Promise (list U) * St :=
  mapSeriesFrom array mapperFunction 0 array [] s.

(** [for (...) await iteratorFunction(array[i], i, array); return array] *)
Fixpoint eachFrom (array : list T)
    (iteratorFunction : T -> nat -> list T -> St -> Promise unit * St)
    (i : nat) (rest : list T) (s : St) : Promise (list T) * St :=
  match rest with
  | [] => (Resolved array, s)
  | x :: rest =>
    match iteratorFunction x i array s with
    | (Resolved _, s) => eachFrom array iteratorFunction (S i) rest s
    | (Rejected err, s) => (Rejected err, s)
    end
  end.

Definition promiseEach (array : list T)
    (iteratorFunction : T -> nat -> list T -> St -> Promise unit * St) (s : St)
    : Promise (list T) * St :=
  eachFrom array iteratorFunction 0 array s.

(** [for (...) accumulator = await reducerFunction(accumulator, array[i], i,
    array); return accumulator] *)
Fixpoint reduceFrom (array : list T)
    (reducerFunction : U -> T -> nat -> list T -> St -> Promise U * St)
    (i : nat) (rest : list T) (accumulator : U) (s : St) : Promise U * St :=
  match rest with
  | [] => (Resolved accumulator, s)
  | x :: rest =>
    match reducerFunction accumulator x i array s with
    | (Resolved acc, s) => reduceFrom array reducerFunction (S i) rest acc s
    | (Rejected err, s) => (Rejected err, s)
    end
  end.

Definition promiseReduce (array : list T)
    (reducerFunction : U -> T -> nat -> list T -> St -> Promise U * St)
    (initialValue : U) (s : St) : Promise U * St :=
  reduceFrom array reducerFunction 0 array initialValue s.

End WithState.
End Helpers.

(** ** Further observations *)

Module Trace.
Import Refresh Index Obs.

(** The open probes among the events of a scan. *)
Definition opens (evs : list ScanEvent) : list string :=
  omap (fun e => match e with SOpen p => Some p | _ => None end) evs.

(** The actions dispatched and the ini files written, in order. *)
Definition dispatched (evs : list Event) : list Action :=
  omap (fun e => match e with EvDispatch a => Some a | _ => None end) evs.

Definition iniWrites (evs : list Event) : list (string * IniData) :=
  omap (fun e => match e with EvIniWrite f d => Some (f, d) | _ => None end) evs.

(** The first decode of [filePath] is rejected as busy. *)
Definition busyFirst (env : ScanEnv) (filePath : string) : bool :=
  match decode env filePath FirstTry with
  | Resolved _ => false
  | Rejected err => bool_decide (errCode err = Some "EBUSY")
  end.

(** A record as the callback gets it. *)
Definition wellFormed (r : ISavegame) : Prop :=
  attrFilename (attributes r) = id r ∧ attrIsToggleable (attributes r) = true.

(** The watcher objects of [st] are still there in [st'], with the
    directory and the profile they were made for, and none of them that
    was closed is open again. *)
Definition keepsWatchers (st st' : AppState) : Prop :=
  ∀ w r, watchers st !! w = Some r ->
    ∃ r', watchers st' !! w = Some r' ∧
          watchedPath r' = watchedPath r ∧ boundProfile r' = boundProfile r ∧
          (closed r = true -> closed r' = true).

(** From [st] to [st'] the log has grown, and the actions dispatched on
    the way are [acts], in that order. *)
Definition dispatches (st st' : AppState) (acts : list Action) : Prop :=
  ∃ evs, log st' = log st ++ evs ∧ dispatched evs = acts.


(** The value the settings step writes to [General.SLocalSavePath]. *)
Definition localSavePath `{PathModule} (profile : IProfile) (profileId : string) : string :=
  if default false (features profile !! "local_saves")
  then join ["Saves"; profileId] +:+ sep
  else "Saves" +:+ sep.

(** The iterator of the scan as a function for [promiseEach]: it always
    resolves. *)
Definition scanIterator `{PathModule} {S} (env : ScanEnv)
    (onAddSavegame : ISavegame -> S -> S) (savesPath : string)
    (savegameName : string) (i : nat) (array : list string) (st : Scan S)
    : Promise unit * Scan S :=
  (Resolved (), eachSavegame env onAddSavegame savesPath st savegameName).

End Trace.

(** ** More sample worlds *)

Module Cases.
Import Refresh Index Obs Trace Sample.

(** An ini file with a section and keys of its own. *)
Definition ini : IniData :=
  {[ "General" := {[ "SLocalSavePath" := "old"; "bAllowConsole" := "1" ]};
     "Display" := {[ "iSize W" := "1920" ]} ]}.

Definition iniFile : string := "/docs/My Games/Skyrim Special Edition/Skyrim.ini".

Definition configured : World :=
  {| documents := "/docs"; iniRead p := Resolved ini; ensureDirAsync p := None;
     scanEnv := files; watch p := None |}.

Definition denied : JsError := error (Some "EPERM") "operation not permitted".

(** The ini file cannot be read. *)
Definition unreadable : World :=
  {| documents := "/docs"; iniRead p := Rejected denied; ensureDirAsync p := None;
     scanEnv := files; watch p := None |}.

(** The save directory cannot be made. *)
Definition noDir : World :=
  {| documents := "/docs"; iniRead p := Resolved ini; ensureDirAsync p := Some denied;
     scanEnv := files; watch p := None |}.

(** The save directory cannot be watched. *)
Definition unwatchable : World :=
  {| documents := "/docs"; iniRead p := Resolved ini; ensureDirAsync p := None;
     scanEnv := files; watch p := Some denied |}.

(** A profile with saves of its own, one for a game without table entry,
    and a save the store knows already. *)
Definition local : IProfile :=
  {| gameId := "fallout4"; features := {[ "local_saves" := true ]} |}.
Definition foreign : IProfile := {| gameId := "morrowind"; features := ∅ |}.

Definition known : IState :=
  {| profiles := {[ "p1" := {| gameId := "skyrimse"; features := ∅ |};
                    "p2" := foreign; "p3" := local ]};
     saves := {[ "save1.ess" := makeSave (savesDir +:+ "save1.ess") dova ]} |}.

Definition started : AppState := initial known.

Definition corrupt : JsError := error None "bad header".
Definition corruptPath : string := join [savesDir; "save2.ESS"].
Definition beforeCorrupt : Scan (list string) :=
  eachAll files keepId savesDir ["save1.ess"] (scanStart savesDir []).
Definition afterCorrupt : Scan (list string) :=
  eachSavegame files keepId savesDir beforeCorrupt "save2.ESS".
Definition candidates : list string := ["save1.ess"; "save2.ESS"; "busy.fos"; "locked.fos"].
Definition scanEvents : list ScanEvent := events scanned.

Definition skyrimDir : string := "/docs/My Games/Skyrim Special Edition".
Definition afterUnreadable : AppState :=
  profileDidChange sessionReducer unreadable "p1" started.
Definition afterNoDir : AppState := profileDidChange sessionReducer noDir "p1" started.
Definition afterFailedAttach : AppState :=
  input sessionReducer watching (Attach unwatchable "p1" savesDir []).
Definition afterAttach : AppState :=
  input sessionReducer watching (Attach home "p1" savesDir []).
Definition closedWatcher : Watcher :=
  {| watchedPath := savesDir; boundProfile := "p1";
     update := Debouncer.make 1000; closed := true |}.

(** A re-scan that starts with [busy.fos] in the store, while another
    chain clears the store. *)
Definition raced : AppState := initial busyKnown.
Definition mergedLive : AppState :=
  snd (updateSavesLive sessionReducer home clearing "p1" savesDir raced).

(** A mapper that fails on the third element and counts its calls. *)
Definition failThird (x : Z) (i : nat) (array : list Z) (calls : nat)
    : Promise Z * nat :=
  (if (i =? 2)%nat then Rejected denied else Resolved (x * 10), S calls).

End Cases.

(** * Properties *)

Import Refresh Index Obs.

(** ** The POSIX [path] functions on a file name

    What [extname] and [basename] return on a path of the shape
    [dir ++ stem ++ "." ++ ext], by the loops of the runtime. *)

Module PosixFacts.
Import Js PosixPath.

Lemma string_app_cons (x : ascii) (a b : string) : String x a +:+ b = String x (a +:+ b).
Proof. reflexivity. Qed.

Lemma string_app_nil_l (b : string) : "" +:+ b = b.
Proof. reflexivity. Qed.

Lemma string_length_app (a b : string) :
  String.length (a +:+ b) = (String.length a + String.length b)%nat.
Proof.
  induction a as [|c a IH]; [done|]. rewrite string_app_cons. cbn. by rewrite IH.
Qed.

Lemma string_assoc (a b c : string) : (a +:+ b) +:+ c = a +:+ b +:+ c.
Proof.
  induction a as [|x a IH]; [done|]. rewrite !string_app_cons. by rewrite IH.
Qed.

Lemma charAt_app_l (a b : string) (i : nat) :
  (i < String.length a)%nat -> charAt (a +:+ b) i = charAt a i.
Proof. intros Hi. unfold charAt. by rewrite <- append_correct1. Qed.

Lemma charAt_app_r (a b : string) (i : nat) :
  charAt (a +:+ b) (String.length a + i) = charAt b i.
Proof.
  unfold charAt. rewrite (append_correct2 a b i).
  by rewrite (Nat.add_comm i).
Qed.

Lemma every_charAt (f : ascii -> bool) (s : string) (i : nat) :
  every f s = true -> (i < String.length s)%nat -> f (charAt s i) = true.
Proof.
  revert i. induction s as [|c s IH]; intros i Hall Hi; cbn in *; [lia|].
  apply andb_true_iff in Hall as [Hc Hs].
  destruct i as [|i]; [done|]. apply IH; [done|lia].
Qed.

Lemma substring_prefix (b c : string) :
  substring 0 (String.length b) (b +:+ c) = b.
Proof.
  induction b as [|x b IH]; [rewrite string_app_nil_l; by destruct c|].
  rewrite string_app_cons. cbn. by rewrite IH.
Qed.

Lemma substring_middle (a b c : string) :
  substring (String.length a) (String.length b) (a +:+ b +:+ c) = b.
Proof.
  induction a as [|x a IH]; [exact (substring_prefix b c)|].
  rewrite string_app_cons. cbn. done.
Qed.

(** The loop of [extname] over the code units of an extension, of the dot
    and of the stem. *)
Lemma extname_loop_bare (p : string) (m k : nat) (E : Z) :
  E ≠ -1 ->
  (∀ i, (m <= i < m + k)%nat ->
        isSep (charAt p i) = false ∧ isDot (charAt p i) = false) ->
  extname_loop p (m + k)
    {| startDot := -1; startPart := 0; endIdx := E; matchedSlash := false;
       preDotState := 0 |} =
  extname_loop p m
    {| startDot := -1; startPart := 0; endIdx := E; matchedSlash := false;
       preDotState := 0 |}.
Proof.
  intros HE. induction k as [|k IH]; intros Hc.
  - by rewrite Nat.add_0_r.
  - rewrite Nat.add_succ_r. cbn [extname_loop].
    destruct (Hc (m + k)%nat) as [-> ->]; [lia|]. cbn.
    destruct (Z.eqb_spec E (-1)) as [|_]; [done|].
    apply IH. intros i Hi. apply Hc. lia.
Qed.

Lemma extname_loop_stem (p : string) (m k : nat) (D E x : Z) :
  D ≠ -1 -> E ≠ -1 ->
  (∀ i, (m <= i < m + k)%nat -> isSep (charAt p i) = false) ->
  ∃ y, (k = 0%nat -> y = x) ∧ ((0 < k)%nat -> y = 1 ∨ y = -1) ∧
    extname_loop p (m + k)
      {| startDot := D; startPart := 0; endIdx := E; matchedSlash := false;
         preDotState := x |} =
    extname_loop p m
      {| startDot := D; startPart := 0; endIdx := E; matchedSlash := false;
         preDotState := y |}.
Proof.
  intros HD HE. revert x. induction k as [|k IH]; intros x Hc.
  - exists x. rewrite Nat.add_0_r. split; [done|]. split; [lia|done].
  - rewrite Nat.add_succ_r. cbn [extname_loop].
    rewrite (Hc (m + k)%nat) by lia. cbn.
    destruct (Z.eqb_spec E (-1)) as [|_]; [done|]. cbn.
    destruct (Z.eqb_spec D (-1)) as [|_]; [done|]. cbn.
    set (x' := if isDot (charAt p (m + k)) then 1 else -1).
    destruct (IH x') as (y & Hy0 & Hy1 & Heq); [intros i Hi; apply Hc; lia|].
    assert (Hx' : x' = 1 ∨ x' = -1) by (unfold x'; destruct (isDot _); auto).
    exists y. split; [lia|]. split.
    + intros _. destruct k as [|k]; [rewrite Hy0 by done; done|apply Hy1; lia].
    + rewrite <- Heq. unfold x'.
      destruct (isDot (charAt p (m + k))); [|done].
      destruct (Z.eqb_spec x 1) as [->|_]; done.
Qed.

Lemma charAt_app_0 (a b : string) :
  charAt (a +:+ b) (String.length a) = charAt b 0.
Proof. rewrite <- (charAt_app_r a b 0). f_equal. lia. Qed.

(** The code units of [dir ++ stem ++ "." ++ ext], by position. *)
Lemma file_chars (dir stem ext : string) :
  let p := dir +:+ stem +:+ "." +:+ ext in
  let a := String.length dir in
  let b := String.length stem in
  let e := String.length ext in
  String.length p = (a + b + 1 + e)%nat ∧
  (∀ i, (i < b)%nat -> charAt p (a + i) = charAt stem i) ∧
  charAt p (a + b) = "."%char ∧
  (∀ i, (i < e)%nat -> charAt p (a + b + 1 + i) = charAt ext i) ∧
  (∀ d, dir = d +:+ "/" -> charAt p (a - 1) = "/"%char).
Proof.
  intros p a b e. subst p a b e. repeat split.
  - rewrite !string_length_app. cbn. lia.
  - intros i Hi. rewrite charAt_app_r. by apply charAt_app_l.
  - rewrite charAt_app_r. by rewrite charAt_app_0.
  - intros i Hi. rewrite <- !Nat.add_assoc. by rewrite !charAt_app_r.
  - intros d ->. rewrite string_length_app. cbn.
    replace (String.length d + 1 - 1)%nat with (String.length d) by lia.
    rewrite string_assoc. by rewrite charAt_app_0.
Qed.

Lemma component_chars (stem : string) (i : nat) :
  component stem -> (i < String.length stem)%nat -> isSep (charAt stem i) = false.
Proof.
  intros [_ Hall] Hi. apply (every_charAt _ _ i) in Hall; [|done].
  by apply negb_true_iff in Hall.
Qed.

Lemma suffixName_chars (ext : string) (i : nat) :
  suffixName ext -> (i < String.length ext)%nat ->
  isSep (charAt ext i) = false ∧ isDot (charAt ext i) = false.
Proof.
  intros [_ Hall] Hi. apply (every_charAt _ _ i) in Hall; [|done].
  apply andb_true_iff in Hall as [H1 H2].
  by apply negb_true_iff in H1, H2.
Qed.

Lemma string_app_nil_r (b : string) : b +:+ "" = b.
Proof. induction b as [|c r IH]; [done|]. rewrite string_app_cons. by rewrite IH. Qed.

Lemma substring_suffix (a b : string) :
  substring (String.length a) (String.length b) (a +:+ b) = b.
Proof. rewrite <- (string_app_nil_r b) at 2. apply substring_middle. Qed.

Lemma nonempty_length (s : string) : s ≠ "" -> (0 < String.length s)%nat.
Proof. destruct s; [done|cbn; lia]. Qed.

Lemma extname_loop_first (p : string) (i : nat) :
  isSep (charAt p i) = false -> isDot (charAt p i) = false ->
  extname_loop p (S i)
    {| startDot := -1; startPart := 0; endIdx := -1; matchedSlash := true;
       preDotState := 0 |} =
  extname_loop p i
    {| startDot := -1; startPart := 0; endIdx := Z.of_nat i + 1;
       matchedSlash := false; preDotState := 0 |}.
Proof. intros Hs Hd. cbn [extname_loop]. by rewrite Hs, Hd. Qed.

Lemma extname_loop_dot (p : string) (i : nat) (E : Z) :
  E ≠ -1 -> charAt p i = "."%char ->
  extname_loop p (S i)
    {| startDot := -1; startPart := 0; endIdx := E; matchedSlash := false;
       preDotState := 0 |} =
  extname_loop p i
    {| startDot := Z.of_nat i; startPart := 0; endIdx := E;
       matchedSlash := false; preDotState := 0 |}.
Proof.
  intros HE Hd. cbn [extname_loop]. rewrite Hd. cbn.
  by destruct (Z.eqb_spec E (-1)).
Qed.

Lemma extname_loop_sep (p : string) (i : nat) (st : ExtLoop) :
  charAt p i = "/"%char -> matchedSlash st = false ->
  extname_loop p (S i) st =
    {| startDot := startDot st; startPart := Z.of_nat i + 1; endIdx := endIdx st;
       matchedSlash := matchedSlash st; preDotState := preDotState st |}.
Proof. intros Hc Hm. cbn [extname_loop]. by rewrite Hc, Hm. Qed.

Lemma extname_loop_dir (p : string) (a : nat) (st : ExtLoop) :
  (a = 0%nat ∨ charAt p (a - 1) = "/"%char) -> matchedSlash st = false ->
  ∃ sp, extname_loop p a st =
    {| startDot := startDot st; startPart := sp; endIdx := endIdx st;
       matchedSlash := matchedSlash st; preDotState := preDotState st |}.
Proof.
  intros Ha Hm. destruct a as [|i].
  - exists (startPart st). by destruct st.
  - destruct Ha as [|Ha]; [done|]. exists (Z.of_nat i + 1).
    apply extname_loop_sep; [|done]. by rewrite Nat.sub_1_r in Ha.
Qed.

(** [path.extname] of a file name with a stem and an extension. *)
Lemma extname_file (dir stem ext : string) :
  directory dir -> component stem -> suffixName ext ->
  extname (dir +:+ stem +:+ "." +:+ ext) = "." +:+ ext.
Proof.
  intros Hdir Hstem Hext.
  destruct (file_chars dir stem ext) as (Hlen & Hs & Hd & He & Hsl).
  set (p := dir +:+ stem +:+ "." +:+ ext) in *.
  set (a := String.length dir) in *.
  set (b := String.length stem) in *.
  set (e := String.length ext) in *.
  assert (Hb : (0 < b)%nat) by (apply nonempty_length, Hstem).
  assert (Hle : (0 < e)%nat) by (apply nonempty_length, Hext).
  assert (Hbare : ∀ i, (a + b + 1 <= i < a + b + 1 + e)%nat ->
            isSep (charAt p i) = false ∧ isDot (charAt p i) = false).
  { intros i Hi. replace i with (a + b + 1 + (i - (a + b + 1)))%nat by lia.
    rewrite He by lia. apply suffixName_chars; [done|fold e; lia]. }
  assert (Hplain : ∀ i, (a <= i < a + b)%nat -> isSep (charAt p i) = false).
  { intros i Hi. replace i with (a + (i - a))%nat by lia.
    rewrite Hs by lia. apply component_chars; [done|fold b; lia]. }
  assert (Hloop : ∃ sp y, (y = 1 ∨ y = -1) ∧
    extname_loop p (String.length p)
      {| startDot := -1; startPart := 0; endIdx := -1; matchedSlash := true;
         preDotState := 0 |} =
      {| startDot := Z.of_nat (a + b); startPart := sp;
         endIdx := Z.of_nat (a + b + 1 + e); matchedSlash := false;
         preDotState := y |}).
  { rewrite Hlen. destruct e as [|e'] eqn:Ee; [lia|].
    replace (a + b + 1 + S e')%nat with (S (a + b + 1 + e')) by lia.
    destruct (Hbare (a + b + 1 + e')%nat) as [Hc1 Hc2]; [lia|].
    rewrite (extname_loop_first p _ Hc1 Hc2).
    remember (Z.of_nat (a + b + 1 + e') + 1) as E eqn:HE.
    rewrite extname_loop_bare; [|lia|intros i Hi; apply Hbare; lia].
    rewrite Nat.add_1_r. rewrite extname_loop_dot; [|lia|done].
    destruct (extname_loop_stem p a b (Z.of_nat (a + b)) E 0)
      as (y & _ & Hy & ->); [lia|lia|done|].
    destruct (extname_loop_dir p a
                {| startDot := Z.of_nat (a + b); startPart := 0; endIdx := E;
                   matchedSlash := false; preDotState := y |}) as (sp & ->); [|done|].
    { destruct Hdir as [Hdir|[d Hdir]]; [|right; by apply (Hsl d)].
      left. unfold a. by rewrite Hdir. }
    exists sp, y. split; [auto|]. cbn. f_equal. lia. }
  destruct Hloop as (sp & y & Hy & Hloop).
  unfold extname. fold p. rewrite Hloop. cbn [startDot endIdx preDotState startPart].
  destruct (Z.eqb_spec (Z.of_nat (a + b)) (-1)) as [|_]; [lia|].
  destruct (Z.eqb_spec (Z.of_nat (a + b + 1 + e)) (-1)) as [|_]; [lia|].
  destruct (Z.eqb_spec y 0) as [|_]; [lia|].
  destruct (Z.eqb_spec (Z.of_nat (a + b)) (Z.of_nat (a + b + 1 + e) - 1)) as [|_];
    [lia|]. rewrite andb_false_r. cbn [orb andb].
  unfold slice. rewrite Nat2Z.id.
  replace (Z.to_nat (Z.of_nat (a + b + 1 + e) - Z.of_nat (a + b)))
    with (String.length ("." +:+ ext))
    by (rewrite string_length_app; fold e; cbn [String.length]; lia).
  replace (a + b)%nat with (String.length (dir +:+ stem))
    by (rewrite string_length_app; done).
  unfold p. rewrite <- string_assoc. apply substring_suffix.
Qed.

(** The loops of [basename]. *)
Lemma basename_loop_plain (p : string) (m k : nat) (B E : Z) :
  E ≠ -1 ->
  (∀ i, (m <= i < m + k)%nat -> isSep (charAt p i) = false) ->
  basename_loop p (m + k)
    {| bStart := B; bEnd := E; bMatchedSlash := false; extIdx := -1;
       firstNonSlashEnd := -1 |} =
  basename_loop p m
    {| bStart := B; bEnd := E; bMatchedSlash := false; extIdx := -1;
       firstNonSlashEnd := -1 |}.
Proof.
  intros HE. induction k as [|k IH]; intros Hc.
  - by rewrite Nat.add_0_r.
  - rewrite Nat.add_succ_r. cbn [basename_loop].
    rewrite (Hc (m + k)%nat) by lia. cbn [bEnd].
    destruct (Z.eqb_spec E (-1)) as [|_]; [done|].
    apply IH. intros i Hi. apply Hc. lia.
Qed.

Lemma basename_loop_dir (p : string) (a : nat) (st : BaseLoop) :
  (a = 0%nat ∨ charAt p (a - 1) = "/"%char) ->
  bMatchedSlash st = false -> bStart st = 0 ->
  basename_loop p a st =
    {| bStart := Z.of_nat a; bEnd := bEnd st; bMatchedSlash := bMatchedSlash st;
       extIdx := extIdx st; firstNonSlashEnd := firstNonSlashEnd st |}.
Proof.
  intros Ha Hm Hs. destruct a as [|i].
  - destruct st; cbn in *. by subst.
  - destruct Ha as [|Ha]; [done|]. rewrite Nat.sub_1_r in Ha. cbn [Nat.pred] in Ha.
    cbn [basename_loop]. rewrite Ha, Hm. cbn. f_equal. lia.
Qed.

(** [path.basename] of a file name below a directory. *)
Lemma basename_file (dir name : string) :
  directory dir -> component name ->
  basename (dir +:+ name) = name.
Proof.
  intros Hdir Hname.
  set (p := dir +:+ name). set (a := String.length dir).
  set (b := String.length name).
  assert (Hb : (0 < b)%nat) by (apply nonempty_length, Hname).
  assert (Hlen : String.length p = (a + b)%nat) by apply string_length_app.
  assert (Hplain : ∀ i, (a <= i < a + b)%nat -> isSep (charAt p i) = false).
  { intros i Hi. replace i with (a + (i - a))%nat by lia.
    unfold p, a. rewrite charAt_app_r. apply component_chars; [done|fold a b; lia]. }
  assert (Hsl : a = 0%nat ∨ charAt p (a - 1) = "/"%char).
  { destruct Hdir as [Hdir|[d Hdir]]; [left; unfold a; by rewrite Hdir|right].
    unfold p, a. rewrite Hdir, string_length_app. cbn [String.length].
    replace (String.length d + 1 - 1)%nat with (String.length d) by lia.
    rewrite string_assoc. by rewrite charAt_app_0. }
  assert (Hloop :
    basename_loop p (String.length p)
      {| bStart := 0; bEnd := -1; bMatchedSlash := true; extIdx := -1;
         firstNonSlashEnd := -1 |} =
      {| bStart := Z.of_nat a; bEnd := Z.of_nat (a + b); bMatchedSlash := false;
         extIdx := -1; firstNonSlashEnd := -1 |}).
  { rewrite Hlen. destruct b as [|b'] eqn:Eb; [lia|].
    rewrite Nat.add_succ_r. cbn [basename_loop].
    rewrite (Hplain (a + b')%nat) by lia. cbn [bEnd]. rewrite Z.eqb_refl.
    rewrite basename_loop_plain; [|lia|intros i Hi; apply Hplain; lia].
    rewrite basename_loop_dir; [|done|done|done]. cbn. f_equal. lia. }
  unfold basename. fold p. rewrite Hloop. cbn [bEnd bStart].
  destruct (Z.eqb_spec (Z.of_nat (a + b)) (-1)) as [|_]; [lia|].
  unfold slice. rewrite Nat2Z.id.
  replace (Z.to_nat (Z.of_nat (a + b) - Z.of_nat a)) with b by lia.
  apply substring_suffix.
Qed.







End PosixFacts.

(** ** The table of games *)

Section GameSupportFacts.
Context `{PathModule}.




(** The three things [gameSupport[gameMode]] can be. *)
Lemma member_cases (gameMode : string) :
  (∃ g, GameSupport.gameSupport !! gameMode = Some g ∧
        GameSupport.member gameMode = GameSupport.Own g) ∨
  (GameSupport.gameSupport !! gameMode = None ∧
   gameMode ∈ GameSupport.objectPrototype ∧
   GameSupport.member gameMode = GameSupport.Inherited) ∨
  (GameSupport.gameSupport !! gameMode = None ∧
   (gameMode ∉ GameSupport.objectPrototype) ∧
   GameSupport.member gameMode = GameSupport.Absent).
Proof.
  unfold GameSupport.member.
  destruct (GameSupport.gameSupport !! gameMode) as [g|]; [left; by exists g|right].
  destruct (decide (gameMode ∈ GameSupport.objectPrototype)) as [Hin|Hout].
  - left. by rewrite bool_decide_eq_true_2.
  - right. by rewrite bool_decide_eq_false_2.
Qed.

End GameSupportFacts.




(** ** Lower case

    The code units [toLowerCase] sends to the letters of the two save
    extensions. *)

Lemma lowerChar_dot : ∀ c, Js.lowerChar c = "."%char -> c = "."%char.
Proof.
  intros c; destruct c as [[] [] [] [] [] [] [] []]; vm_compute;
    intros Heq; try discriminate Heq; auto.
Qed.

Lemma lowerChar_e : ∀ c, Js.lowerChar c = "e"%char -> c = "e"%char ∨ c = "E"%char.
Proof.
  intros c; destruct c as [[] [] [] [] [] [] [] []]; vm_compute;
    intros Heq; try discriminate Heq; auto.
Qed.

Lemma lowerChar_s : ∀ c, Js.lowerChar c = "s"%char -> c = "s"%char ∨ c = "S"%char.
Proof.
  intros c; destruct c as [[] [] [] [] [] [] [] []]; vm_compute;
    intros Heq; try discriminate Heq; auto.
Qed.

Lemma lowerChar_f : ∀ c, Js.lowerChar c = "f"%char -> c = "f"%char ∨ c = "F"%char.
Proof.
  intros c; destruct c as [[] [] [] [] [] [] [] []]; vm_compute;
    intros Heq; try discriminate Heq; auto.
Qed.

Lemma lowerChar_o : ∀ c, Js.lowerChar c = "o"%char -> c = "o"%char ∨ c = "O"%char.
Proof.
  intros c; destruct c as [[] [] [] [] [] [] [] []]; vm_compute;
    intros Heq; try discriminate Heq; auto.
Qed.

Lemma toLowerCase_anyCase (e : string) :
  Js.toLowerCase e = ".ess" ∨ Js.toLowerCase e = ".fos" ↔ e ∈ anyCase.
Proof.
  split.
  - destruct e as [|c1 [|c2 [|c3 [|c4 [|c5 r]]]]]; cbn [Js.toLowerCase];
      intros [Heq|Heq]; try discriminate Heq; injection Heq as H1 H2 H3 H4.
    + apply lowerChar_dot in H1 as ->.
      apply lowerChar_e in H2 as [-> | ->]; apply lowerChar_s in H3 as [-> | ->];
        apply lowerChar_s in H4 as [-> | ->]; unfold anyCase;
        repeat first [apply list_elem_of_here | apply list_elem_of_further].
    + apply lowerChar_dot in H1 as ->.
      apply lowerChar_f in H2 as [-> | ->]; apply lowerChar_o in H3 as [-> | ->];
        apply lowerChar_s in H4 as [-> | ->]; unfold anyCase;
        repeat first [apply list_elem_of_here | apply list_elem_of_further].
  - intros Hin. unfold anyCase in Hin.
    repeat (apply elem_of_cons in Hin as [->|Hin]; [vm_compute; auto|]).
    by apply elem_of_nil in Hin.
Qed.

(** ** The scan *)

Section ScanFacts.
Context `{PathModule} {S : Type}.
Variable env : ScanEnv.
Variable onAddSavegame : ISavegame -> S -> S.

Lemma loadSaveGame_decode (filePath : string) (att : Attempt) (st : Scan S) :
  loadSaveGame env onAddSavegame filePath att st =
    match decode env filePath att with
    | Resolved sg =>
      (Resolved (),
       {| failedReads := failedReads st;
          events := events st ++ attemptEvents env filePath att;
          cbState := onAddSavegame (makeSave filePath sg) (cbState st) |})
    | Rejected err =>
      (Rejected err,
       {| failedReads := failedReads st;
          events := events st ++ attemptEvents env filePath att;
          cbState := cbState st |})
    end.
Proof.
  unfold loadSaveGame, decode, attemptEvents, emit, callback; simpl.
  destruct (create env filePath att) as [sg|err|err]; simpl; try reflexivity.
  destruct (Js.startsWith (errMessage err) "failed to open"); simpl; [|reflexivity].
  destruct (openAsync env filePath att); simpl; by rewrite <- app_assoc.
Qed.

(** One candidate, in terms of the answers of the world. *)
Lemma eachSavegame_effect (savesPath : string) (st : Scan S) (name : string) :
  eachSavegame env onAddSavegame savesPath st name =
    {| failedReads := failedReads st ++ failureLine env savesPath name;
       events := events st ++ fileEvents env savesPath name;
       cbState := fold_left (fun s r => onAddSavegame r s)
                    (loaded env savesPath name) (cbState st) |}.
Proof.
  unfold eachSavegame, failureLine, fileEvents, loaded, settle.
  set (p := join [savesPath; name]).
  rewrite loadSaveGame_decode.
  destruct (decode env p FirstTry) as [sg|err] eqn:Hfirst; simpl.
  { by rewrite !app_nil_r. }
  destruct (bool_decide (errCode err = Some "EBUSY")); simpl.
  - rewrite loadSaveGame_decode; simpl.
    destruct (decode env p Retry) as [sg|err2]; simpl;
      unfold emit, pushFailed; simpl;
      rewrite <- ?app_assoc; simpl; by rewrite ?app_nil_r.
  - unfold emit, pushFailed; simpl. by rewrite <- ?app_assoc.
Qed.

(** The whole [Promise.each]. *)
Lemma eachAll_effect (savesPath : string) (names : list string) (st : Scan S) :
  eachAll env onAddSavegame savesPath names st =
    {| failedReads := failedReads st ++ flat_map (failureLine env savesPath) names;
       events := events st ++ flat_map (fileEvents env savesPath) names;
       cbState := fold_left (fun s r => onAddSavegame r s)
                    (flat_map (loaded env savesPath) names) (cbState st) |}.
Proof.
  unfold eachAll. revert st.
  induction names as [|n names IH]; intros st; cbn [flat_map fold_left].
  - rewrite !app_nil_r. by destruct st.
  - rewrite IH, eachSavegame_effect; cbn [failedReads events cbState].
    by rewrite fold_left_app, <- !app_assoc.
Qed.

Lemma creates_app (a b : list ScanEvent) : creates (a ++ b) = creates a ++ creates b.
Proof. apply omap_app. Qed.

Lemma delays_app (a b : list ScanEvent) : delays (a ++ b) = delays a ++ delays b.
Proof. apply omap_app. Qed.

Lemma creates_attemptEvents (p : string) (att : Attempt) :
  creates (attemptEvents env p att) = [p].
Proof.
  unfold attemptEvents, creates; simpl.
  destruct (create env p att) as [sg|err|err]; simpl; try reflexivity.
  by destruct (Js.startsWith (errMessage err) "failed to open").
Qed.

Lemma delays_attemptEvents (p : string) (att : Attempt) :
  delays (attemptEvents env p att) = [].
Proof.
  unfold attemptEvents, delays; simpl.
  destruct (create env p att) as [sg|err|err]; simpl; try reflexivity.
  by destruct (Js.startsWith (errMessage err) "failed to open").
Qed.

Lemma creates_fileEvents_eq (savesPath name : string) :
  let p := join [savesPath; name] in
  creates (fileEvents env savesPath name) =
    match decode env p FirstTry with
    | Resolved _ => [p]
    | Rejected err => if bool_decide (errCode err = Some "EBUSY") then [p; p] else [p]
    end.
Proof.
  unfold fileEvents; cbv zeta. set (p := join [savesPath; name]).
  rewrite !creates_app, creates_attemptEvents.
  assert (creates (match settle env p with
                   | Resolved _ => []
                   | Rejected err =>
                     [SLogWarn "Failed to parse savegame" p (errMessage err)]
                   end) = []) as -> by (by destruct (settle env p)).
  destruct (decode env p FirstTry) as [sg|err]; [reflexivity|].
  destruct (bool_decide (errCode err = Some "EBUSY")); [|reflexivity].
  change (creates (SDelay 500 :: attemptEvents env p Retry))
    with (creates (attemptEvents env p Retry)).
  by rewrite creates_attemptEvents.
Qed.

Lemma delays_fileEvents_eq (savesPath name : string) :
  let p := join [savesPath; name] in
  delays (fileEvents env savesPath name) =
    match decode env p FirstTry with
    | Resolved _ => []
    | Rejected err => if bool_decide (errCode err = Some "EBUSY") then [500] else []
    end.
Proof.
  unfold fileEvents; cbv zeta. set (p := join [savesPath; name]).
  rewrite !delays_app, delays_attemptEvents.
  assert (delays (match settle env p with
                  | Resolved _ => []
                  | Rejected err =>
                    [SLogWarn "Failed to parse savegame" p (errMessage err)]
                  end) = []) as -> by (by destruct (settle env p)).
  destruct (decode env p FirstTry) as [sg|err]; [reflexivity|].
  destruct (bool_decide (errCode err = Some "EBUSY")); [|reflexivity].
  change (delays (SDelay 500 :: attemptEvents env p Retry))
    with (500 :: delays (attemptEvents env p Retry)).
  by rewrite delays_attemptEvents.
Qed.

Lemma creates_fileEvents (savesPath name q : string) :
  q ∈ creates (fileEvents env savesPath name) ↔ q = join [savesPath; name].
Proof.
  rewrite creates_fileEvents_eq; cbv zeta.
  destruct (decode env (join [savesPath; name]) FirstTry) as [sg|err];
    [|destruct (bool_decide (errCode err = Some "EBUSY"))];
    rewrite ?elem_of_cons, ?elem_of_nil; tauto.
Qed.

Lemma creates_flat_map (savesPath : string) (names : list string) (q : string) :
  q ∈ creates (flat_map (fileEvents env savesPath) names) ↔
  ∃ name, name ∈ names ∧ q = join [savesPath; name].
Proof.
  induction names as [|n names IH]; cbn [flat_map].
  - split; [by intros ?%elem_of_nil | by intros (? & ?%elem_of_nil & _)].
  - rewrite creates_app, elem_of_app, creates_fileEvents, IH. split.
    + intros [->|(m & Hm & ->)]; [exists n|exists m];
        (split; [apply elem_of_cons; auto|reflexivity]).
    + intros (m & [->|Hm]%elem_of_cons & ->); [by left|right; by exists m].
Qed.

Lemma refreshSavegames_listed (savesPath : string) (s0 : S) (names : list string) :
  listing env savesPath = Resolved names ->
  refreshSavegames env onAddSavegame savesPath s0 =
    let scan := eachAll env onAddSavegame savesPath
                  (filter (fun n => isSavegame n = true) names)
                  (scanStart savesPath s0) in
    (Resolved (failedReads scan), scan).
Proof. unfold refreshSavegames. by intros ->. Qed.

Lemma eachAll_app (savesPath : string) (l k : list string) (st : Scan S) :
  eachAll env onAddSavegame savesPath (l ++ k) st =
    eachAll env onAddSavegame savesPath k (eachAll env onAddSavegame savesPath l st).
Proof. unfold eachAll. apply fold_left_app. Qed.

(** The iterator on a file that is busy at the first call. *)
Lemma eachSavegame_busy (savesPath name : string) (st : Scan S) (err : JsError) :
  let p := join [savesPath; name] in
  let st' := eachSavegame env onAddSavegame savesPath st name in
  decode env p FirstTry = Rejected err ->
  errCode err = Some "EBUSY" ->
  (∃ first second,
     events st' = events st ++ first ++ SDelay 500 :: second ∧
     creates first = [p] ∧ delays first = [] ∧
     creates second = [p] ∧ delays second = []) ∧
  cbState st' =
    match decode env p Retry with
    | Resolved sg => onAddSavegame (makeSave p sg) (cbState st)
    | Rejected _ => cbState st
    end ∧
  failureLine env savesPath name =
    match decode env p Retry with
    | Resolved _ => []
    | Rejected err2 => [name +:+ " - " +:+ errMessage err2]
    end.
Proof.
  intros p st' Hfirst Hbusy. subst st'.
  rewrite eachSavegame_effect; cbn [events failedReads cbState].
  unfold fileEvents, failureLine, loaded, settle; cbv zeta. fold p.
  rewrite Hfirst, bool_decide_eq_true_2 by done.
  split; [|split].
  - eexists (attemptEvents env p FirstTry), _.
    split; [reflexivity|].
    rewrite creates_attemptEvents, delays_attemptEvents, creates_app, delays_app,
      creates_attemptEvents, delays_attemptEvents.
    by destruct (decode env p Retry).
  - by destruct (decode env p Retry).
  - by destruct (decode env p Retry).
Qed.

(** C1: when the scan comes to a file whose decode fails with [EBUSY], it
    decodes the file once, waits 500 ms, decodes it once more and goes on
    with the files after it; when the second decode succeeds the record
    is handed on and the file has no line in the failure list of the scan,
    when it fails the file has one line there. *)
Theorem busy_file_retried_once (savesPath : string) (s0 : S)
    (names pre post : list string) (name : string) (err : JsError) :
  let p := join [savesPath; name] in
  let st := eachAll env onAddSavegame savesPath pre (scanStart savesPath s0) in
  let st' := eachSavegame env onAddSavegame savesPath st name in
  let scan := snd (refreshSavegames env onAddSavegame savesPath s0) in
  listing env savesPath = Resolved names ->
  filter (fun n => isSavegame n = true) names = pre ++ name :: post ->
  decode env p FirstTry = Rejected err ->
  errCode err = Some "EBUSY" ->
  scan = eachAll env onAddSavegame savesPath post st' ∧
  (∃ first second,
     events st' = events st ++ first ++ SDelay 500 :: second ∧
     creates first = [p] ∧ delays first = [] ∧
     creates second = [p] ∧ delays second = []) ∧
  match decode env p Retry with
  | Resolved sg =>
    cbState st' = onAddSavegame (makeSave p sg) (cbState st) ∧
    failedReads scan =
      flat_map (failureLine env savesPath) pre ++ flat_map (failureLine env savesPath) post
  | Rejected err2 =>
    cbState st' = cbState st ∧
    failedReads scan =
      flat_map (failureLine env savesPath) pre ++
      [name +:+ " - " +:+ errMessage err2] ++
      flat_map (failureLine env savesPath) post
  end.
Proof.
  intros p st st' scan Hl Hc Hfirst Hbusy.
  destruct (eachSavegame_busy savesPath name st err Hfirst Hbusy) as (Hev & Hcb & Hline).
  fold p st' in Hev, Hcb, Hline.
  assert (Hscan : scan = eachAll env onAddSavegame savesPath (pre ++ name :: post)
                           (scanStart savesPath s0)).
  { subst scan. by rewrite (refreshSavegames_listed _ _ _ Hl), Hc. }
  assert (Hfailed : failedReads scan =
                      flat_map (failureLine env savesPath) pre ++
                      failureLine env savesPath name ++
                      flat_map (failureLine env savesPath) post).
  { rewrite Hscan, eachAll_effect; cbn [failedReads scanStart app].
    by rewrite flat_map_app. }
  split; [|split; [exact Hev|]].
  - rewrite Hscan, eachAll_app. reflexivity.
  - rewrite Hfailed, Hline, Hcb. by destruct (decode env p Retry).
Qed.

(** C2: when the directory lists, the scan resolves, whatever the decodes
    do: its result is the failure list, which holds the line of every
    candidate that failed and nothing else, and every candidate has been
    decoded, those after a failing one included. *)
Theorem failures_recorded_scan_goes_on (savesPath : string) (s0 : S)
    (names : list string) :
  listing env savesPath = Resolved names ->
  let candidates := filter (fun n => isSavegame n = true) names in
  ∃ scan,
    refreshSavegames env onAddSavegame savesPath s0 = (Resolved (failedReads scan), scan) ∧
    failedReads scan = flat_map (failureLine env savesPath) candidates ∧
    (∀ n, n ∈ candidates -> join [savesPath; n] ∈ creates (events scan)) ∧
    (∀ pre n post err,
       candidates = pre ++ n :: post ->
       settle env (join [savesPath; n]) = Rejected err ->
       failedReads scan =
         flat_map (failureLine env savesPath) pre ++
         [n +:+ " - " +:+ errMessage err] ++
         flat_map (failureLine env savesPath) post).
Proof.
  intros Hl candidates.
  rewrite (refreshSavegames_listed _ _ _ Hl); cbv zeta. fold candidates.
  eexists; split; [reflexivity|].
  rewrite eachAll_effect; cbn [failedReads events scanStart].
  split; [reflexivity|]. split.
  - intros n Hn. rewrite creates_app. apply elem_of_app; right.
    apply creates_flat_map. eauto.
  - intros pre n post err -> Hs. cbn [app].
    rewrite flat_map_app; cbn [flat_map].
    unfold failureLine at 2. by rewrite Hs.
Qed.

(** A listing error: a directory that does not exist lists as empty, any
    other error rejects the scan; in both cases no file is touched and
    the callback is not called. *)
Lemma refreshSavegames_listing_error (savesPath : string) (s0 : S) (err : JsError) :
  readdirAsync env savesPath = Rejected err ->
  refreshSavegames env onAddSavegame savesPath s0 =
    (if bool_decide (errCode err = Some "ENOENT") then Resolved [] else Rejected err,
     scanStart savesPath s0).
Proof.
  intros Hr. unfold refreshSavegames, listing. rewrite Hr.
  by destruct (bool_decide (errCode err = Some "ENOENT")).
Qed.

Lemma isSavegame_anyCase (name : string) :
  isSavegame name = true ↔ extname name ∈ anyCase.
Proof.
  unfold isSavegame, Js.includes, recognized. cbn [existsb].
  rewrite orb_false_r, orb_true_iff, !String.eqb_eq.
  rewrite <- toLowerCase_anyCase. split; (intros [Heq|Heq]; [by left|by right]).
Qed.

(** C4: the files the scan decodes are the entries of the listing whose
    extension is [.ess] or [.fos] in any mix of upper and lower case; a
    directory without such an entry gives no failure and no call of the
    callback. *)
Theorem scan_decodes_saves_only (savesPath : string) (s0 : S) (names : list string) :
  readdirAsync env savesPath = Resolved names ->
  let scan := snd (refreshSavegames env onAddSavegame savesPath s0) in
  (∀ p, p ∈ creates (events scan) ↔
        ∃ name, name ∈ names ∧ extname name ∈ anyCase ∧ p = join [savesPath; name]) ∧
  ((∀ name, name ∈ names -> ¬ extname name ∈ anyCase) ->
   refreshSavegames env onAddSavegame savesPath s0 =
     (Resolved [], scanStart savesPath s0)).
Proof.
  intros Hr scan.
  assert (Hl : listing env savesPath = Resolved names) by (unfold listing; by rewrite Hr).
  subst scan. rewrite (refreshSavegames_listed _ _ _ Hl); cbv zeta; cbn [snd].
  split.
  - intros p. rewrite eachAll_effect; cbn [events scanStart].
    rewrite creates_app. change (creates [SReaddir savesPath]) with (@nil string).
    cbn [app]. rewrite creates_flat_map. split.
    + intros (n & Hn & ->). apply list_elem_of_filter in Hn as [Hs Hn].
      exists n. by rewrite <- isSavegame_anyCase.
    + intros (n & Hn & Hs & ->). exists n. split; [|done].
      apply list_elem_of_filter. by rewrite isSavegame_anyCase.
  - intros Hnone.
    assert (filter (fun n => isSavegame n = true) names = []) as ->; [|reflexivity].
    apply elem_of_nil_inv. intros n [Hs Hn]%list_elem_of_filter.
    apply (Hnone n Hn). by apply isSavegame_anyCase.
Qed.

End ScanFacts.

(** ** The synchroniser *)

Section CollectFacts.
Context `{PathModule}.
Variable env : ScanEnv.

Lemma collectNew_fold (recs : list ISavegame) (c : Collect) :
  fold_left (fun s r => collectNew r s) recs c =
    {| seen := seen c;
       newSavegames :=
         newSavegames c ++ filter (fun r => saves (seen c) !! id r = None) recs |}.
Proof.
  revert c. induction recs as [|r recs IH]; intros c; cbn [fold_left].
  - rewrite filter_nil, app_nil_r. by destruct c.
  - rewrite IH. unfold collectNew. rewrite filter_cons.
    destruct (saves (seen c) !! id r) eqn:Hk; cbn [seen newSavegames].
    + rewrite decide_False by done. reflexivity.
    + rewrite decide_True by done. by rewrite <- app_assoc.
Qed.

(** The new-record set of a scan, in terms of the answers of the world. *)
Lemma collected (savesPath : string) (names : list string) (s : IState) :
  newSavegames
    (cbState (eachAll env collectNew savesPath names
                (scanStart savesPath {| seen := s; newSavegames := [] |}))) =
  filter (fun r => saves s !! id r = None) (flat_map (loaded env savesPath) names).
Proof. rewrite eachAll_effect; cbn [cbState scanStart]. by rewrite collectNew_fold. Qed.

Lemma collectLive_alone (save : ISavegame) (c : Collect) :
  collectLive alone save c = collectNew save c.
Proof. by destruct c. Qed.

Lemma collectLive_step (chains : Chains) (save : ISavegame) (c : Collect) :
  let now := atCallback chains (filePath save) (seen c) in
  collectLive chains save c =
    {| seen := now;
       newSavegames :=
         newSavegames c ++
         match saves now !! id save with
         | None => [save]
         | Some _ => []
         end |}.
Proof.
  unfold collectLive, collectNew; cbn [seen newSavegames].
  destruct (saves _ !! id save); [by rewrite app_nil_r|done].
Qed.

(** The new-record set only grows. *)
Lemma collectLive_grows (chains : Chains) (recs : list ISavegame) (c : Collect) :
  ∃ later,
    newSavegames (fold_left (fun s r => collectLive chains r s) recs c) =
      newSavegames c ++ later.
Proof.
  revert c. induction recs as [|r recs IH]; intros c; cbn [fold_left].
  - exists []. by rewrite app_nil_r.
  - destruct (IH (collectLive chains r c)) as [later ->].
    rewrite collectLive_step; cbn [newSavegames]. rewrite <- app_assoc. by eexists.
Qed.

(** Where a record of the new-record set comes from: a candidate that
    decoded, whose id the store did not have when its callback ran. *)
Lemma collected_live (chains : Chains) (savesPath : string) (names : list string)
    (st0 : Scan Collect) (r : ISavegame) :
  r ∈ newSavegames (cbState (eachAll env (collectLive chains) savesPath names st0)) ->
  r ∈ newSavegames (cbState st0) ∨
  ∃ pre name post,
    names = pre ++ name :: post ∧
    r ∈ loaded env savesPath name ∧
    saves (atCallback chains (filePath r)
             (seen (cbState (eachAll env (collectLive chains) savesPath pre st0))))
      !! id r = None.
Proof.
  induction names as [|n l IH] using rev_ind; [by left|].
  rewrite eachAll_app. unfold eachAll at 1; cbn [fold_left].
  rewrite eachSavegame_effect; cbn [cbState].
  assert (Hold : r ∈ newSavegames
                       (cbState (eachAll env (collectLive chains) savesPath l st0)) ->
                 r ∈ newSavegames (cbState st0) ∨
                 ∃ pre name post,
                   l ++ [n] = pre ++ name :: post ∧
                   r ∈ loaded env savesPath name ∧
                   saves (atCallback chains (filePath r)
                            (seen (cbState (eachAll env (collectLive chains)
                                              savesPath pre st0))))
                     !! id r = None).
  { intros Hr. destruct (IH Hr) as [Hin|(pre & name & post & -> & Hl & Hk)]; [by left|].
    right. exists pre, name, (post ++ [n]). by rewrite <- app_assoc. }
  destruct (loaded env savesPath n) as [|rec [|rec2 rest]] eqn:Hloaded; cbn [fold_left].
  - exact Hold.
  - rewrite collectLive_step; cbn [newSavegames].
    intros [Hr|Hr]%elem_of_app; [by apply Hold|].
    destruct (saves _ !! id rec) eqn:Hk; [by apply elem_of_nil in Hr|].
    apply list_elem_of_singleton in Hr as ->.
    right. exists l, n, []. split; [done|]. split; [|exact Hk].
    rewrite Hloaded. by apply list_elem_of_singleton.
  - unfold loaded in Hloaded. by destruct (settle env _).
Qed.

(** C5: a file that decodes is handed to the callback once, as a record
    made from the file's path whose id is the base name of the file; the
    file adds nothing to the failure list; and the callback adds the record
    to the new-record set exactly when the store, as it is when the
    callback runs, has no save under that id.  What is in the set stays
    there until the scan ends, and every record of the set is the record
    of a listed file, with the base name of that file as its id. *)
Theorem decoded_file_is_new_iff_unknown (chains : Chains) (savesPath : string)
    (s : IState) (names pre post : list string) (name : string) (sg : LibSave) :
  let p := join [savesPath; name] in
  let save := makeSave p sg in
  let before := eachAll env (collectLive chains) savesPath pre
                  (scanStart savesPath {| seen := s; newSavegames := [] |}) in
  let after := eachSavegame env (collectLive chains) savesPath before name in
  let scan := snd (refreshSavegames env (collectLive chains) savesPath
                     {| seen := s; newSavegames := [] |}) in
  let now := atCallback chains p (seen (cbState before)) in
  listing env savesPath = Resolved names ->
  filter (fun n => isSavegame n = true) names = pre ++ name :: post ->
  settle env p = Resolved sg ->
  scan = eachAll env (collectLive chains) savesPath post after ∧
  cbState after = collectLive chains save (cbState before) ∧
  filePath save = p ∧ id save = basename p ∧
  seen (cbState after) = now ∧
  newSavegames (cbState after) =
    newSavegames (cbState before) ++
    match saves now !! id save with
    | None => [save]
    | Some _ => []
    end ∧
  (∃ later, newSavegames (cbState scan) = newSavegames (cbState after) ++ later) ∧
  (∀ r, r ∈ newSavegames (cbState scan) ->
        ∃ n, n ∈ names ∧ filePath r = join [savesPath; n] ∧
             id r = basename (join [savesPath; n])) ∧
  failedReads scan =
    flat_map (failureLine env savesPath) pre ++ flat_map (failureLine env savesPath) post.
Proof.
  intros p save before after scan now Hl Hc Hs.
  assert (Hscan : scan = eachAll env (collectLive chains) savesPath post after).
  { subst scan. rewrite (refreshSavegames_listed _ _ _ _ _ Hl); cbv zeta; cbn [snd].
    rewrite Hc, eachAll_app. reflexivity. }
  assert (Hafter : cbState after = collectLive chains save (cbState before)).
  { subst after. rewrite eachSavegame_effect; cbn [cbState].
    unfold loaded. fold p. by rewrite Hs. }
  split; [exact Hscan|]. split; [exact Hafter|].
  do 2 (split; [reflexivity|]).
  rewrite Hafter, collectLive_step; cbn [seen newSavegames filePath].
  do 2 (split; [reflexivity|]). split; [|split].
  - rewrite Hscan, eachAll_effect; cbn [cbState]. rewrite Hafter.
    rewrite collectLive_step; cbn [filePath]. apply collectLive_grows.
  - intros r Hr. subst scan.
    rewrite (refreshSavegames_listed _ _ _ _ _ Hl) in Hr; cbv zeta in Hr; cbn [snd] in Hr.
    apply collected_live in Hr as [Hr|(l & n & k & Hn & Hr & _)];
      [by apply elem_of_nil in Hr|].
    exists n. split.
    { assert (Hin : n ∈ filter (fun n => isSavegame n = true) names)
        by (rewrite Hn; apply elem_of_app; right; apply elem_of_cons; by left).
      by apply list_elem_of_filter in Hin as [_ Hin]. }
    unfold loaded in Hr.
    destruct (settle env (join [savesPath; n])) as [sg'|]; [|by apply elem_of_nil in Hr].
    by apply list_elem_of_singleton in Hr as ->.
  - rewrite Hscan, eachAll_effect; cbn [failedReads].
    subst after. rewrite eachSavegame_effect; cbn [failedReads].
    unfold failureLine at 1. fold p. rewrite Hs, app_nil_r.
    subst before. rewrite eachAll_effect; cbn [failedReads scanStart app]. done.
Qed.

End CollectFacts.

Section SyncFacts.
Context `{PathModule}.
Variable reduce : IState -> Action -> IState.

Lemma updateSaves_listed (world : World) (profileId savesPath : string)
    (st : AppState) (names : list string) :
  listing (scanEnv world) savesPath = Resolved names ->
  let candidates := filter (fun n => isSavegame n = true) names in
  updateSaves reduce world profileId savesPath st =
    (Resolved (flat_map (failureLine (scanEnv world) savesPath) candidates),
     dispatch reduce
       (SetSavegames (toDict (newRecords world savesPath (store st))))
       (record (EvScan <$> SReaddir savesPath ::
                  flat_map (fileEvents (scanEnv world) savesPath) candidates) st)).
Proof.
  intros Hl candidates. unfold updateSaves, newRecords.
  rewrite (refreshSavegames_listed _ _ _ _ _ Hl); cbv zeta. fold candidates.
  cbn [snd]. rewrite eachAll_effect; cbn [failedReads events cbState scanStart app].
  reflexivity.
Qed.

(** C3: on a directory that does not exist the scan resolves with an
    empty failure list and has not called the callback, so that
    [updateSaves] hands an empty batch to the store; any other listing
    error rejects the scan, and [updateSaves] with it. *)
Theorem missing_directory_is_empty (world : World) (profileId savesPath : string)
    (st : AppState) (err : JsError) :
  readdirAsync (scanEnv world) savesPath = Rejected err ->
  (errCode err = Some "ENOENT" ->
     (∀ S (onAddSavegame : ISavegame -> S -> S) (s0 : S),
        refreshSavegames (scanEnv world) onAddSavegame savesPath s0 =
          (Resolved [], scanStart savesPath s0)) ∧
     newRecords world savesPath (store st) = [] ∧
     updateSaves reduce world profileId savesPath st =
       (Resolved [],
        dispatch reduce (SetSavegames ∅) (record [EvScan (SReaddir savesPath)] st))) ∧
  (errCode err ≠ Some "ENOENT" ->
     (∀ S (onAddSavegame : ISavegame -> S -> S) (s0 : S),
        refreshSavegames (scanEnv world) onAddSavegame savesPath s0 =
          (Rejected err, scanStart savesPath s0)) ∧
     updateSaves reduce world profileId savesPath st =
       (Rejected err, record [EvScan (SReaddir savesPath)] st)).
Proof.
  intros Hr. split; intros Hcode.
  - assert (Hscan : ∀ S (f : ISavegame -> S -> S) (s0 : S),
              refreshSavegames (scanEnv world) f savesPath s0 =
                (Resolved [], scanStart savesPath s0)).
    { intros. rewrite (refreshSavegames_listing_error _ _ _ _ _ Hr).
      by rewrite bool_decide_eq_true_2. }
    split; [exact Hscan|]. unfold newRecords, updateSaves.
    rewrite Hscan. by split.
  - assert (Hscan : ∀ S (f : ISavegame -> S -> S) (s0 : S),
              refreshSavegames (scanEnv world) f savesPath s0 =
                (Rejected err, scanStart savesPath s0)).
    { intros. rewrite (refreshSavegames_listing_error _ _ _ _ _ Hr).
      by rewrite bool_decide_eq_false_2. }
    split; [exact Hscan|]. unfold updateSaves. by rewrite Hscan.
Qed.

Lemma toDict_from (l : list ISavegame) (d : gmap string ISavegame) (i : string) :
  is_Some (fold_left (fun d save => <[id save := save]> d) l d !! i) ↔
  is_Some (d !! i) ∨ ∃ r, r ∈ l ∧ id r = i.
Proof.
  revert d. induction l as [|r l IH]; intros d; cbn [fold_left].
  - split; [by left|]. intros [?|(? & ?%elem_of_nil & _)]; done.
  - rewrite IH, lookup_insert_is_Some. split.
    + intros [[Heq|[_ Hd]]|(r' & Hr' & Heq)].
      * right. exists r. split; [apply elem_of_cons; by left|done].
      * by left.
      * right. exists r'. split; [apply elem_of_cons; by right|done].
    + intros [Hd|(r' & Hr' & Heq)].
      * destruct (decide (id r = i)) as [Hi|Hne]; left; [by left|by right].
      * apply elem_of_cons in Hr' as [->|Hr'].
        -- left. by left.
        -- right. by exists r'.
Qed.

Lemma toDict_ids (l : list ISavegame) (i : string) :
  is_Some (toDict l !! i) ↔ ∃ r, r ∈ l ∧ id r = i.
Proof.
  unfold toDict. rewrite toDict_from, lookup_empty. split; [|by right].
  intros [[? ?]|?]; done.
Qed.

(** C6: when the store keeps what it had and gains the batch of
    [setSavegames], a second scan of the directory in the same world,
    after [updateSaves] has merged the first, finds nothing new. *)
Theorem second_scan_finds_nothing_new (world : World) (profileId savesPath : string)
    (st st1 : AppState) (failed : list string) :
  (∀ s d i, is_Some (saves s !! i) ∨ is_Some (d !! i) ->
            is_Some (saves (reduce s (SetSavegames d)) !! i)) ->
  updateSaves reduce world profileId savesPath st = (Resolved failed, st1) ->
  newRecords world savesPath (store st1) = [] ∧
  ∃ evs,
    updateSaves reduce world profileId savesPath st1 =
      (Resolved failed, dispatch reduce (SetSavegames ∅) (record evs st1)).
Proof.
  intros Hmerge Hfirst.
  destruct (listing (scanEnv world) savesPath) as [names|err] eqn:Hl.
  2:{ unfold updateSaves, refreshSavegames in Hfirst. by rewrite Hl in Hfirst. }
  pose proof (updateSaves_listed world profileId savesPath st names Hl) as H1.
  cbv zeta in H1. rewrite H1 in Hfirst. injection Hfirst as <- <-.
  set (candidates := filter (fun n => isSavegame n = true) names) in *.
  assert (Hnone : ∀ s1, s1 = reduce (store st)
                          (SetSavegames (toDict (newRecords world savesPath (store st)))) ->
                        newRecords world savesPath s1 = []).
  { intros s1 ->. unfold newRecords.
    rewrite !(refreshSavegames_listed _ _ _ _ _ Hl); cbv zeta; cbn [snd].
    fold candidates. rewrite !collected.
    apply elem_of_nil_inv. intros r [Hunknown Hr]%list_elem_of_filter.
    apply eq_None_not_Some in Hunknown. apply Hunknown, Hmerge.
    destruct (saves (store st) !! id r) as [known|] eqn:Hk; [left; eauto|].
    right. apply toDict_ids. exists r. split; [|done].
    apply list_elem_of_filter. done. }
  split; [by apply Hnone|].
  eexists.
  rewrite (updateSaves_listed world profileId savesPath _ names Hl); cbv zeta.
  rewrite Hnone by reflexivity. reflexivity.
Qed.

(** C7: an activation for a profile id that names no profile does
    nothing at all: the state, with its store and its log of reads,
    writes, dispatches and notifications, is the one before; on its own,
    [updateSaveSettings] is rejected as cancelled before it has read or
    written anything. *)
Theorem unknown_profile_is_noop (world : World) (profileId : string) (st : AppState) :
  profiles (store st) !! profileId = None ->
  profileDidChange reduce world profileId st = st ∧
  updateSaveSettings reduce world profileId st =
    (Rejected (processCanceled "no current profile"), st).
Proof.
  intros Hp. unfold profileDidChange, updateSaveSettings. by rewrite Hp.
Qed.

End SyncFacts.

(** ** The watch *)

Section WatchFacts.
Context `{PathModule}.
Variable reduce : IState -> Action -> IState.

Lemma liveAfter_snoc (l : list Event) (e : Event) :
  liveAfter (l ++ [e]) = liveStep (liveAfter l) e.
Proof. unfold liveAfter. by rewrite fold_left_app. Qed.

Lemma liveAfter_quiet (l evs : list Event) :
  Forall quiet evs -> liveAfter (l ++ evs) = liveAfter l.
Proof.
  intros Hq. unfold liveAfter. rewrite fold_left_app.
  generalize (fold_left liveStep l ∅).
  induction Hq as [|e evs He _ IH]; intros s; cbn [fold_left]; [done|].
  rewrite IH. by destruct e.
Qed.

Lemma prefix_app_cases {A} (pre l k : list A) :
  pre `prefix_of` l ++ k -> pre `prefix_of` l ∨ ∃ k', pre = l ++ k' ∧ k' `prefix_of` k.
Proof.
  intros Hp.
  destruct (prefix_weak_total pre l (l ++ k) Hp) as [Hl|[k' ->]].
  - by apply prefix_app_r.
  - by left.
  - right. exists k'. split; [done|]. by apply prefix_app_inv in Hp.
Qed.

Lemma prefix_quiet (l evs pre : list Event) :
  Forall quiet evs -> pre `prefix_of` l ++ evs ->
  ∃ pre', pre' `prefix_of` l ∧ liveAfter pre = liveAfter pre'.
Proof.
  intros Hq [Hp|(k' & -> & [k'' ->])]%prefix_app_cases.
  - by exists pre.
  - exists l. split; [done|]. apply liveAfter_quiet.
    by apply Forall_app in Hq as [? _].
Qed.

Lemma quietStep_inv (st st' : AppState) : quietStep st st' -> watchInv st -> watchInv st'.
Proof.
  intros (Hf & Hw & evs & Hlog & Hq) (I1 & I2 & I3).
  assert (Hlive : ∀ w, isLive st' w = isLive st w).
  { intros w. unfold isLive. by rewrite Hw. }
  split; [|split].
  - intros w. rewrite Hlog, liveAfter_quiet, Hlive by done. apply I1.
  - intros w Hv. rewrite Hlive in Hv. rewrite Hf, Hw. by apply I2.
  - intros pre Hp. rewrite Hlog in Hp.
    destruct (prefix_quiet _ _ _ Hq Hp) as (pre' & Hp' & ->). by apply I3.
Qed.

Lemma quietStep_refl (st : AppState) : quietStep st st.
Proof. repeat split. exists []. by rewrite app_nil_r. Qed.

Lemma quietStep_trans (a b c : AppState) : quietStep a b -> quietStep b c -> quietStep a c.
Proof.
  intros (Hf & Hw & e1 & Hl1 & Hq1) (Hf' & Hw' & e2 & Hl2 & Hq2).
  split; [congruence|]. split; [congruence|].
  exists (e1 ++ e2). split; [by rewrite Hl2, Hl1, app_assoc|by apply Forall_app].
Qed.

Lemma quiet_record (evs : list Event) (st : AppState) :
  Forall quiet evs -> quietStep st (record evs st).
Proof. intros Hq. repeat split. by exists evs. Qed.

Lemma quiet_dispatch (a : Action) (st : AppState) : quietStep st (dispatch reduce a st).
Proof.
  repeat split. exists [EvDispatch a]. split; [done|]. by repeat constructor.
Qed.

Lemma quiet_notify (title : string) (details : Details) (st : AppState) :
  quietStep st (showErrorNotification title details st).
Proof. apply quiet_record. by repeat constructor. Qed.

Lemma quiet_reportFailed (failed : list string) (st : AppState) :
  quietStep st (reportFailed failed st).
Proof.
  unfold reportFailed. destruct (0 <? length failed)%nat;
    [apply quiet_notify|apply quietStep_refl].
Qed.

Lemma quiet_unhandled (err : JsError) (st : AppState) :
  quietStep st (record [EvUnhandledRejection err] st).
Proof. apply quiet_record. by repeat constructor. Qed.

Lemma quiet_scan (evs : list ScanEvent) : Forall quiet (EvScan <$> evs).
Proof. induction evs; constructor; done. Qed.

Lemma quiet_updateSaves (world : World) (profileId savesPath : string) (st : AppState) :
  quietStep st (snd (updateSaves reduce world profileId savesPath st)).
Proof.
  unfold updateSaves.
  destruct (refreshSavegames _ _ _ _) as [[failed|err] scan]; cbn [snd].
  - eapply quietStep_trans; [apply quiet_record, quiet_scan|apply quiet_dispatch].
  - apply quiet_record, quiet_scan.
Qed.

Lemma quiet_updateSaveSettings (world : World) (profileId : string) (st : AppState) :
  quietStep st (snd (updateSaveSettings reduce world profileId st)).
Proof.
  unfold updateSaveSettings.
  destruct (profiles (store st) !! profileId) as [profile|]; [|apply quietStep_refl].
  destruct (GameSupport.iniPath _ _) as [ini|]; [|apply quietStep_refl].
  assert (Hread : quietStep st (record [EvIniRead ini] st))
    by (apply quiet_record; by repeat constructor).
  destruct (iniRead world ini) as [data|err]; [|exact Hread].
  set (data' := <["General" := _]> data).
  set (st3 := dispatch reduce ClearSavegames _).
  assert (H3 : quietStep st st3).
  { eapply quietStep_trans; [exact Hread|].
    eapply quietStep_trans; [apply (quiet_record [EvIniWrite ini data']); by repeat constructor|].
    eapply quietStep_trans; apply quiet_dispatch. }
  destruct (negb _); [exact H3|].
  destruct (GameSupport.mygamesPath _ _) as [mygames|]; [|exact H3].
  set (readPath := mygames +:+ _).
  assert (H4 : quietStep st (record [EvEnsureDir readPath] st3)).
  { eapply quietStep_trans; [exact H3|]. apply quiet_record. by repeat constructor. }
  by destruct (ensureDirAsync world readPath).
Qed.

Lemma prefix_snoc_cases {A} (pre l : list A) (x : A) :
  pre `prefix_of` l ++ [x] -> pre `prefix_of` l ∨ pre = l ++ [x].
Proof.
  intros [Hp|(k' & -> & Hk)]%prefix_app_cases; [by left|].
  destruct Hk as [k'' Hk]. destruct k' as [|y k'].
  - left. by rewrite app_nil_r.
  - injection Hk as -> Hk. symmetry in Hk.
    apply app_eq_nil in Hk as [-> _]. by right.
Qed.

Lemma noLive_empty (st : AppState) :
  watchInv st -> (∀ w, isLive st w = false) -> liveAfter (log st) = ∅.
Proof.
  intros (I1 & _ & _) Hno. apply set_eq. intros w.
  rewrite I1, Hno. split; [done|]. by intros ?%not_elem_of_empty.
Qed.

Lemma closePrevious_inv (st : AppState) :
  watchInv st ->
  watchInv (closePrevious st) ∧ ∀ w, isLive (closePrevious st) w = false.
Proof.
  intros Hinv. pose proof Hinv as (I1 & I2 & I3). unfold closePrevious.
  destruct (fsWatcher st) as [w|] eqn:Hf.
  - assert (Hno : ∀ v, isLive (closeWatcher w st) v = false).
    { intros v. unfold isLive, closeWatcher; cbn [watchers].
      destruct (decide (w = v)) as [->|Hne].
      - rewrite list_lookup_alter_eq. by destruct (watchers st !! v).
      - rewrite list_lookup_alter_ne by done.
        destruct (isLive st v) eqn:Hv; [|exact Hv].
        destruct (I2 v Hv) as [Hv' _]. congruence. }
    split; [|exact Hno].
    assert (Hempty : liveAfter (log st ++ [EvWatchClose w]) = ∅).
    { rewrite liveAfter_snoc; cbn [liveStep]. apply set_eq. intros v.
      rewrite elem_of_difference, I1, elem_of_singleton. split.
      - intros [Hv Hne]. destruct (I2 v Hv) as [Hv' _]. congruence.
      - by intros ?%not_elem_of_empty. }
    split; [|split].
    + intros v. cbn [log closeWatcher]. rewrite Hempty, Hno.
      split; [by intros ?%not_elem_of_empty|done].
    + intros v Hv. by rewrite Hno in Hv.
    + intros pre [Hp| ->]%prefix_snoc_cases; [by apply I3|].
      rewrite Hempty, size_empty. lia.
  - split; [exact Hinv|]. intros v.
    destruct (isLive st v) eqn:Hv; [|reflexivity].
    destruct (I2 v Hv) as [Hv' _]. congruence.
Qed.

Lemma attachWatch_inv (world : World) (profileId savesPath : string) (st : AppState) :
  watchInv st -> (∀ w, isLive st w = false) ->
  watchInv (attachWatch world profileId savesPath st).
Proof.
  intros Hinv Hno. pose proof Hinv as (I1 & I2 & I3). unfold attachWatch.
  destruct (watch world savesPath) as [err|].
  { eapply quietStep_inv; [apply quiet_notify|exact Hinv]. }
  set (n := length (watchers st)).
  set (st' := {| store := store st; fsWatcher := Some n; watchers := _; log := _ |}).
  assert (Hlive : ∀ v, isLive st' v = true ↔ v = n).
  { intros v. unfold isLive, st'; cbn [watchers].
    destruct (decide (v < n)%nat) as [Hlt|Hge].
    - rewrite lookup_app_l by done. pose proof (Hno v) as Hv. unfold isLive in Hv.
      rewrite Hv. split; [done|]. intros ->. lia.
    - destruct (decide (v = n)) as [->|Hne].
      + rewrite lookup_app_r by done. subst n. rewrite Nat.sub_diag. by cbn.
      + rewrite lookup_ge_None_2; [split; [done|by intros ?]|].
        rewrite length_app; cbn [length]. fold n. lia. }
  assert (Hlog : liveAfter (log st') = {[n]}).
  { unfold st'; cbn [log]. rewrite liveAfter_snoc; cbn [liveStep].
    rewrite (noLive_empty st Hinv Hno). apply (right_id_L ∅ (∪)). }
  split; [|split].
  - intros v. by rewrite Hlog, elem_of_singleton, Hlive.
  - intros v ->%Hlive. split; [reflexivity|].
    unfold st'; cbn [watchers]. rewrite length_app; cbn [length]. fold n. lia.
  - intros pre [Hp|Hp]%prefix_snoc_cases; [by apply I3|].
    change (log st ++ [EvWatchOpen n savesPath]) with (log st') in Hp.
    rewrite Hp, Hlog, size_singleton. lia.
Qed.

Lemma fsEvent_inv (w : nat) (evt filename : string) (now : Z) (st : AppState) :
  watchInv st -> watchInv (fsEvent w evt filename now st).
Proof.
  intros Hinv. pose proof Hinv as (I1 & I2 & I3). unfold fsEvent.
  destruct (watchers st !! w) as [r|] eqn:Hw; [|exact Hinv].
  destruct (closed r) eqn:Hc; [exact Hinv|].
  set (st' := {| store := store st; fsWatcher := fsWatcher st; watchers := _;
                 log := log st |}).
  assert (Hlive : ∀ v, isLive st' v = isLive st v).
  { intros v. unfold isLive, st'; cbn [watchers].
    destruct (decide (w = v)) as [<-|Hne].
    - rewrite list_lookup_insert_eq by (by eapply lookup_lt_Some).
      rewrite Hw. cbn [closed]. by rewrite Hc.
    - by rewrite list_lookup_insert_ne. }
  split; [|split].
  - intros v. rewrite Hlive. apply I1.
  - intros v Hv. rewrite Hlive in Hv. destruct (I2 v Hv) as [Hf Hlast].
    split; [exact Hf|]. unfold st'; cbn [watchers]. by rewrite length_insert.
  - apply I3.
Qed.

Lemma attachBlock_inv (world : World) (profileId savesPath : string)
    (failed : list string) (st : AppState) :
  watchInv st ->
  watchInv (attachWatch world profileId savesPath (closePrevious (reportFailed failed st))).
Proof.
  intros Hinv.
  destruct (closePrevious_inv (reportFailed failed st)) as [Hc Hno].
  { eapply quietStep_inv; [apply quiet_reportFailed|exact Hinv]. }
  by apply attachWatch_inv.
Qed.

(** An activation either leaves the watches alone or ends with the attach
    block, run on a state that differs from the first by quiet steps. *)
Lemma profileDidChange_steps (world : World) (profileId : string) (st : AppState) :
  quietStep st (profileDidChange reduce world profileId st) ∨
  ∃ mid savesPath failed,
    quietStep st mid ∧
    profileDidChange reduce world profileId st =
      attachWatch world profileId savesPath (closePrevious (reportFailed failed mid)).
Proof.
  unfold profileDidChange.
  destruct (profiles (store st) !! profileId) as [profile|]; [|left; apply quietStep_refl].
  destruct (negb _); [left; apply quietStep_refl|].
  pose proof (quiet_updateSaveSettings world profileId st) as Hs.
  destruct (updateSaveSettings reduce world profileId st) as [[[savesPath|]|err] st1];
    cbn [snd] in Hs;
    try (left; eapply quietStep_trans; [exact Hs|apply quiet_unhandled]).
  pose proof (quiet_updateSaves world profileId savesPath st1) as Hu.
  destruct (updateSaves reduce world profileId savesPath st1) as [[failed|err] st2];
    cbn [snd] in Hu.
  - right. exists st2, savesPath, failed. split; [|reflexivity].
    by eapply quietStep_trans.
  - left. eapply quietStep_trans; [exact Hs|].
    eapply quietStep_trans; [exact Hu|apply quiet_unhandled].
Qed.

Lemma profileDidChange_inv (world : World) (profileId : string) (st : AppState) :
  watchInv st -> watchInv (profileDidChange reduce world profileId st).
Proof.
  intros Hinv.
  destruct (profileDidChange_steps world profileId st)
    as [Hq|(mid & savesPath & failed & Hq & ->)].
  - by eapply quietStep_inv.
  - apply attachBlock_inv. by eapply quietStep_inv.
Qed.

Lemma input_inv (st : AppState) (i : Input) : watchInv st -> watchInv (input reduce st i).
Proof.
  intros Hinv. destruct i; cbn [input].
  - by apply profileDidChange_inv.
  - eapply quietStep_inv; [apply quiet_updateSaveSettings|exact Hinv].
  - eapply quietStep_inv; [apply quiet_updateSaves|exact Hinv].
  - by apply attachBlock_inv.
  - by apply fsEvent_inv.
Qed.

Lemma run_inv (inputs : list Input) (st : AppState) :
  watchInv st -> watchInv (run reduce inputs st).
Proof.
  unfold run. revert st.
  induction inputs as [|i inputs IH]; intros st Hinv; cbn [fold_left]; [exact Hinv|].
  by apply IH, input_inv.
Qed.

Lemma initial_inv (s : IState) : watchInv (initial s).
Proof.
  assert (Hno : ∀ w, isLive (initial s) w = false) by (intros w; by destruct w).
  split; [|split].
  - intros w. rewrite Hno. split; [by intros ?%not_elem_of_empty|done].
  - intros w Hw. by rewrite Hno in Hw.
  - intros pre Hp. cbn in Hp. apply prefix_nil_inv in Hp as ->.
    unfold liveAfter; cbn. rewrite size_empty. lia.
Qed.

(** C8: whatever activations, blocks of overlapping activations and
    change notifications have run, at no point of the log were two
    watches open; the log agrees with the watcher objects; an open
    watcher is the last one made; an attach block leaves no watcher open
    that existed before it; and a notification on any watcher but the
    last one made reaches no listener. *)
Theorem at_most_one_live_watch (inputs : list Input) (s : IState) :
  let st := run reduce inputs (initial s) in
  (∀ pre, pre `prefix_of` log st -> (size (liveAfter pre) ≤ 1)%nat) ∧
  (∀ w, w ∈ liveAfter (log st) ↔ isLive st w = true) ∧
  (∀ w, isLive st w = true -> fsWatcher st = Some w ∧ Datatypes.S w = length (watchers st)) ∧
  (∀ world profileId savesPath failed w,
     (w < length (watchers st))%nat ->
     isLive (input reduce st (Attach world profileId savesPath failed)) w = false) ∧
  (∀ w evt filename now,
     (Datatypes.S w < length (watchers st))%nat -> fsEvent w evt filename now st = st).
Proof.
  intros st.
  assert (Hinv : watchInv st) by apply run_inv, initial_inv.
  pose proof Hinv as (I1 & I2 & I3).
  split; [exact I3|]. split; [exact I1|]. split; [exact I2|]. split.
  - intros world profileId savesPath failed w Hw. cbn [input].
    destruct (closePrevious_inv (reportFailed failed st)) as [Hc Hno].
    { eapply quietStep_inv; [apply quiet_reportFailed|exact Hinv]. }
    set (st1 := closePrevious (reportFailed failed st)) in *.
    assert (Hlen : length (watchers st1) = length (watchers st)).
    { unfold st1, closePrevious, reportFailed.
      destruct (0 <? length failed)%nat; cbn [fsWatcher showErrorNotification record];
        destruct (fsWatcher st); cbn [closeWatcher watchers];
        by rewrite ?length_alter. }
    unfold attachWatch. destruct (watch world savesPath); [apply Hno|].
    unfold isLive; cbn [watchers]. rewrite lookup_app_l by lia. apply Hno.
  - intros w evt filename now Hw. unfold fsEvent.
    destruct (watchers st !! w) as [r|] eqn:Hr; [|reflexivity].
    destruct (closed r) eqn:Hc; [reflexivity|].
    assert (Hlive : isLive st w = true) by (unfold isLive; by rewrite Hr, Hc).
    destruct (I2 w Hlive) as [_ Hlast]. lia.
Qed.

End WatchFacts.

(** ** The debouncer *)

Section DebouncerFacts.
Context `{PathModule}.
Variable reduce : IState -> Action -> IState.

Lemma calls_cons (t : Z) (rest : list Z) (d : Debouncer.t) :
  Debouncer.calls (t :: rest) d =
    Debouncer.calls rest (Debouncer.schedule t (Debouncer.elapse t d)).
Proof. reflexivity. Qed.

Lemma last_cons (rest : list Z) (t1 t : Z) :
  List.last (t1 :: rest) t = List.last rest t1.
Proof.
  revert t1 t. induction rest as [|t2 rest IH]; intros t1 t; [reflexivity|].
  change (List.last (t1 :: t2 :: rest) t) with (List.last (t2 :: rest) t).
  by rewrite (IH t2 t), (IH t2 t1).
Qed.

Lemma calls_burst (rest : list Z) (t : Z) (d : Debouncer.t) :
  Debouncer.timer d = Some (t + Debouncer.debounceMS d) ->
  Debouncer.burst (Debouncer.debounceMS d) t rest ->
  Debouncer.timer (Debouncer.calls rest d) = Some (List.last rest t + Debouncer.debounceMS d) ∧
  Debouncer.runs (Debouncer.calls rest d) = Debouncer.runs d ∧
  Debouncer.debounceMS (Debouncer.calls rest d) = Debouncer.debounceMS d.
Proof.
  revert t d. induction rest as [|t1 rest IH]; intros t d Ht Hb.
  - by cbn.
  - destruct Hb as [[Hle Hlt] Hb]. rewrite calls_cons.
    assert (He : Debouncer.elapse t1 d = d).
    { unfold Debouncer.elapse. rewrite Ht.
      destruct (Z.leb_spec (t + Debouncer.debounceMS d) t1); [lia|done]. }
    rewrite He.
    destruct (IH t1 (Debouncer.schedule t1 d)) as (IH1 & IH2 & IH3); [done|done|].
    cbn [Debouncer.schedule Debouncer.debounceMS Debouncer.runs] in *.
    rewrite IH1, IH2, IH3. split; [|done].
    by rewrite last_cons.
Qed.

Lemma quietStep_debounced (st st' : AppState) :
  quietStep st st' -> allDebounced st -> allDebounced st'.
Proof. intros (_ & Hw & _). unfold allDebounced. by rewrite Hw. Qed.

Lemma attachBlock_debounced (world : World) (profileId savesPath : string)
    (failed : list string) (st : AppState) :
  allDebounced st ->
  allDebounced (attachWatch world profileId savesPath
                  (closePrevious (reportFailed failed st))).
Proof.
  intros Hd.
  assert (H1 : allDebounced (reportFailed failed st))
    by (eapply quietStep_debounced; [apply quiet_reportFailed|done]).
  assert (H2 : allDebounced (closePrevious (reportFailed failed st))).
  { unfold closePrevious. destruct (fsWatcher _) as [w|]; [|done].
    unfold allDebounced, closeWatcher; cbn [watchers].
    apply Forall_alter; [done|]. by intros r _. }
  unfold attachWatch. destruct (watch world savesPath).
  - eapply quietStep_debounced; [apply quiet_notify|done].
  - unfold allDebounced; cbn [watchers]. apply Forall_app. split; [done|].
    by repeat constructor.
Qed.

Lemma input_debounced (st : AppState) (i : Input) :
  allDebounced st -> allDebounced (input reduce st i).
Proof.
  intros Hd. destruct i; cbn [input].
  - destruct (profileDidChange_steps reduce world profileId st)
      as [Hq|(mid & savesPath & failed & Hq & ->)].
    + by eapply quietStep_debounced.
    + apply attachBlock_debounced. by eapply quietStep_debounced.
  - eapply quietStep_debounced; [apply quiet_updateSaveSettings|done].
  - eapply quietStep_debounced; [apply quiet_updateSaves|done].
  - by apply attachBlock_debounced.
  - unfold fsEvent. destruct (watchers st !! w) as [r|] eqn:Hr; [|done].
    destruct (closed r); [done|].
    unfold allDebounced; cbn [watchers]. apply Forall_insert; [done|].
    cbn. eapply (Forall_lookup_1 _ _ _ _ Hd Hr).
Qed.

Lemma run_debounced (inputs : list Input) (st : AppState) :
  allDebounced st -> allDebounced (run reduce inputs st).
Proof.
  unfold run. revert st.
  induction inputs as [|i inputs IH]; intros st Hd; cbn [fold_left]; [done|].
  by apply IH, input_debounced.
Qed.

(** C9: every listener the extension hands to [fs.watch] is bound to a
    debouncer with a quiet period of 1000 ms, and it calls [schedule] on
    it for every notification, whatever the event type and the file name;
    after a burst of calls, each less than 1000 ms after the one before,
    the action has run once more if 1000 ms have passed since the last
    call, and not at all before. *)
Theorem burst_runs_action_once (inputs : list Input) (s : IState) (w : nat) (r : Watcher)
    (d : Debouncer.t) (t0 : Z) (rest : list Z) (horizon : Z) :
  let st := run reduce inputs (initial s) in
  watchers st !! w = Some r ->
  Debouncer.debounceMS d = 1000 ->
  Debouncer.timer d = None ->
  Debouncer.burst 1000 t0 rest ->
  Debouncer.debounceMS (update r) = 1000 ∧
  (closed r = false ->
   ∀ evt filename now,
     watchers (fsEvent w evt filename now st) !! w =
       Some {| watchedPath := watchedPath r; boundProfile := boundProfile r;
               update := Debouncer.schedule now (update r); closed := false |}) ∧
  Debouncer.runs (Debouncer.elapse horizon (Debouncer.calls (t0 :: rest) d)) =
    Debouncer.runs d ++
    (if List.last rest t0 + 1000 <=? horizon then [List.last rest t0 + 1000] else []).
Proof.
  intros st Hr Hq Ht Hb. split; [|split].
  - assert (Hd : allDebounced st) by (apply run_debounced; constructor).
    eapply (Forall_lookup_1 _ _ _ _ Hd Hr).
  - intros Hc evt filename now. unfold fsEvent. rewrite Hr, Hc; cbn [watchers].
    by rewrite list_lookup_insert_eq by (by eapply lookup_lt_Some).
  - rewrite calls_cons.
    assert (He : Debouncer.elapse t0 d = d) by (unfold Debouncer.elapse; by rewrite Ht).
    rewrite He.
    destruct (calls_burst rest t0 (Debouncer.schedule t0 d)) as (H1 & H2 & H3).
    { cbn. by rewrite Hq. }
    { cbn. by rewrite Hq. }
    cbn [Debouncer.schedule Debouncer.debounceMS Debouncer.runs] in H1, H2, H3.
    unfold Debouncer.elapse. rewrite H1, Hq.
    destruct (List.last rest t0 + 1000 <=? horizon); cbn [Debouncer.runs];
      rewrite H2; by rewrite ?app_nil_r.
Qed.

End DebouncerFacts.

(** ** The properties at work on the sample world *)

Import Sample.

Lemma busy_file_retried_once_witness :
  listing files savesDir = Resolved listed ∧
  filter (fun n => isSavegame n = true) listed =
    ["save1.ess"; "save2.ESS"] ++ "busy.fos" :: ["locked.fos"] ∧
  decode files busyPath FirstTry = Rejected busy ∧
  errCode busy = Some "EBUSY" ∧
  scanned = eachAll files keepId savesDir ["locked.fos"] afterBusy ∧
  (∃ first second,
     events afterBusy = events beforeBusy ++ first ++ SDelay 500 :: second ∧
     creates first = [busyPath] ∧ delays first = [] ∧
     creates second = [busyPath] ∧ delays second = []) ∧
  match decode files busyPath Retry with
  | Resolved sg =>
    cbState afterBusy = keepId (makeSave busyPath sg) (cbState beforeBusy) ∧
    failedReads scanned =
      flat_map (failureLine files savesDir) ["save1.ess"; "save2.ESS"] ++
      flat_map (failureLine files savesDir) ["locked.fos"]
  | Rejected err2 =>
    cbState afterBusy = cbState beforeBusy ∧
    failedReads scanned =
      flat_map (failureLine files savesDir) ["save1.ess"; "save2.ESS"] ++
      ["busy.fos" +:+ " - " +:+ errMessage err2] ++
      flat_map (failureLine files savesDir) ["locked.fos"]
  end.
Proof.
  split; [vm_compute; reflexivity|]. split; [vm_compute; reflexivity|].
  split; [vm_compute; reflexivity|]. split; [reflexivity|].
  apply (busy_file_retried_once files keepId savesDir [] listed
           ["save1.ess"; "save2.ESS"] ["locked.fos"] "busy.fos" busy);
    vm_compute; reflexivity.
Defined.

Lemma failures_recorded_scan_goes_on_witness :
  listing files savesDir = Resolved listed ∧
  ∃ scan,
    refreshSavegames files keepId savesDir [] = (Resolved (failedReads scan), scan) ∧
    failedReads scan =
      flat_map (failureLine files savesDir) (filter (fun n => isSavegame n = true) listed) ∧
    (∀ n, n ∈ filter (fun n => isSavegame n = true) listed ->
          join [savesDir; n] ∈ creates (events scan)) ∧
    (∀ pre n post err,
       filter (fun n => isSavegame n = true) listed = pre ++ n :: post ->
       settle files (join [savesDir; n]) = Rejected err ->
       failedReads scan =
         flat_map (failureLine files savesDir) pre ++
         [n +:+ " - " +:+ errMessage err] ++
         flat_map (failureLine files savesDir) post).
Proof.
  split; [vm_compute; reflexivity|].
  apply (failures_recorded_scan_goes_on files keepId savesDir [] listed).
  vm_compute; reflexivity.
Defined.

Lemma missing_directory_is_empty_witness :
  readdirAsync (scanEnv home) "/nowhere" = Rejected missing ∧
  (errCode missing = Some "ENOENT" ->
     (∀ S (onAddSavegame : ISavegame -> S -> S) (s0 : S),
        refreshSavegames (scanEnv home) onAddSavegame "/nowhere" s0 =
          (Resolved [], scanStart "/nowhere" s0)) ∧
     newRecords home "/nowhere" (store boot) = [] ∧
     updateSaves sessionReducer home "p1" "/nowhere" boot =
       (Resolved [],
        dispatch sessionReducer (SetSavegames ∅)
          (record [EvScan (SReaddir "/nowhere")] boot))) ∧
  (errCode missing ≠ Some "ENOENT" ->
     (∀ S (onAddSavegame : ISavegame -> S -> S) (s0 : S),
        refreshSavegames (scanEnv home) onAddSavegame "/nowhere" s0 =
          (Rejected missing, scanStart "/nowhere" s0)) ∧
     updateSaves sessionReducer home "p1" "/nowhere" boot =
       (Rejected missing, record [EvScan (SReaddir "/nowhere")] boot)).
Proof.
  split; [reflexivity|].
  apply (missing_directory_is_empty sessionReducer home "p1" "/nowhere" boot missing).
  reflexivity.
Defined.

Lemma scan_decodes_saves_only_witness :
  readdirAsync files savesDir = Resolved listed ∧
  (∀ p, p ∈ creates (events (snd (refreshSavegames files keepId savesDir []))) ↔
        ∃ name, name ∈ listed ∧ extname name ∈ anyCase ∧ p = join [savesDir; name]) ∧
  ((∀ name, name ∈ listed -> ¬ extname name ∈ anyCase) ->
   refreshSavegames files keepId savesDir [] = (Resolved [], scanStart savesDir [])).
Proof.
  split; [reflexivity|].
  apply (scan_decodes_saves_only files keepId savesDir [] listed).
  reflexivity.
Defined.

(** The save with the upper-case extension is decoded, the text file is
    not; and a directory with other files only gives nothing. *)
Example mixed_case_is_decoded :
  creates (events scanned) =
    [savesDir +:+ "save1.ess"; savesDir +:+ "save2.ESS";
     savesDir +:+ "busy.fos"; savesDir +:+ "busy.fos";
     savesDir +:+ "locked.fos"; savesDir +:+ "locked.fos"] ∧
  extname "save2.ESS" = ".ESS" ∧ extname "notes.txt" = ".txt" ∧
  refreshSavegames others keepId "/other" [] = (Resolved [], scanStart "/other" []).
Proof. repeat split; vm_compute; reflexivity. Qed.

(** On POSIX a plain name [stem.ext] is a candidate exactly when [.ext] is
    one of the sixteen spellings. *)
Corollary posix_candidates (stem ext : string) :
  component stem -> suffixName ext ->
  isSavegame (H := posix) (stem +:+ "." +:+ ext) = true ↔ "." +:+ ext ∈ anyCase.
Proof.
  intros Hstem Hext. rewrite isSavegame_anyCase. cbn [extname posix].
  pose proof (PosixFacts.extname_file "" stem ext (or_introl eq_refl) Hstem Hext) as He.
  change ("" +:+ stem +:+ "." +:+ ext) with (stem +:+ "." +:+ ext) in He.
  by rewrite He.
Qed.

(** On POSIX the id of a record is the name of the directory entry. *)
Corollary posix_id (dir name : string) (sg : LibSave) :
  directory dir -> component name ->
  id (makeSave (H := posix) (dir +:+ name) sg) = name.
Proof. intros Hdir Hname. cbn. by apply PosixFacts.basename_file. Qed.

Lemma decoded_file_is_new_iff_unknown_witness :
  listing files savesDir = Resolved listed ∧
  filter (fun n => isSavegame n = true) listed =
    ["save1.ess"; "save2.ESS"] ++ "busy.fos" :: ["locked.fos"] ∧
  settle files (join [savesDir; "busy.fos"]) = Resolved dova ∧
  scannedLive = eachAll files (collectLive clearing) savesDir ["locked.fos"] afterBusyLive ∧
  cbState afterBusyLive = collectLive clearing busySave (cbState beforeBusyLive) ∧
  filePath busySave = join [savesDir; "busy.fos"] ∧
  id busySave = basename (join [savesDir; "busy.fos"]) ∧
  seen (cbState afterBusyLive) =
    atCallback clearing (join [savesDir; "busy.fos"]) (seen (cbState beforeBusyLive)) ∧
  newSavegames (cbState afterBusyLive) =
    newSavegames (cbState beforeBusyLive) ++
    match saves (atCallback clearing (join [savesDir; "busy.fos"])
                   (seen (cbState beforeBusyLive))) !! id busySave with
    | None => [busySave]
    | Some _ => []
    end ∧
  (∃ later, newSavegames (cbState scannedLive) =
              newSavegames (cbState afterBusyLive) ++ later) ∧
  (∀ r, r ∈ newSavegames (cbState scannedLive) ->
        ∃ n, n ∈ listed ∧ filePath r = join [savesDir; n] ∧
             id r = basename (join [savesDir; n])) ∧
  failedReads scannedLive =
    flat_map (failureLine files savesDir) ["save1.ess"; "save2.ESS"] ++
    flat_map (failureLine files savesDir) ["locked.fos"].
Proof.
  split; [vm_compute; reflexivity|]. split; [vm_compute; reflexivity|].
  split; [vm_compute; reflexivity|].
  apply (decoded_file_is_new_iff_unknown files clearing savesDir busyKnown listed
           ["save1.ess"; "save2.ESS"] ["locked.fos"] "busy.fos" dova);
    vm_compute; reflexivity.
Defined.

(** The store is read when the callback runs, not when the scan starts:
    [busy.fos] is in the store at the start, another chain clears the store
    while the scan waits for the file, and the record is new; with no
    other chain in between it is not.  [save1.ess], unknown all along, is
    new in both runs. *)
Example store_is_read_at_the_callback :
  is_Some (saves busyKnown !! "busy.fos") ∧
  id busySave = "busy.fos" ∧ id save1 = "save1.ess" ∧
  newSavegames (cbState scannedLive) = [save1; busySave] ∧
  newSavegames
    (cbState (snd (refreshSavegames files (collectLive alone) savesDir
                     {| seen := busyKnown; newSavegames := [] |}))) = [save1].
Proof. split; [by eexists|]. repeat split; vm_compute; reflexivity. Qed.

Lemma sessionReducer_merges (s : IState) (d : gmap string ISavegame) (i : string) :
  is_Some (saves s !! i) ∨ is_Some (d !! i) ->
  is_Some (saves (sessionReducer s (SetSavegames d)) !! i).
Proof. intros Hi. cbn. by apply lookup_union_is_Some. Defined.

Lemma second_scan_finds_nothing_new_witness :
  (∀ s d i, is_Some (saves s !! i) ∨ is_Some (d !! i) ->
            is_Some (saves (sessionReducer s (SetSavegames d)) !! i)) ∧
  updateSaves sessionReducer home "p1" savesDir boot = (Resolved failedLines, merged) ∧
  newRecords home savesDir (store merged) = [] ∧
  ∃ evs,
    updateSaves sessionReducer home "p1" savesDir merged =
      (Resolved failedLines, dispatch sessionReducer (SetSavegames ∅) (record evs merged)).
Proof.
  split; [exact sessionReducer_merges|]. split; [vm_compute; reflexivity|].
  apply (second_scan_finds_nothing_new sessionReducer home "p1" savesDir boot merged
           failedLines sessionReducer_merges).
  vm_compute; reflexivity.
Defined.

Lemma unknown_profile_is_noop_witness :
  profiles (store boot) !! "ghost" = None ∧
  profileDidChange sessionReducer home "ghost" boot = boot ∧
  updateSaveSettings sessionReducer home "ghost" boot =
    (Rejected (processCanceled "no current profile"), boot).
Proof.
  split; [reflexivity|].
  apply (unknown_profile_is_noop sessionReducer home "ghost" boot). reflexivity.
Defined.

Lemma burst_runs_action_once_witness :
  watchers watching !! 0%nat = Some firstWatcher ∧
  Debouncer.debounceMS (Debouncer.make 1000) = 1000 ∧
  Debouncer.timer (Debouncer.make 1000) = None ∧
  Debouncer.burst 1000 0 [300; 900; 1500] ∧
  Debouncer.debounceMS (update firstWatcher) = 1000 ∧
  (closed firstWatcher = false ->
   ∀ evt filename now,
     watchers (fsEvent 0 evt filename now watching) !! 0%nat =
       Some {| watchedPath := watchedPath firstWatcher;
               boundProfile := boundProfile firstWatcher;
               update := Debouncer.schedule now (update firstWatcher);
               closed := false |}) ∧
  Debouncer.runs
    (Debouncer.elapse 3000 (Debouncer.calls (0 :: [300; 900; 1500]) (Debouncer.make 1000))) =
    Debouncer.runs (Debouncer.make 1000) ++
    (if List.last [300; 900; 1500] 0 + 1000 <=? 3000
     then [List.last [300; 900; 1500] 0 + 1000] else []).
Proof.
  split; [vm_compute; reflexivity|]. split; [reflexivity|]. split; [reflexivity|].
  split; [cbn; lia|].
  apply (burst_runs_action_once sessionReducer [Activate home "p1"] state 0%nat
           firstWatcher (Debouncer.make 1000) 0 [300; 900; 1500] 3000);
    [vm_compute; reflexivity|reflexivity|reflexivity|cbn; lia].
Defined.

(** The scenario of the specification: one save that decodes, one that
    does not, one file that is not a save. *)
Example scenario :
  refreshSavegames
    {| readdirAsync d := Resolved ["save1.ess"; "save2.ess"; "notes.txt"];
       create p a := if String.eqb p "/saves/save1.ess" then Decoded dova
                     else CallbackError (error None "bad header");
       openAsync p a := None |}
    keepId "/saves" [] =
  (Resolved ["save2.ess - bad header"],
   {| failedReads := ["save2.ess - bad header"];
      events := [SReaddir "/saves"; SCreate "/saves/save1.ess"; SCreate "/saves/save2.ess";
                 SLogWarn "Failed to parse savegame" "/saves/save2.ess" "bad header"];
      cbState := ["save1.ess"] |}).
Proof. vm_compute. reflexivity. Qed.

(** A second activation closes the watch of the first before it opens
    its own. *)
Example watch_replaced :
  filter (fun e => ¬ quiet e) (log switched) =
    [EvWatchOpen 0 savesDir; EvWatchClose 0; EvWatchOpen 1 savesDir] ∧
  live switched = [1%nat] ∧
  fsWatcher switched = Some 1%nat.
Proof. vm_compute. auto. Qed.

(** A listing error other than a missing directory rejects the scan. *)
Example listing_error_rejects :
  refreshSavegames forbidden keepId "/root" [] =
    (Rejected (error (Some "EACCES") "permission denied"), scanStart "/root" []).
Proof. reflexivity. Qed.

(** The [path] functions of the POSIX runtime on some file names. *)
Example extname_examples :
  extname "Save 1.ess" = ".ess" ∧ extname "quick.FOS" = ".FOS" ∧
  extname ".ess" = "" ∧ extname "a.ess.bak" = ".bak" ∧ extname "dir.ess/file" = "" ∧
  extname "archive." = "." ∧ extname ".." = "".
Proof. repeat split; reflexivity. Qed.

Example basename_examples :
  basename "/saves/Save 1.ess" = "Save 1.ess" ∧ basename "Save 1.ess/" = "Save 1.ess" ∧
  basenameExt "/saves/Save 1.ess" ".ess" = "Save 1" ∧
  basenameExt "/saves/.ess" ".ess" = ".ess" ∧
  basenameExt "plain" "" = "plain".
Proof. repeat split; reflexivity. Qed.

Example join_examples :
  join ["/docs"; "My Games"; "Skyrim VR"] = "/docs/My Games/Skyrim VR" ∧
  join ["Saves"; "p1"] = "Saves/p1" ∧
  join ["/saves/"; "quick.ess"] = "/saves/quick.ess" ∧
  join ["a"; "../../b/"] = "../b/" ∧ join [""; ""] = ".".
Proof. repeat split; reflexivity. Qed.

Example saveFiles_examples :
  GameSupport.saveFiles "skyrimse" "/saves/Save 1.ess" =
    Some ["/saves/Save 1.ess"; "Save 1.skse"] ∧
  GameSupport.saveFiles "oblivion" "autosave.ess" = Some ["autosave.ess"; "autosave.obse"] ∧
  GameSupport.saveFiles "morrowind" "autosave.ess" = None.
Proof. repeat split; reflexivity. Qed.

(** The names every object inherits pass [gameSupported]; of the
    accessors only [prefIniPath] returns on them. *)
Example inherited_names :
  GameSupport.gameSupported "toString" = true ∧
  GameSupport.gameSupported "__proto__" = true ∧
  GameSupport.gameSupported "morrowind" = false ∧
  GameSupport.prefIniPath "/docs" "toString" = Some None ∧
  GameSupport.mygamesPath "/docs" "toString" = None ∧
  GameSupport.iniPath "/docs" "toString" = None ∧
  GameSupport.prefIniPath "/docs" "oblivion" = Some None ∧
  GameSupport.prefIniPath "/docs" "fallout4" =
    Some (Some "/docs/My Games/Fallout4/Fallout4Prefs.ini").
Proof. repeat split; reflexivity. Qed.

(** * Further properties *)

Import Trace.

(** ** More on the scan *)

Section MoreScanFacts.
Context `{PathModule} {S : Type}.
Variable env : ScanEnv.
Variable onAddSavegame : ISavegame -> S -> S.

Lemma opens_app (a b : list ScanEvent) : opens (a ++ b) = opens a ++ opens b.
Proof. apply omap_app. Qed.

Lemma scan_listed (savesPath : string) (s0 : S) (names : list string) :
  listing env savesPath = Resolved names ->
  snd (refreshSavegames env onAddSavegame savesPath s0) =
    eachAll env onAddSavegame savesPath (filter (fun n => isSavegame n = true) names)
      (scanStart savesPath s0).
Proof. intros Hl. by rewrite (refreshSavegames_listed env onAddSavegame _ _ _ Hl). Qed.

(** X1: a candidate whose first decode fails with anything but [EBUSY] is
    decoded that one time only, without a delay; the callback is not
    called for it and the failure list of the scan has its one line, with
    the message of that first error. *)
Theorem other_failure_not_retried (savesPath : string) (s0 : S)
    (names pre post : list string) (name : string) (err : JsError) :
  let p := join [savesPath; name] in
  let st := eachAll env onAddSavegame savesPath pre (scanStart savesPath s0) in
  let st' := eachSavegame env onAddSavegame savesPath st name in
  let scan := snd (refreshSavegames env onAddSavegame savesPath s0) in
  listing env savesPath = Resolved names ->
  filter (fun n => isSavegame n = true) names = pre ++ name :: post ->
  decode env p FirstTry = Rejected err ->
  errCode err ≠ Some "EBUSY" ->
  (∃ evs, events st' = events st ++ evs ∧ creates evs = [p] ∧ delays evs = []) ∧
  cbState st' = cbState st ∧
  failedReads scan =
    flat_map (failureLine env savesPath) pre ++
    [name +:+ " - " +:+ errMessage err] ++
    flat_map (failureLine env savesPath) post.
Proof.
  intros p st st' scan Hl Hc Hfirst Hcode.
  assert (Hsettle : settle env p = Rejected err).
  { unfold settle. by rewrite Hfirst, bool_decide_eq_false_2. }
  split; [|split].
  - subst st'. rewrite eachSavegame_effect; cbn [events].
    exists (fileEvents env savesPath name). split; [reflexivity|].
    pose proof (creates_fileEvents_eq env savesPath name) as Hcr.
    pose proof (delays_fileEvents_eq env savesPath name) as Hde.
    cbv zeta in Hcr, Hde. fold p in Hcr, Hde.
    rewrite Hfirst, bool_decide_eq_false_2 in Hcr, Hde by done. by split.
  - subst st'. rewrite eachSavegame_effect; cbn [cbState].
    unfold loaded. fold p. by rewrite Hsettle.
  - subst scan. rewrite (scan_listed _ _ _ Hl), Hc, eachAll_effect.
    cbn [failedReads scanStart app]. rewrite flat_map_app; cbn [flat_map].
    unfold failureLine at 2. fold p. by rewrite Hsettle.
Qed.

Lemma file_cost (savesPath name : string) :
  let p := join [savesPath; name] in
  let evs := fileEvents env savesPath name in
  delays evs = (if busyFirst env p then [500] else []) ∧
  length (creates evs) = (1 + length (delays evs))%nat ∧
  (length (opens evs) ≤ length (creates evs))%nat.
Proof.
  intros p evs.
  pose proof (creates_fileEvents_eq env savesPath name) as Hcr.
  pose proof (delays_fileEvents_eq env savesPath name) as Hde.
  cbv zeta in Hcr, Hde. fold p evs in Hcr, Hde.
  assert (Hop : ∀ att, (length (opens (attemptEvents env p att)) ≤ 1)%nat).
  { intros att. unfold attemptEvents, opens; cbn [omap].
    destruct (create env p att) as [sg|e|e]; cbn; try lia.
    destruct (Js.startsWith _ _); cbn; lia. }
  assert (Hopen : (length (opens evs) ≤ length (creates evs))%nat).
  { rewrite Hcr. subst evs. unfold fileEvents; cbv zeta. fold p.
    rewrite !opens_app, !length_app.
    assert (length (opens (match settle env p with
                           | Resolved _ => []
                           | Rejected e =>
                             [SLogWarn "Failed to parse savegame" p (errMessage e)]
                           end)) = 0%nat) as -> by (by destruct (settle env p)).
    pose proof (Hop FirstTry) as H1. pose proof (Hop Retry) as H2.
    destruct (decode env p FirstTry) as [sg|e];
      [change (opens []) with (@nil string); cbn [length]; lia|].
    destruct (bool_decide (errCode e = Some "EBUSY"));
      [|change (opens []) with (@nil string); cbn [length]; lia].
    change (opens (SDelay 500 :: attemptEvents env p Retry))
      with (opens (attemptEvents env p Retry)). cbn [length]. lia. }
  unfold busyFirst. rewrite Hcr in Hopen |- *. rewrite Hde.
  destruct (decode env p FirstTry) as [sg|e];
    [|destruct (bool_decide (errCode e = Some "EBUSY"))];
    (split; [reflexivity|split; [reflexivity|exact Hopen]]).
Qed.

(** X2: what a scan costs.  Every backoff is one of 500 ms, there is one
    for each candidate that is busy at the first decode and none else,
    the decoder is called once per candidate plus once per backoff (so at
    most twice per candidate), and the open probe is used at most once per
    decoder call. *)
Theorem scan_cost (savesPath : string) (s0 : S) (names : list string) :
  listing env savesPath = Resolved names ->
  let candidates := filter (fun n => isSavegame n = true) names in
  let evs := events (snd (refreshSavegames env onAddSavegame savesPath s0)) in
  Forall (fun ms => ms = 500) (delays evs) ∧
  length (delays evs) =
    length (filter (fun n => busyFirst env (join [savesPath; n]) = true) candidates) ∧
  length (creates evs) = (length candidates + length (delays evs))%nat ∧
  (length (creates evs) ≤ 2 * length candidates)%nat ∧
  (length (opens evs) ≤ length (creates evs))%nat.
Proof.
  intros Hl candidates evs. subst evs. rewrite (scan_listed _ _ _ Hl). fold candidates.
  rewrite eachAll_effect; cbn [events scanStart].
  rewrite creates_app, delays_app, opens_app.
  change (creates [SReaddir savesPath]) with (@nil string).
  change (delays [SReaddir savesPath]) with (@nil Z).
  change (opens [SReaddir savesPath]) with (@nil string). cbn [app].
  induction candidates as [|n l IH]; cbn [flat_map].
  { repeat split; cbn; try lia. constructor. }
  destruct IH as (IH1 & IH2 & IH3 & IH4 & IH5).
  destruct (file_cost savesPath n) as (F1 & F2 & F3). cbv zeta in F1, F2, F3.
  rewrite creates_app, delays_app, opens_app, !length_app, filter_cons.
  rewrite IH2 in *. rewrite F1 in *.
  destruct (busyFirst env (join [savesPath; n])) eqn:Hb.
  - rewrite decide_True by done. cbn [length app] in *.
    repeat split; try lia. constructor; [reflexivity|exact IH1].
  - rewrite decide_False by done. cbn [length app] in *.
    repeat split; try lia. exact IH1.
Qed.

Lemma one_outcome (savesPath name : string) :
  (length (failureLine env savesPath name) + length (loaded env savesPath name) = 1)%nat.
Proof. unfold failureLine, loaded. by destruct (settle env _). Qed.

(** X3: every candidate ends in exactly one of two ways.  The records
    handed to the callback and the lines of the failure list together are
    as many as the candidates; the records come in the order of the
    listing, each for its own candidate; and each carries its file name as
    id and is marked toggleable. *)
Theorem every_candidate_accounted (savesPath : string) (s0 : S) (names : list string) :
  listing env savesPath = Resolved names ->
  let candidates := filter (fun n => isSavegame n = true) names in
  let scan := snd (refreshSavegames env onAddSavegame savesPath s0) in
  ∃ records,
    cbState scan = fold_left (fun s r => onAddSavegame r s) records s0 ∧
    (length (failedReads scan) + length records = length candidates)%nat ∧
    (filePath <$> records) `sublist_of` ((fun n => join [savesPath; n]) <$> candidates) ∧
    Forall (fun r => id r = basename (filePath r) ∧ wellFormed r) records.
Proof.
  intros Hl candidates scan. subst scan. rewrite (scan_listed _ _ _ Hl). fold candidates.
  rewrite eachAll_effect; cbn [cbState failedReads scanStart app].
  exists (flat_map (loaded env savesPath) candidates). split; [reflexivity|].
  induction candidates as [|n l (IH1 & IH2 & IH3)]; cbn [flat_map].
  { repeat split; [apply sublist_nil|constructor]. }
  pose proof (one_outcome savesPath n) as Hone.
  rewrite !length_app, fmap_app, fmap_cons. split; [cbn [length]; lia|].
  unfold loaded in *. destruct (settle env (join [savesPath; n])) as [sg|e]; cbn [app fmap].
  - split; [cbn; by apply sublist_skip|]. apply Forall_cons. by repeat split.
  - split; [by apply sublist_cons|]. exact IH3.
Qed.

Lemma opens_fileEvents (savesPath name q : string) :
  q ∈ opens (fileEvents env savesPath name) ->
  q = join [savesPath; name] ∧
  ∃ att err, create env q att = Throws err ∧
             Js.startsWith (errMessage err) "failed to open" = true.
Proof.
  unfold fileEvents; cbv zeta. set (p := join [savesPath; name]).
  assert (Hat : ∀ att, q ∈ opens (attemptEvents env p att) ->
                q = p ∧ ∃ att err, create env q att = Throws err ∧
                                   Js.startsWith (errMessage err) "failed to open" = true).
  { intros att. unfold attemptEvents, opens; cbn [omap].
    destruct (create env p att) as [sg|e|e] eqn:Hc; cbn;
      try (by intros ?%elem_of_nil).
    destruct (Js.startsWith (errMessage e) "failed to open") eqn:Hs; cbn;
      [|by intros ?%elem_of_nil].
    intros ->%list_elem_of_singleton. split; [done|]. by exists att, e. }
  rewrite !opens_app, !elem_of_app. intros [Hq|[Hq|Hq]].
  - by eapply Hat.
  - destruct (decode env p FirstTry) as [sg|e]; [by apply elem_of_nil in Hq|].
    destruct (bool_decide (errCode e = Some "EBUSY")); [|by apply elem_of_nil in Hq].
    by eapply (Hat Retry).
  - destruct (settle env p); by apply elem_of_nil in Hq.
Qed.

(** X4: the open probe is used on a file only after the decoder has
    thrown on that file an error whose message starts with
    [failed to open]; a scan in which the decoder always calls back
    probes nothing. *)
Theorem probe_only_after_throw (savesPath : string) (s0 : S) (names : list string) :
  listing env savesPath = Resolved names ->
  let scan := snd (refreshSavegames env onAddSavegame savesPath s0) in
  (∀ q, q ∈ opens (events scan) ->
     ∃ name att err,
       name ∈ names ∧ isSavegame name = true ∧ q = join [savesPath; name] ∧
       create env q att = Throws err ∧
       Js.startsWith (errMessage err) "failed to open" = true) ∧
  ((∀ q att err, create env q att ≠ Throws err) -> opens (events scan) = []).
Proof.
  intros Hl scan.
  assert (Hopens : ∀ q, q ∈ opens (events scan) ->
            ∃ name att err,
              name ∈ names ∧ isSavegame name = true ∧ q = join [savesPath; name] ∧
              create env q att = Throws err ∧
              Js.startsWith (errMessage err) "failed to open" = true).
  { intros q. subst scan. rewrite (scan_listed _ _ _ Hl).
    rewrite eachAll_effect; cbn [events scanStart]. rewrite opens_app.
    change (opens [SReaddir savesPath]) with (@nil string). cbn [app].
    assert (Hsub : ∀ k, k ⊆ filter (fun n => isSavegame n = true) names ->
              q ∈ opens (flat_map (fileEvents env savesPath) k) ->
              ∃ name att err,
                name ∈ names ∧ isSavegame name = true ∧ q = join [savesPath; name] ∧
                create env q att = Throws err ∧
                Js.startsWith (errMessage err) "failed to open" = true).
    { induction k as [|m k IHk]; cbn [flat_map]; [by intros _ ?%elem_of_nil|].
      intros Hk. rewrite opens_app, elem_of_app. intros [Hq|Hq].
      - apply opens_fileEvents in Hq as (-> & att & e & Hc & Hs).
        assert (Hm : m ∈ filter (fun n => isSavegame n = true) names)
          by (apply Hk, elem_of_cons; by left).
        apply list_elem_of_filter in Hm as [Hsave Hm]. by exists m, att, e.
      - apply IHk; [|done]. intros x Hx. apply Hk, elem_of_cons. by right. }
    by apply Hsub. }
  split; [exact Hopens|]. intros Hnever.
  apply elem_of_nil_inv. intros q Hq.
  destruct (Hopens q Hq) as (name & att & e & _ & _ & _ & Hc & _). by eapply Hnever.
Qed.

End MoreScanFacts.

(** ** More on the table of games *)

Section MoreGameSupportFacts.
Context `{PathModule}.

Lemma inherited_is_no_entry (gameMode : string) :
  gameMode ∈ GameSupport.objectPrototype -> GameSupport.gameSupport !! gameMode = None.
Proof.
  intros Hin. unfold GameSupport.objectPrototype in Hin.
  repeat (apply elem_of_cons in Hin as [->|Hin]; [reflexivity|]).
  by apply elem_of_nil in Hin.
Qed.

(** X6: [gameSupported] is not the exact guard of the other functions of
    the table.  [mygamesPath], [iniPath] and [saveFiles] return on the
    games with an entry of their own and throw on every other name;
    [gameSupported] is true on these games and also on the names the table
    inherits from [Object.prototype]; [prefIniPath] returns wherever
    [gameSupported] is true, with [undefined] on the inherited names. *)
Theorem accessors_defined_on_own_entries (documents gameMode savePath : string) :
  (is_Some (GameSupport.gameSupport !! gameMode) ↔
     is_Some (GameSupport.mygamesPath documents gameMode)) ∧
  (is_Some (GameSupport.gameSupport !! gameMode) ↔
     is_Some (GameSupport.iniPath documents gameMode)) ∧
  (is_Some (GameSupport.gameSupport !! gameMode) ↔
     is_Some (GameSupport.saveFiles gameMode savePath)) ∧
  (GameSupport.gameSupported gameMode = true ↔
     is_Some (GameSupport.gameSupport !! gameMode) ∨
     gameMode ∈ GameSupport.objectPrototype) ∧
  (GameSupport.gameSupported gameMode = true ↔
     is_Some (GameSupport.prefIniPath documents gameMode)) ∧
  (gameMode ∈ GameSupport.objectPrototype ->
     GameSupport.gameSupport !! gameMode = None ∧
     GameSupport.prefIniPath documents gameMode = Some None).
Proof.
  unfold GameSupport.gameSupported, GameSupport.iniPath, GameSupport.prefIniPath,
    GameSupport.mygamesPath, GameSupport.saveFiles.
  pose proof (inherited_is_no_entry gameMode) as Hno.
  destruct (member_cases gameMode) as [(g & Hg & ->)|[(Hg & Hin & ->)|(Hg & Hout & ->)]];
    rewrite Hg in *; cbn.
  - assert (Hnot : ¬ gameMode ∈ GameSupport.objectPrototype)
      by (intros Hin; by specialize (Hno Hin)).
    destruct (GameSupport.prefIniName g); cbn; split_and!; try done;
      (split; [intros _; by left|done]).
  - split_and!; try done; try (split; by intros [? ?]).
    split; [by right|done].
  - split_and!; try done; try (split; by intros [? ?]).
    split; [done|]. by intros [[? ?]|?].
Qed.

End MoreGameSupportFacts.

(** ** More on the synchroniser *)

Section MoreSyncFacts.
Context `{PathModule}.
Variable reduce : IState -> Action -> IState.

Lemma toDict_snoc (l : list ISavegame) (r : ISavegame) :
  toDict (l ++ [r]) = <[id r := r]> (toDict l).
Proof. unfold toDict. by rewrite fold_left_app. Qed.

Lemma toDict_lookup (l : list ISavegame) (i : string) :
  toDict l !! i = last (filter (fun r => id r = i) l).
Proof.
  induction l as [|r l IH] using rev_ind; [reflexivity|].
  rewrite toDict_snoc, filter_app, filter_cons, filter_nil.
  destruct (decide (id r = i)) as [Hi|Hi].
  - rewrite last_snoc, Hi. apply lookup_insert_eq.
  - rewrite app_nil_r, lookup_insert_ne by done. exact IH.
Qed.

(** X7: the dictionary built from the new records holds, under each id, the
    last record of the list with that id, and nothing under an id no
    record has; when the ids of the records are all different, every
    record is found under its id and the dictionary has as many entries
    as the list. *)
Theorem toDict_last_wins (l : list ISavegame) :
  (∀ i, toDict l !! i = last (filter (fun r => id r = i) l)) ∧
  (NoDup (id <$> l) ->
   (∀ r, r ∈ l -> toDict l !! id r = Some r) ∧ size (toDict l) = length l).
Proof.
  split; [apply toDict_lookup|].
  induction l as [|r l IH] using rev_ind; intros Hnd.
  { split; [by intros r ?%elem_of_nil|reflexivity]. }
  rewrite fmap_app in Hnd. apply NoDup_app in Hnd as (Hl & Hfresh & _).
  destruct (IH Hl) as [IHin IHsize].
  assert (Hnew : toDict l !! id r = None).
  { rewrite toDict_lookup. apply last_None, elem_of_nil_inv.
    intros r0 [Hid Hr0]%list_elem_of_filter.
    apply (Hfresh (id r)); [|cbn; apply elem_of_cons; by left].
    rewrite <- Hid. by apply list_elem_of_fmap_2. }
  rewrite toDict_snoc. split.
  - intros r0 [Hr0|Hr0]%elem_of_app.
    + rewrite lookup_insert_ne; [by apply IHin|].
      intros Heq. rewrite Heq, IHin in Hnew by done. discriminate.
    + apply list_elem_of_singleton in Hr0 as ->. apply lookup_insert_eq.
  - rewrite map_size_insert_None by done. rewrite length_app, IHsize; cbn. lia.
Qed.


Lemma loaded_wellFormed (env : ScanEnv) (savesPath : string) (names : list string)
    (r : ISavegame) :
  r ∈ flat_map (loaded env savesPath) names -> wellFormed r.
Proof.
  induction names as [|n names IH]; cbn [flat_map]; [by intros ?%elem_of_nil|].
  rewrite elem_of_app. intros [Hr|Hr]; [|by apply IH].
  unfold loaded in Hr. destruct (settle env _); [|by apply elem_of_nil in Hr].
  apply list_elem_of_singleton in Hr as ->. by split.
Qed.

Lemma fold_collect_alone (recs : list ISavegame) (c : Collect) :
  fold_left (fun s r => collectLive alone r s) recs c =
  fold_left (fun s r => collectNew r s) recs c.
Proof.
  revert c. induction recs as [|r recs IH]; intros c; [done|].
  cbn [fold_left]. by rewrite collectLive_alone.
Qed.

Lemma scan_alone (env : ScanEnv) (savesPath : string) (c : Collect) :
  refreshSavegames env (collectLive alone) savesPath c =
  refreshSavegames env collectNew savesPath c.
Proof.
  unfold refreshSavegames. destruct (listing env savesPath) as [names|err]; [|done].
  rewrite !eachAll_effect; cbn [failedReads]. by rewrite fold_collect_alone.
Qed.

Lemma scan_keeps_seen (env : ScanEnv) (savesPath : string) (c : Collect) :
  seen (cbState (snd (refreshSavegames env collectNew savesPath c))) = seen c.
Proof.
  unfold refreshSavegames. destruct (listing env savesPath) as [names|err]; [|done].
  cbn [snd]. rewrite eachAll_effect; cbn [cbState scanStart].
  by rewrite collectNew_fold.
Qed.

(** With no other chain in between, the live run is [updateSaves]. *)
Lemma updateSavesLive_alone (world : World) (profileId savesPath : string)
    (st : AppState) :
  updateSavesLive reduce world alone profileId savesPath st =
  updateSaves reduce world profileId savesPath st.
Proof.
  unfold updateSavesLive, updateSaves. rewrite scan_alone.
  pose proof (scan_keeps_seen (scanEnv world) savesPath
                {| seen := store st; newSavegames := [] |}) as Hseen.
  destruct (refreshSavegames _ _ _ _) as [r scan]. cbn [snd seen atDispatch alone] in *.
  rewrite Hseen. by destruct st.
Qed.

(** X8: when [updateSaves] resolves it has done one thing to the store,
    whatever the other chains did meanwhile: it has dispatched one batch,
    after the scan.  Each record of the batch is filed under its own id
    and comes from a candidate of the listing that decoded, and the store
    had no save under that id when the callback for it ran; the watch is
    not touched. *)
Theorem batch_has_unknown_ids_only (world : World) (chains : Chains)
    (profileId savesPath : string) (st st' : AppState) (failed : list string) :
  updateSavesLive reduce world chains profileId savesPath st = (Resolved failed, st') ->
  ∃ evs d s,
    log st' = log st ++ (EvScan <$> evs) ++ [EvDispatch (SetSavegames d)] ∧
    store st' = reduce s (SetSavegames d) ∧
    fsWatcher st' = fsWatcher st ∧ watchers st' = watchers st ∧
    ∀ i r, d !! i = Some r ->
      id r = i ∧ wellFormed r ∧
      ∃ names pre name post,
        listing (scanEnv world) savesPath = Resolved names ∧
        filter (fun n => isSavegame n = true) names = pre ++ name :: post ∧
        r ∈ loaded (scanEnv world) savesPath name ∧
        saves (atCallback chains (filePath r)
                 (seen (cbState
                    (eachAll (scanEnv world) (collectLive chains) savesPath pre
                       (scanStart savesPath
                          {| seen := store st; newSavegames := [] |})))))
          !! i = None.
Proof.
  intros Hu. unfold updateSavesLive in Hu.
  destruct (listing (scanEnv world) savesPath) as [names|err] eqn:Hl.
  2:{ unfold refreshSavegames in Hu. by rewrite Hl in Hu. }
  rewrite (refreshSavegames_listed _ _ _ _ _ Hl) in Hu. cbv zeta in Hu.
  injection Hu as <- <-.
  set (start := scanStart savesPath {| seen := store st; newSavegames := [] |}).
  set (scan := eachAll (scanEnv world) (collectLive chains) savesPath _ start).
  exists (events scan), (toDict (newSavegames (cbState scan))),
         (atDispatch chains (seen (cbState scan))).
  split; [unfold dispatch, record; cbn [log]; by rewrite <- app_assoc|].
  do 3 (split; [reflexivity|]).
  intros i r Hd. rewrite toDict_lookup in Hd. apply last_Some_elem_of in Hd.
  apply list_elem_of_filter in Hd as [Hid Hr].
  apply collected_live in Hr as [Hr|(pre & name & post & Hc & Hr & Hk)];
    [by apply elem_of_nil in Hr|].
  split; [exact Hid|]. split.
  - apply (loaded_wellFormed (scanEnv world) savesPath [name]).
    cbn [flat_map]. by rewrite app_nil_r.
  - exists names, pre, name, post. rewrite <- Hid. by repeat split.
Qed.

End MoreSyncFacts.

(** ** The settings step and the activation *)

Section SettingsFacts.
Context `{PathModule}.
Variable reduce : IState -> Action -> IState.

Lemma iniPath_supported (documents gameMode ini : string) :
  GameSupport.iniPath documents gameMode = Some ini ->
  GameSupport.gameSupported gameMode = true ∧
  ∃ mygames, GameSupport.mygamesPath documents gameMode = Some mygames.
Proof.
  unfold GameSupport.iniPath, GameSupport.mygamesPath, GameSupport.gameSupported.
  destruct (GameSupport.member gameMode) as [g| |]; cbn; [|done..].
  intros _. split; eauto.
Qed.

(** The settings step once the ini file has been read. *)
Lemma settings_effect (world : World) (profileId : string) (st : AppState)
    (profile : IProfile) (ini : string) (data : IniData) :
  profiles (store st) !! profileId = Some profile ->
  GameSupport.iniPath (documents world) (gameId profile) = Some ini ->
  iniRead world ini = Resolved data ->
  ∃ mygames,
    GameSupport.mygamesPath (documents world) (gameId profile) = Some mygames ∧
    updateSaveSettings reduce world profileId st =
      let v := localSavePath profile profileId in
      let data' := <["General" := <["SLocalSavePath" := v]> (default ∅ (data !! "General"))]>
                     data in
      let readPath := mygames +:+ sep +:+ v in
      let st3 := dispatch reduce ClearSavegames
                   (dispatch reduce (SetSavegamePath v)
                      (record [EvIniWrite ini data'] (record [EvIniRead ini] st))) in
      (match ensureDirAsync world readPath with
       | Some err => Rejected err
       | None => Resolved (Some readPath)
       end, record [EvEnsureDir readPath] st3).
Proof.
  intros Hp Hi Hr. destruct (iniPath_supported _ _ _ Hi) as (Hs & mygames & Hm).
  exists mygames. split; [exact Hm|].
  unfold updateSaveSettings, localSavePath. rewrite Hp, Hi, Hr, Hs, Hm. cbn [negb].
  by destruct (ensureDirAsync world _).
Qed.

(** X9: the settings step rewrites one key of the ini file and keeps the
    rest: it writes the file it has read, once; every other section is as
    it was read, every other key of [General] too, and
    [General.SLocalSavePath] is the profile's own directory when the
    profile has its own saves and the common one otherwise. *)
Theorem ini_other_keys_kept (world : World) (profileId : string) (st : AppState)
    (profile : IProfile) (ini : string) (data : IniData) :
  profiles (store st) !! profileId = Some profile ->
  GameSupport.iniPath (documents world) (gameId profile) = Some ini ->
  iniRead world ini = Resolved data ->
  ∃ evs data',
    log (snd (updateSaveSettings reduce world profileId st)) = log st ++ evs ∧
    iniWrites evs = [(ini, data')] ∧
    (∀ section, section ≠ "General" -> data' !! section = data !! section) ∧
    (∀ key, key ≠ "SLocalSavePath" ->
            (data' !! "General") ≫= (fun g => g !! key) =
            (data !! "General") ≫= (fun g => g !! key)) ∧
    (data' !! "General") ≫= (fun g => g !! "SLocalSavePath") =
      Some (if default false (features profile !! "local_saves")
            then join ["Saves"; profileId] +:+ sep
            else "Saves" +:+ sep).
Proof.
  intros Hp Hi Hr.
  destruct (settings_effect world profileId st profile ini data Hp Hi Hr)
    as (mygames & _ & ->). cbv zeta; cbn [snd].
  eexists _, _. split.
  { unfold dispatch, record; cbn [log]. rewrite <- !app_assoc. reflexivity. }
  split; [reflexivity|]. split; [|split].
  - intros section Hne. by rewrite lookup_insert_ne.
  - intros key Hne. rewrite lookup_insert_eq; cbn.
    rewrite lookup_insert_ne by done. by destruct (data !! "General").
  - rewrite lookup_insert_eq; cbn. by rewrite lookup_insert_eq.
Qed.

(** X10: when the ini file cannot be read the activation stops there.
    Nothing is written or dispatched, the store and the watch are as
    before (a watch on the directory of the profile before stays open),
    and the rejection is left unhandled. *)
Theorem unreadable_ini_stops_activation (world : World) (profileId : string)
    (st : AppState) (profile : IProfile) (ini : string) (err : JsError) :
  profiles (store st) !! profileId = Some profile ->
  GameSupport.iniPath (documents world) (gameId profile) = Some ini ->
  iniRead world ini = Rejected err ->
  let st' := profileDidChange reduce world profileId st in
  log st' = log st ++ [EvIniRead ini; EvUnhandledRejection err] ∧
  store st' = store st ∧ fsWatcher st' = fsWatcher st ∧ watchers st' = watchers st.
Proof.
  intros Hp Hi Hr st'. subst st'.
  destruct (iniPath_supported _ _ _ Hi) as (Hs & _).
  unfold profileDidChange, updateSaveSettings. rewrite Hp, Hs, Hi, Hr. cbn [negb].
  unfold record; cbn [log store fsWatcher watchers]. by rewrite <- app_assoc.
Qed.

(** X11: when the save directory cannot be made, the activation has
    already rewritten the ini file, set the save path and cleared the
    saves of the store; it stops without a scan, without touching the
    watch, and with the rejection unhandled. *)
Theorem failed_mkdir_leaves_store_cleared (world : World) (profileId : string)
    (st : AppState) (profile : IProfile) (ini mygames : string) (data : IniData)
    (err : JsError) :
  profiles (store st) !! profileId = Some profile ->
  GameSupport.iniPath (documents world) (gameId profile) = Some ini ->
  GameSupport.mygamesPath (documents world) (gameId profile) = Some mygames ->
  iniRead world ini = Resolved data ->
  ensureDirAsync world (mygames +:+ sep +:+ localSavePath profile profileId) = Some err ->
  let v := localSavePath profile profileId in
  let st' := profileDidChange reduce world profileId st in
  ∃ data',
    log st' = log st ++ [EvIniRead ini; EvIniWrite ini data';
                         EvDispatch (SetSavegamePath v); EvDispatch ClearSavegames;
                         EvEnsureDir (mygames +:+ sep +:+ v); EvUnhandledRejection err] ∧
    store st' = reduce (reduce (store st) (SetSavegamePath v)) ClearSavegames ∧
    fsWatcher st' = fsWatcher st ∧ watchers st' = watchers st.
Proof.
  intros Hp Hi Hm Hr He v st'. subst st'.
  destruct (iniPath_supported _ _ _ Hi) as (Hs & _).
  destruct (settings_effect world profileId st profile ini data Hp Hi Hr)
    as (mygames' & Hm' & Heff).
  assert (mygames' = mygames) as -> by congruence.
  unfold profileDidChange. rewrite Hp, Hs, Heff. cbv zeta. cbn [negb].
  fold v. fold v in He. rewrite He.
  eexists. unfold dispatch, record; cbn [log store fsWatcher watchers].
  split; [by rewrite <- !app_assoc|done].
Qed.

(** X12: [updateSaveSettings] never resolves with [undefined]: its bare
    [return] for an unsupported game cannot be reached, since the path of
    the ini file is asked for first and that fails on such a game. *)
Theorem settings_never_undefined (world : World) (profileId : string) (st : AppState) :
  fst (updateSaveSettings reduce world profileId st) ≠ Resolved None.
Proof.
  unfold updateSaveSettings.
  destruct (profiles (store st) !! profileId) as [profile|]; [|done].
  destruct (GameSupport.iniPath _ _) as [ini|] eqn:Hi; [|done].
  destruct (iniPath_supported _ _ _ Hi) as (Hs & mygames & Hm).
  rewrite Hs, Hm. cbn [negb].
  destruct (iniRead world ini); [|done]. by destruct (ensureDirAsync world _).
Qed.


End SettingsFacts.

(** ** What an activation dispatches *)

Section DispatchFacts.
Context `{PathModule}.
Variable reduce : IState -> Action -> IState.

Lemma dispatched_app (a b : list Event) : dispatched (a ++ b) = dispatched a ++ dispatched b.
Proof. apply omap_app. Qed.

Lemma dispatches_refl (st : AppState) : dispatches st st [].
Proof. exists []. by rewrite app_nil_r. Qed.

Lemma dispatches_trans (a b c : AppState) (l k : list Action) :
  dispatches a b l -> dispatches b c k -> dispatches a c (l ++ k).
Proof.
  intros (e1 & H1 & <-) (e2 & H2 & <-). exists (e1 ++ e2).
  split; [by rewrite H2, H1, app_assoc|apply dispatched_app].
Qed.

Lemma dispatches_record (evs : list Event) (st : AppState) :
  dispatched evs = [] -> dispatches st (record evs st) [].
Proof. intros He. by exists evs. Qed.

Lemma dispatches_dispatch (a : Action) (st : AppState) :
  dispatches st (dispatch reduce a st) [a].
Proof. by exists [EvDispatch a]. Qed.

Lemma dispatched_scan (evs : list ScanEvent) : dispatched (EvScan <$> evs) = [].
Proof. induction evs as [|e evs IH]; [reflexivity|exact IH]. Qed.

Lemma dispatches_attach (world : World) (profileId savesPath : string)
    (failed : list string) (st : AppState) :
  dispatches st
    (attachWatch world profileId savesPath (closePrevious (reportFailed failed st))) [].
Proof.
  assert (H1 : dispatches st (reportFailed failed st) []).
  { unfold reportFailed. destruct (0 <? length failed)%nat;
      [by apply dispatches_record|apply dispatches_refl]. }
  assert (H2 : ∀ s, dispatches s (closePrevious s) []).
  { intros s. unfold closePrevious. destruct (fsWatcher s) as [w|];
      [by exists [EvWatchClose w]|apply dispatches_refl]. }
  assert (H3 : ∀ s, dispatches s (attachWatch world profileId savesPath s) []).
  { intros s. unfold attachWatch. destruct (watch world savesPath);
      [by apply dispatches_record|by eexists [EvWatchOpen _ _]]. }
  eapply (dispatches_trans _ _ _ [] [] H1).
  eapply (dispatches_trans _ _ _ [] [] (H2 _)), H3.
Qed.

Lemma dispatches_settings (world : World) (profileId : string) (st : AppState) :
  match updateSaveSettings reduce world profileId st with
  | (Rejected _, st') =>
    dispatches st st' [] ∨
    ∃ v, dispatches st st' [SetSavegamePath v; ClearSavegames] ∧
         store st' = reduce (reduce (store st) (SetSavegamePath v)) ClearSavegames
  | (Resolved _, st') =>
    ∃ v, dispatches st st' [SetSavegamePath v; ClearSavegames] ∧
         store st' = reduce (reduce (store st) (SetSavegamePath v)) ClearSavegames
  end.
Proof.
  unfold updateSaveSettings.
  destruct (profiles (store st) !! profileId) as [profile|];
    [|left; apply dispatches_refl].
  destruct (GameSupport.iniPath _ _) as [ini|]; [|left; apply dispatches_refl].
  destruct (iniRead world ini) as [data|err];
    [|left; by apply dispatches_record].
  set (v := if default false (features profile !! "local_saves") then _ else _).
  set (data' := <["General" := _]> data).
  set (st3 := dispatch reduce ClearSavegames _).
  assert (H3 : dispatches st st3 [SetSavegamePath v; ClearSavegames]).
  { eapply (dispatches_trans _ _ _ [] _ (dispatches_record [EvIniRead ini] st eq_refl)).
    eapply (dispatches_trans _ _ _ [] _ (dispatches_record [EvIniWrite ini data'] _ eq_refl)).
    eapply (dispatches_trans _ _ _ [_] [_]); apply dispatches_dispatch. }
  assert (H4 : ∀ evs, dispatched evs = [] ->
                 dispatches st (record evs st3) [SetSavegamePath v; ClearSavegames]).
  { intros evs He.
    eapply (dispatches_trans _ _ _ _ [] H3 (dispatches_record evs st3 He)). }
  destruct (negb _); [by exists v|].
  destruct (GameSupport.mygamesPath _ _) as [mygames|]; [|right; by exists v].
  destruct (ensureDirAsync world _); [right|]; exists v; (split; [by apply H4|done]).
Qed.

Lemma dispatches_updateSaves (world : World) (profileId savesPath : string)
    (st : AppState) :
  match updateSaves reduce world profileId savesPath st with
  | (Rejected _, st') => dispatches st st' []
  | (Resolved _, st') =>
    dispatches st st' [SetSavegames (toDict (newRecords world savesPath (store st)))]
  end.
Proof.
  unfold updateSaves, newRecords.
  destruct (refreshSavegames _ _ _ _) as [[failed|err] scan]; cbn [snd].
  - eapply (dispatches_trans _ _ _ [] [_]); [|apply dispatches_dispatch].
    apply dispatches_record, dispatched_scan.
  - apply dispatches_record, dispatched_scan.
Qed.

(** X14: an activation dispatches nothing, or the save path and the
    clearing of the saves, or these two followed by one batch of saves,
    and never anything else: the store is never given saves of a
    directory before it has been cleared. *)
Theorem activation_dispatches (world : World) (profileId : string) (st : AppState) :
  let st' := profileDidChange reduce world profileId st in
  dispatches st st' [] ∨
  ∃ v, dispatches st st' [SetSavegamePath v; ClearSavegames] ∨
       ∃ d, dispatches st st' [SetSavegamePath v; ClearSavegames; SetSavegames d].
Proof.
  intros st'. subst st'. unfold profileDidChange.
  destruct (profiles (store st) !! profileId) as [profile|]; [|left; apply dispatches_refl].
  destruct (negb _); [left; apply dispatches_refl|].
  pose proof (dispatches_settings world profileId st) as Hs.
  destruct (updateSaveSettings reduce world profileId st) as [[[savesPath|]|err] st1].
  - destruct Hs as (v & Hs & _).
    pose proof (dispatches_updateSaves world profileId savesPath st1) as Hu.
    destruct (updateSaves reduce world profileId savesPath st1) as [[failed|err] st2].
    + right. exists v. right. eexists.
      eapply (dispatches_trans _ _ _ _ [_] Hs).
      eapply (dispatches_trans _ _ _ [_] [] Hu), dispatches_attach.
    + right. exists v. left.
      eapply (dispatches_trans _ _ _ _ [] Hs).
      eapply (dispatches_trans _ _ _ [] [] Hu). by apply dispatches_record.
  - destruct Hs as (v & Hs & _). right. exists v. left.
    eapply (dispatches_trans _ _ _ _ [] Hs). by apply dispatches_record.
  - destruct Hs as [Hs|(v & Hs & _)].
    + left. eapply (dispatches_trans _ _ _ [] [] Hs). by apply dispatches_record.
    + right. exists v. left.
      eapply (dispatches_trans _ _ _ _ [] Hs). by apply dispatches_record.
Qed.


End DispatchFacts.

(** ** More on the watch *)

Section MoreWatchFacts.
Context `{PathModule}.
Variable reduce : IState -> Action -> IState.

Lemma live_none (st : AppState) : (∀ w, isLive st w = false) -> live st = [].
Proof.
  intros Hno. unfold live. apply elem_of_nil_inv.
  intros w [Hw _]%list_elem_of_filter. by rewrite Hno in Hw.
Qed.

Lemma live_last (st : AppState) (n : nat) :
  length (watchers st) = S n -> (∀ w, isLive st w = true ↔ w = n) -> live st = [n].
Proof.
  intros Hlen Hlive. unfold live. rewrite Hlen, seq_S, filter_app. cbn [plus].
  assert (filter (fun w => isLive st w = true) (seq 0 n) = []) as ->.
  { apply elem_of_nil_inv. intros w [Hw Hin]%list_elem_of_filter.
    apply Hlive in Hw as ->. apply list_elem_of_In, in_seq in Hin. lia. }
  rewrite filter_cons, decide_True by (by apply Hlive). reflexivity.
Qed.

Lemma closePrevious_watchers (st : AppState) :
  length (watchers (closePrevious st)) = length (watchers st) ∧
  fsWatcher (closePrevious st) = fsWatcher st.
Proof.
  unfold closePrevious. destruct (fsWatcher st) as [w|] eqn:Hf; [|done].
  unfold closeWatcher; cbn [watchers fsWatcher]. by rewrite length_alter.
Qed.

Lemma reportFailed_watchers (failed : list string) (st : AppState) :
  watchers (reportFailed failed st) = watchers st ∧
  fsWatcher (reportFailed failed st) = fsWatcher st.
Proof. unfold reportFailed. by destruct (0 <? length failed)%nat. Qed.

(** X16: when [fs.watch] throws, the watch of the profile before has been
    closed all the same: after the attach block no watch is open,
    [fsWatcher] still refers to what it referred to, no watcher object has
    been made, and the last thing done is the notification with the
    directory and the message of the error. *)
Theorem failed_attach_leaves_no_watch (inputs : list Input) (s : IState)
    (world : World) (profileId savesPath : string) (failed : list string)
    (err : JsError) :
  let st := run reduce inputs (initial s) in
  let st' := input reduce st (Attach world profileId savesPath failed) in
  watch world savesPath = Some err ->
  live st' = [] ∧
  fsWatcher st' = fsWatcher st ∧
  length (watchers st') = length (watchers st) ∧
  last (log st') =
    Some (EvNotify "Can't watch saves directory for changes"
            (PathError savesPath (errMessage err))).
Proof.
  intros st st' Hw. subst st'. cbn [input].
  assert (Hinv : watchInv (reportFailed failed st)).
  { eapply quietStep_inv; [apply quiet_reportFailed|]. apply run_inv, initial_inv. }
  destruct (closePrevious_inv _ Hinv) as [_ Hno].
  destruct (closePrevious_watchers (reportFailed failed st)) as [Hlen Hfs].
  destruct (reportFailed_watchers failed st) as [Hrw Hrf].
  unfold attachWatch. rewrite Hw.
  unfold showErrorNotification, record. split; [|split; [|split]].
  - apply live_none. intros w. unfold isLive; cbn [watchers]. apply Hno.
  - cbn [fsWatcher]. congruence.
  - cbn [watchers]. congruence.
  - cbn [log]. apply last_snoc.
Qed.

(** X17: when [fs.watch] succeeds, the attach block leaves exactly one
    watch open: the one just made, on the directory of the activation,
    bound to its profile and to a fresh debouncer; [fsWatcher] refers to
    it. *)
Theorem attach_opens_the_new_watch (inputs : list Input) (s : IState)
    (world : World) (profileId savesPath : string) (failed : list string) :
  let st := run reduce inputs (initial s) in
  let st' := input reduce st (Attach world profileId savesPath failed) in
  let n := length (watchers st) in
  watch world savesPath = None ->
  live st' = [n] ∧
  fsWatcher st' = Some n ∧
  watchers st' !! n =
    Some {| watchedPath := savesPath; boundProfile := profileId;
            update := Debouncer.make 1000; closed := false |}.
Proof.
  intros st st' n Hw. subst st'. cbn [input].
  assert (Hinv : watchInv (reportFailed failed st)).
  { eapply quietStep_inv; [apply quiet_reportFailed|]. apply run_inv, initial_inv. }
  destruct (closePrevious_inv _ Hinv) as [_ Hno].
  destruct (closePrevious_watchers (reportFailed failed st)) as [Hlen Hfs].
  destruct (reportFailed_watchers failed st) as [Hrw Hrf].
  set (st1 := closePrevious (reportFailed failed st)) in *.
  assert (Hn : length (watchers st1) = n) by (subst n; congruence).
  unfold attachWatch. rewrite Hw, Hn.
  assert (Hnew : ∀ r, (watchers st1 ++ [r]) !! n = Some r).
  { intros r. rewrite lookup_app_r by lia. by rewrite Hn, Nat.sub_diag. }
  split; [|split; [reflexivity|cbn [watchers]; apply Hnew]].
  apply live_last; cbn [watchers].
  { rewrite length_app; cbn [length]. lia. }
  intros w. unfold isLive; cbn [watchers].
  destruct (decide (w = n)) as [->|Hne].
  - by rewrite Hnew.
  - split; [|done]. destruct (decide (w < n)%nat) as [Hlt|Hge].
    + rewrite lookup_app_l by lia. pose proof (Hno w) as Hv.
      unfold isLive in Hv. by rewrite Hv.
    + rewrite lookup_ge_None_2; [done|]. rewrite length_app; cbn [length]. lia.
Qed.




Lemma keepsWatchers_refl (st : AppState) : keepsWatchers st st.
Proof. intros w r Hw. by exists r. Qed.

Lemma keepsWatchers_trans (a b c : AppState) :
  keepsWatchers a b -> keepsWatchers b c -> keepsWatchers a c.
Proof.
  intros Hab Hbc w r Hw.
  destruct (Hab w r Hw) as (r1 & Hw1 & Hp1 & Hb1 & Hc1).
  destruct (Hbc w r1 Hw1) as (r2 & Hw2 & Hp2 & Hb2 & Hc2).
  exists r2. repeat split; [done|congruence|congruence|auto].
Qed.

Lemma keepsWatchers_quiet (st st' : AppState) : quietStep st st' -> keepsWatchers st st'.
Proof. intros (_ & Hw & _) w r Hr. exists r. by rewrite Hw. Qed.

Lemma keepsWatchers_attach (world : World) (profileId savesPath : string)
    (failed : list string) (st : AppState) :
  keepsWatchers st
    (attachWatch world profileId savesPath (closePrevious (reportFailed failed st))).
Proof.
  apply (keepsWatchers_trans _ (reportFailed failed st));
    [apply keepsWatchers_quiet, quiet_reportFailed|].
  apply (keepsWatchers_trans _ (closePrevious (reportFailed failed st))).
  - unfold closePrevious. destruct (fsWatcher _) as [v|]; [|apply keepsWatchers_refl].
    intros w r Hr. unfold closeWatcher; cbn [watchers].
    destruct (decide (v = w)) as [->|Hne].
    + rewrite list_lookup_alter_eq, Hr. eexists; by repeat split.
    + rewrite list_lookup_alter_ne by done. by exists r.
  - unfold attachWatch. destruct (watch world savesPath);
      [apply keepsWatchers_quiet, quiet_notify|].
    intros w r Hr. cbn [watchers]. exists r.
    rewrite lookup_app_l by (by eapply lookup_lt_Some). done.
Qed.

Lemma keepsWatchers_input (st : AppState) (i : Input) :
  keepsWatchers st (input reduce st i).
Proof.
  destruct i as [wd profileId|wd profileId|wd profileId savesPath
                |wd profileId savesPath failed|w evt filename now]; cbn [input].
  - destruct (profileDidChange_steps reduce wd profileId st)
      as [Hq|(mid & savesPath & failed & Hq & ->)].
    + by apply keepsWatchers_quiet.
    + eapply keepsWatchers_trans; [by apply keepsWatchers_quiet|].
      apply keepsWatchers_attach.
  - apply keepsWatchers_quiet, quiet_updateSaveSettings.
  - apply keepsWatchers_quiet, quiet_updateSaves.
  - apply keepsWatchers_attach.
  - unfold fsEvent. destruct (watchers st !! w) as [r|] eqn:Hr; [|apply keepsWatchers_refl].
    destruct (closed r) eqn:Hc; [apply keepsWatchers_refl|].
    intros v r0 Hv. cbn [watchers]. destruct (decide (w = v)) as [->|Hne].
    + rewrite list_lookup_insert_eq by (by eapply lookup_lt_Some).
      assert (r0 = r) as -> by congruence.
      eexists; repeat split. cbn [closed]. congruence.
    + rewrite list_lookup_insert_ne by done. by exists r0.
Qed.

(** X19: a watcher object, once made, is never dropped, keeps the
    directory and the profile it was made for, and once closed is never
    open again, whatever runs afterwards. *)
Theorem closed_watch_stays_closed (inputs : list Input) (st : AppState)
    (w : nat) (r : Watcher) :
  watchers st !! w = Some r ->
  ∃ r', watchers (run reduce inputs st) !! w = Some r' ∧
        watchedPath r' = watchedPath r ∧ boundProfile r' = boundProfile r ∧
        (closed r = true -> closed r' = true).
Proof.
  assert (Hkeep : keepsWatchers st (run reduce inputs st)).
  { unfold run. revert st. induction inputs as [|i inputs IH]; intros st; cbn [fold_left].
    - apply keepsWatchers_refl.
    - eapply keepsWatchers_trans; [apply keepsWatchers_input|apply IH]. }
  apply Hkeep.
Qed.

End MoreWatchFacts.

(** ** The sequential promise helpers *)

Section HelperFacts.
Context {St T U : Type}.

Lemma mapSeriesFrom_spec (array : list T)
    (mapper : T -> nat -> list T -> St -> Promise U * St)
    (rest : list T) (i : nat) (results : list U) (s : St) :
  match Helpers.mapSeriesFrom array mapper i rest results s with
  | (Resolved out, _) =>
    ∃ us, out = results ++ us ∧ length us = length rest ∧
          ∀ j u, us !! j = Some u ->
                 ∃ x s1 s2, rest !! j = Some x ∧ mapper x (i + j)%nat array s1 = (Resolved u, s2)
  | (Rejected err, s') =>
    ∃ j x s1, rest !! j = Some x ∧ mapper x (i + j)%nat array s1 = (Rejected err, s')
  end.
Proof.
  revert i results s. induction rest as [|x rest IH]; intros i results s; cbn.
  { exists []. rewrite app_nil_r. repeat split. intros j u Hj. by destruct j. }
  destruct (mapper x i array s) as [[u|err] s1] eqn:Hm.
  - specialize (IH (S i) (results ++ [u]) s1).
    destruct (Helpers.mapSeriesFrom array mapper (S i) rest (results ++ [u]) s1)
      as [[out|err] s2].
    + destruct IH as (us & -> & Hlen & Hus). exists (u :: us).
      split; [by rewrite <- app_assoc|]. split; [cbn; by rewrite Hlen|].
      intros [|j] v Hj; cbn in Hj.
      * injection Hj as <-. exists x, s, s1. by rewrite Nat.add_0_r.
      * destruct (Hus j v Hj) as (y & t1 & t2 & Hy & Hc).
        exists y, t1, t2. split; [done|]. by rewrite <- Nat.add_succ_comm.
    + destruct IH as (j & y & t1 & Hy & Hc). exists (S j), y, t1.
      split; [done|]. by rewrite <- Nat.add_succ_comm.
  - exists 0%nat, x, s. by rewrite Nat.add_0_r.
Qed.

(** X20: [promiseMapSeries] keeps positions and stops at the first
    rejection.  When it resolves, the results are as many as the
    elements and each is what the mapper resolved with on the element at
    the same index; when it rejects, the error is the one of a mapper
    call on an element of the array, and the state is the one that call
    left: nothing has run after it. *)
Theorem promiseMapSeries_aligned (array : list T)
    (mapper : T -> nat -> list T -> St -> Promise U * St) (s : St) :
  match Helpers.promiseMapSeries array mapper s with
  | (Resolved out, _) =>
    length out = length array ∧
    ∀ j u, out !! j = Some u ->
           ∃ x s1 s2, array !! j = Some x ∧ mapper x j array s1 = (Resolved u, s2)
  | (Rejected err, s') =>
    ∃ j x s1, array !! j = Some x ∧ mapper x j array s1 = (Rejected err, s')
  end.
Proof.
  unfold Helpers.promiseMapSeries.
  pose proof (mapSeriesFrom_spec array mapper array 0 [] s) as Hs.
  destruct (Helpers.mapSeriesFrom array mapper 0 array [] s) as [[out|err] s'].
  - destruct Hs as (us & -> & Hlen & Hus). by split.
  - exact Hs.
Qed.

Lemma reduceFrom_pure (array : list T) (f : U -> T -> U) (rest : list T) (i : nat)
    (acc : U) (s : St) :
  Helpers.reduceFrom array (fun a x _ _ s => (Resolved (f a x), s)) i rest acc s =
    (Resolved (fold_left f rest acc), s).
Proof. revert i acc. induction rest as [|x rest IH]; intros i acc; cbn; [done|apply IH]. Qed.

Lemma reduceFrom_rejected (array : list T)
    (reducer : U -> T -> nat -> list T -> St -> Promise U * St)
    (rest : list T) (i : nat) (acc : U) (s s' : St) (err : JsError) :
  Helpers.reduceFrom array reducer i rest acc s = (Rejected err, s') ->
  ∃ j x a s1, rest !! j = Some x ∧ reducer a x (i + j)%nat array s1 = (Rejected err, s').
Proof.
  revert i acc s. induction rest as [|x rest IH]; intros i acc s; cbn; [done|].
  destruct (reducer acc x i array s) as [[a|e] s1] eqn:Hr.
  - intros (j & y & b & t1 & Hy & Hc)%IH. exists (S j), y, b, t1.
    split; [done|]. by rewrite <- Nat.add_succ_comm.
  - intros [= <- <-]. exists 0%nat, x, acc, s. by rewrite Nat.add_0_r.
Qed.

(** X21: [promiseReduce] is the fold from the left: with a reducer that
    computes [f] and always resolves it resolves with the left fold of
    [f], on the empty array with the initial value; and when it rejects,
    the error is the one of a reducer call on an element of the array,
    with nothing run after it. *)
Theorem promiseReduce_folds (array : list T) (f : U -> T -> U)
    (reducer : U -> T -> nat -> list T -> St -> Promise U * St)
    (initialValue : U) (s : St) :
  Helpers.promiseReduce array (fun a x _ _ s => (Resolved (f a x), s)) initialValue s =
    (Resolved (fold_left f array initialValue), s) ∧
  Helpers.promiseReduce [] reducer initialValue s = (Resolved initialValue, s) ∧
  ∀ err s',
    Helpers.promiseReduce array reducer initialValue s = (Rejected err, s') ->
    ∃ j x a s1, array !! j = Some x ∧ reducer a x j array s1 = (Rejected err, s').
Proof.
  split; [apply reduceFrom_pure|]. split; [reflexivity|].
  intros err s' Hr. by apply reduceFrom_rejected in Hr.
Qed.

End HelperFacts.

Lemma eachFrom_scan `{PathModule} {S : Type} (env : ScanEnv)
    (onAddSavegame : ISavegame -> S -> S) (savesPath : string)
    (array rest : list string) (i : nat) (st : Scan S) :
  Helpers.eachFrom array (scanIterator env onAddSavegame savesPath) i rest st =
    (Resolved array, eachAll env onAddSavegame savesPath rest st).
Proof.
  revert i st. induction rest as [|x rest IH]; intros i st; cbn; [done|apply IH].
Qed.

(** X22: the helper [promiseEach], given the iterator of the scan, does
    what the scan's own [Promise.each] does: it never rejects, resolves
    with the array of names it was given, and leaves the failure list,
    the events and the callback's state of the scan. *)
Theorem promiseEach_runs_the_scan `{PathModule} {S : Type} (env : ScanEnv)
    (onAddSavegame : ISavegame -> S -> S) (savesPath : string)
    (names : list string) (st : Scan S) :
  Helpers.promiseEach names (scanIterator env onAddSavegame savesPath) st =
    (Resolved names, eachAll env onAddSavegame savesPath names st) ∧
  failedReads (snd (Helpers.promiseEach names (scanIterator env onAddSavegame savesPath) st)) =
    failedReads st ++ flat_map (failureLine env savesPath) names.
Proof.
  unfold Helpers.promiseEach. rewrite eachFrom_scan. split; [reflexivity|].
  cbn [snd]. by rewrite eachAll_effect.
Qed.

(** ** The further properties at work on the sample worlds *)

Import Cases.

Lemma other_failure_not_retried_witness :
  listing files savesDir = Resolved listed ∧
  filter (fun n => isSavegame n = true) listed =
    ["save1.ess"] ++ "save2.ESS" :: ["busy.fos"; "locked.fos"] ∧
  decode files corruptPath FirstTry = Rejected corrupt ∧
  errCode corrupt ≠ Some "EBUSY" ∧
  (∃ evs, events afterCorrupt = events beforeCorrupt ++ evs ∧
          creates evs = [corruptPath] ∧ delays evs = []) ∧
  cbState afterCorrupt = cbState beforeCorrupt ∧
  failedReads scanned =
    flat_map (failureLine files savesDir) ["save1.ess"] ++
    ["save2.ESS" +:+ " - " +:+ errMessage corrupt] ++
    flat_map (failureLine files savesDir) ["busy.fos"; "locked.fos"].
Proof.
  split; [vm_compute; reflexivity|]. split; [vm_compute; reflexivity|].
  split; [vm_compute; reflexivity|]. split; [discriminate|].
  apply (other_failure_not_retried files keepId savesDir [] listed
           ["save1.ess"] ["busy.fos"; "locked.fos"] "save2.ESS" corrupt);
    [vm_compute; reflexivity|vm_compute; reflexivity|vm_compute; reflexivity|discriminate].
Defined.

Lemma scan_cost_witness :
  listing files savesDir = Resolved listed ∧
  Forall (fun ms => ms = 500) (delays scanEvents) ∧
  length (delays scanEvents) =
    length (filter (fun n => busyFirst files (join [savesDir; n]) = true)
              (filter (fun n => isSavegame n = true) listed)) ∧
  length (creates scanEvents) =
    (length (filter (fun n => isSavegame n = true) listed) + length (delays scanEvents))%nat ∧
  (length (creates scanEvents) ≤
     2 * length (filter (fun n => isSavegame n = true) listed))%nat ∧
  (length (opens scanEvents) ≤ length (creates scanEvents))%nat.
Proof.
  split; [vm_compute; reflexivity|].
  apply (scan_cost files keepId savesDir [] listed). vm_compute; reflexivity.
Defined.

Lemma every_candidate_accounted_witness :
  listing files savesDir = Resolved listed ∧
  ∃ records,
    cbState scanned = fold_left (fun s r => keepId r s) records [] ∧
    (length (failedReads scanned) + length records =
       length (filter (fun n => isSavegame n = true) listed))%nat ∧
    (filePath <$> records) `sublist_of`
      ((fun n => join [savesDir; n]) <$> filter (fun n => isSavegame n = true) listed) ∧
    Forall (fun r => id r = basename (filePath r) ∧ wellFormed r) records.
Proof.
  split; [vm_compute; reflexivity|].
  apply (every_candidate_accounted files keepId savesDir [] listed).
  vm_compute; reflexivity.
Defined.

Lemma probe_only_after_throw_witness :
  listing files savesDir = Resolved listed ∧
  (∀ q, q ∈ opens (events scanned) ->
     ∃ name att err,
       name ∈ listed ∧ isSavegame name = true ∧ q = join [savesDir; name] ∧
       create files q att = Throws err ∧
       Js.startsWith (errMessage err) "failed to open" = true) ∧
  ((∀ q att err, create files q att ≠ Throws err) -> opens (events scanned) = []).
Proof.
  split; [vm_compute; reflexivity|].
  apply (probe_only_after_throw files keepId savesDir [] listed). vm_compute; reflexivity.
Defined.

Lemma batch_has_unknown_ids_only_witness :
  updateSavesLive sessionReducer home clearing "p1" savesDir raced =
    (Resolved failedLines, mergedLive) ∧
  ∃ evs d s,
    log mergedLive = log raced ++ (EvScan <$> evs) ++ [EvDispatch (SetSavegames d)] ∧
    store mergedLive = sessionReducer s (SetSavegames d) ∧
    fsWatcher mergedLive = fsWatcher raced ∧ watchers mergedLive = watchers raced ∧
    ∀ i r, d !! i = Some r ->
      id r = i ∧ wellFormed r ∧
      ∃ names pre name post,
        listing (scanEnv home) savesDir = Resolved names ∧
        filter (fun n => isSavegame n = true) names = pre ++ name :: post ∧
        r ∈ loaded (scanEnv home) savesDir name ∧
        saves (atCallback clearing (filePath r)
                 (seen (cbState
                    (eachAll (scanEnv home) (collectLive clearing) savesDir pre
                       (scanStart savesDir
                          {| seen := store raced; newSavegames := [] |})))))
          !! i = None.
Proof.
  split; [vm_compute; reflexivity|].
  apply (batch_has_unknown_ids_only sessionReducer home clearing "p1" savesDir raced
           mergedLive failedLines).
  vm_compute; reflexivity.
Defined.

(** The batch of that run holds [busy.fos], which the store had when the
    scan started. *)
Example raced_batch :
  dispatched (log mergedLive) =
    [SetSavegames {[ "save1.ess" := save1; "busy.fos" := busySave ]}] ∧
  is_Some (saves (store raced) !! "busy.fos").
Proof. split; [vm_compute; reflexivity|by eexists]. Qed.

Lemma ini_other_keys_kept_witness :
  profiles (store started) !! "p3" = Some local ∧
  GameSupport.iniPath (documents configured) (gameId local) =
    Some "/docs/My Games/Fallout4/Fallout4Custom.ini" ∧
  iniRead configured "/docs/My Games/Fallout4/Fallout4Custom.ini" = Resolved ini ∧
  ∃ evs data',
    log (snd (updateSaveSettings sessionReducer configured "p3" started)) =
      log started ++ evs ∧
    iniWrites evs = [("/docs/My Games/Fallout4/Fallout4Custom.ini", data')] ∧
    (∀ section, section ≠ "General" -> data' !! section = ini !! section) ∧
    (∀ key, key ≠ "SLocalSavePath" ->
            (data' !! "General") ≫= (fun g => g !! key) =
            (ini !! "General") ≫= (fun g => g !! key)) ∧
    (data' !! "General") ≫= (fun g => g !! "SLocalSavePath") =
      Some (if default false (features local !! "local_saves")
            then join ["Saves"; "p3"] +:+ sep
            else "Saves" +:+ sep).
Proof.
  split; [vm_compute; reflexivity|]. split; [vm_compute; reflexivity|].
  split; [reflexivity|].
  apply (ini_other_keys_kept sessionReducer configured "p3" started local
           "/docs/My Games/Fallout4/Fallout4Custom.ini" ini);
    vm_compute; reflexivity.
Defined.

Lemma unreadable_ini_stops_activation_witness :
  profiles (store started) !! "p1" = Some {| gameId := "skyrimse"; features := ∅ |} ∧
  GameSupport.iniPath (documents unreadable) "skyrimse" = Some iniFile ∧
  iniRead unreadable iniFile = Rejected denied ∧
  log afterUnreadable = log started ++ [EvIniRead iniFile; EvUnhandledRejection denied] ∧
  store afterUnreadable = store started ∧
  fsWatcher afterUnreadable = fsWatcher started ∧
  watchers afterUnreadable = watchers started.
Proof.
  split; [vm_compute; reflexivity|]. split; [vm_compute; reflexivity|].
  split; [reflexivity|].
  apply (unreadable_ini_stops_activation sessionReducer unreadable "p1" started
           {| gameId := "skyrimse"; features := ∅ |} iniFile denied);
    vm_compute; reflexivity.
Defined.

Lemma failed_mkdir_leaves_store_cleared_witness :
  profiles (store started) !! "p1" = Some {| gameId := "skyrimse"; features := ∅ |} ∧
  GameSupport.iniPath (documents noDir) "skyrimse" = Some iniFile ∧
  GameSupport.mygamesPath (documents noDir) "skyrimse" = Some skyrimDir ∧
  iniRead noDir iniFile = Resolved ini ∧
  ensureDirAsync noDir
    (skyrimDir +:+ sep +:+
     localSavePath {| gameId := "skyrimse"; features := ∅ |} "p1") = Some denied ∧
  ∃ data',
    log afterNoDir =
      log started ++
      [EvIniRead iniFile; EvIniWrite iniFile data';
       EvDispatch (SetSavegamePath
                     (localSavePath {| gameId := "skyrimse"; features := ∅ |} "p1"));
       EvDispatch ClearSavegames;
       EvEnsureDir (skyrimDir +:+ sep +:+
                    localSavePath {| gameId := "skyrimse"; features := ∅ |} "p1");
       EvUnhandledRejection denied] ∧
    store afterNoDir =
      sessionReducer
        (sessionReducer (store started)
           (SetSavegamePath (localSavePath {| gameId := "skyrimse"; features := ∅ |} "p1")))
        ClearSavegames ∧
    fsWatcher afterNoDir = fsWatcher started ∧ watchers afterNoDir = watchers started.
Proof.
  split; [vm_compute; reflexivity|]. split; [vm_compute; reflexivity|].
  split; [vm_compute; reflexivity|]. split; [reflexivity|]. split; [reflexivity|].
  apply (failed_mkdir_leaves_store_cleared sessionReducer noDir "p1" started
           {| gameId := "skyrimse"; features := ∅ |} iniFile skyrimDir ini denied);
    vm_compute; reflexivity.
Defined.




Lemma failed_attach_leaves_no_watch_witness :
  watch unwatchable savesDir = Some denied ∧
  live afterFailedAttach = [] ∧
  fsWatcher afterFailedAttach = fsWatcher watching ∧
  length (watchers afterFailedAttach) = length (watchers watching) ∧
  last (log afterFailedAttach) =
    Some (EvNotify "Can't watch saves directory for changes"
            (PathError savesDir (errMessage denied))).
Proof.
  split; [reflexivity|].
  apply (failed_attach_leaves_no_watch sessionReducer [Activate home "p1"] state
           unwatchable "p1" savesDir [] denied).
  reflexivity.
Defined.

Lemma attach_opens_the_new_watch_witness :
  watch home savesDir = None ∧
  live afterAttach = [length (watchers watching)] ∧
  fsWatcher afterAttach = Some (length (watchers watching)) ∧
  watchers afterAttach !! length (watchers watching) =
    Some {| watchedPath := savesDir; boundProfile := "p1";
            update := Debouncer.make 1000; closed := false |}.
Proof.
  split; [reflexivity|].
  apply (attach_opens_the_new_watch sessionReducer [Activate home "p1"] state
           home "p1" savesDir []).
  reflexivity.
Defined.


Lemma closed_watch_stays_closed_witness :
  watchers switched !! 0%nat = Some closedWatcher ∧
  ∃ r', watchers (run sessionReducer [Activate home "p1"; Changed 0 "rename" "x.ess" 10]
                    switched) !! 0%nat = Some r' ∧
        watchedPath r' = watchedPath closedWatcher ∧
        boundProfile r' = boundProfile closedWatcher ∧
        (closed closedWatcher = true -> closed r' = true).
Proof.
  split; [vm_compute; reflexivity|].
  apply (closed_watch_stays_closed sessionReducer
           [Activate home "p1"; Changed 0 "rename" "x.ess" 10] switched 0%nat closedWatcher).
  vm_compute; reflexivity.
Defined.

(** The helpers on a mapper that fails on the third element: the fourth
    is never reached. *)
Example mapSeries_stops :
  Helpers.promiseMapSeries [1; 2; 3; 4] failThird 0%nat = (Rejected denied, 3%nat) ∧
  Helpers.promiseMapSeries [1; 2] failThird 0%nat = (Resolved [10; 20], 2%nat).
Proof. split; reflexivity. Qed.
